(** * Traceon backend: boundary-element kernels, field evaluators and tracer

    A shallow embedding of [src/traceon/backend/traceon-backend.c]; the
    second source file, [backend.c], is an earlier state of the same code,
    and the places where it differs are named where they matter.

    - A C [double] is a primitive binary64 [float]; [+ - * /], [sqrt], [fabs]
      and the comparisons are the IEEE-754 operations of the kernel, each one
      rounded on its own (no fused multiply-add, no extended precision).
    - The functions of [<math.h>] that IEEE-754 does not fix bit for bit
      ([log], [pow], [cos], [sin], [atan2]) are an interface, [Libm]; every
      theorem holds for every implementation of it, and [RefLibm] is one
      implementation, used to evaluate the code on concrete inputs.
    - A [double *] handed in by the caller is a buffer [nat -> float] indexed
      from the pointer, with no bound: a store is a pointwise update, and the
      buffers of one call do not overlap.  Fixed-size local arrays are lists.
    - A conversion [(int) x] that C leaves undefined, and a negative
      subscript, make the embedded function return [None].
    - [exit(1)] and a failed [assert] are results of their own, [Exit] and
      [AssertionFailed]. *)

From Stdlib Require Import ZArith List Bool Lia Floats QArith Qabs.
Import ListNotations.

Set Warnings "-inexact-float".
Local Open Scope float_scope.

(** ** The C scalar operations the code relies on *)

Module C.

Definition fabs (x : float) : float := abs x.

(** C99 [fmin]/[fmax]: a NaN argument is treated as missing data. *)
Definition fmin (x y : float) : float :=
  if is_nan x then y else if is_nan y then x else if x <? y then x else y.

Definition fmax (x y : float) : float :=
  if is_nan x then y else if is_nan y then x else if x <? y then y else x.

(** [(double) n] for an [int] [n]; exact, as [|n| < 2^53]. *)
Definition of_int (n : Z) : float :=
  match n with
  | Z0 => 0
  | Zpos _ => of_uint63 (Uint63.of_Z n)
  | Zneg p => - of_uint63 (Uint63.of_Z (Zpos p))
  end.

Definition INT_MIN : Z := (- 2147483648)%Z.
Definition INT_MAX : Z := 2147483647%Z.

(** The integer a finite double truncates to (rounding toward zero). *)
Definition trunc (x : float) : option Z :=
  match Prim2SF x with
  | S754_zero _ => Some 0%Z
  | S754_finite s m e =>
      let mag := Z.shiftl (Zpos m) e in
      Some (if s then (- mag)%Z else mag)
  | _ => None
  end.

(** [(int) x]: defined only when the truncated value is an [int]. *)
Definition to_int (x : float) : option Z :=
  match trunc x with
  | Some v => if (INT_MIN <=? v)%Z && (v <=? INT_MAX)%Z then Some v else None
  | None => None
  end.

(** [(int) x] used as a subscript into a buffer. *)
Definition to_index (x : float) : option nat :=
  match to_int x with
  | Some v => if (0 <=? v)%Z then Some (Z.to_nat v) else None
  | None => None
  end.

End C.

(** ** Buffers and small vectors *)

Definition buf := nat -> float.

Definition upd (b : buf) (i : nat) (v : float) : buf :=
  fun j => if Nat.eqb j i then v else b j.

Definition buf_of_list (l : list float) : buf := fun i => nth i l 0.

Definition vec := list float.

Definition get (v : vec) (i : nat) : float := nth i v 0.

(** ** The [<math.h>] interface *)

Class Libm := {
  log : float -> float;
  pow : float -> float -> float;
  cos : float -> float;
  sin : float -> float;
  atan2 : float -> float -> float
}.

Definition M_PI : float := 3.14159265358979323846.

(** ** A reference [<math.h>]

    An executable implementation of the interface, accurate to a few units in
    the last place on the arguments used below.  It is not the C library's
    code; it is the instance at which the embedded functions are evaluated. *)

Module RefLibm.

Definition LN2 : float := 0.6931471805599453.
Definition SQRT1_2 : float := 0.7071067811865476.
Definition M_PI_2 : float := 1.5707963267948966.

(** [x * 2^e]. *)
Definition scale (x : float) (e : Z) : float := Z.ldexp x e.

(** Sum of [c_k * t^k] over the coefficients, by Horner's rule. *)
Definition horner (cs : list float) (t : float) : float :=
  fold_right (fun c acc => c + t * acc) 0 cs.

Definition odd_recips (n : nat) : list float :=
  map (fun k => 1 / C.of_int (Z.of_nat (2 * k + 1))) (seq 0 n).

Fixpoint inv_factorials (n : nat) (k : Z) (acc : float) : list float :=
  match n with
  | O => []
  | S n' => acc :: inv_factorials n' (k + 1)%Z (acc / C.of_int (k + 1))
  end.

Definition log (x : float) : float :=
  if is_nan x then nan
  else if x <? 0 then nan
  else if x =? 0 then neg_infinity
  else if x =? infinity then infinity
  else
    let (m, e) := Z.frexp x in
    let (m, e) := if m <? SQRT1_2 then (2 * m, (e - 1)%Z) else (m, e) in
    let s := (m - 1) / (m + 1) in
    C.of_int e * LN2 + 2 * s * horner (odd_recips 14) (s * s).

Definition nearest (x : float) : Z :=
  match C.trunc (if x <? 0 then x - 0.5 else x + 0.5) with
  | Some k => k
  | None => 0%Z
  end.

Definition exp (x : float) : float :=
  if is_nan x then nan
  else if x =? infinity then infinity
  else if x =? neg_infinity then 0
  else if 1000 <? x then infinity
  else if x <? -1000 then 0
  else
    let k := nearest (x / LN2) in
    let r := x - C.of_int k * LN2 in
    scale (horner (inv_factorials 20 0 1) r) k.

(** [x^n] for a natural [n], by repeated multiplication. *)
Fixpoint powi (x : float) (n : nat) : float :=
  match n with
  | O => 1
  | S n' => x * powi x n'
  end.

(** The integer a double holds, when it holds a small one. *)
Definition small_integer (y : float) : option Z :=
  match C.trunc y with
  | Some k => if (C.of_int k =? y) && (Z.abs k <=? 1024)%Z then Some k else None
  | None => None
  end.

Definition pow (x y : float) : float :=
  if y =? 0 then 1
  else if x =? 1 then 1
  else if is_nan x || is_nan y then nan
  else
    match small_integer y with
    | Some k =>
        if (0 <=? k)%Z then powi x (Z.to_nat k) else 1 / powi x (Z.to_nat (- k))
    | None =>
        if x <? 0 then nan
        else if x =? 0 then (if y <? 0 then infinity else 0)
        else exp (y * log x)
    end.

(** Sine and cosine on [[-pi/4, pi/4]] by their Taylor series. *)
Definition sin_kernel (r : float) : float :=
  r * horner [1; -1/6; 1/120; -1/5040; 1/362880; -1/39916800;
              1/6227020800; -1/1307674368000] (r * r).

Definition cos_kernel (r : float) : float :=
  horner [1; -1/2; 1/24; -1/720; 1/40320; -1/3628800; 1/479001600;
          -1/87178291200; 1/20922789888000] (r * r).

Definition quadrant (x : float) : Z * float :=
  let k := nearest (x / M_PI_2) in
  ((k mod 4)%Z, x - C.of_int k * M_PI_2).

Definition sin (x : float) : float :=
  if is_finite x then
    match quadrant x with
    | (0%Z, r) => sin_kernel r
    | (1%Z, r) => cos_kernel r
    | (2%Z, r) => - sin_kernel r
    | (_, r) => - cos_kernel r
    end
  else nan.

Definition cos (x : float) : float :=
  if is_finite x then
    match quadrant x with
    | (0%Z, r) => cos_kernel r
    | (1%Z, r) => - sin_kernel r
    | (2%Z, r) => - cos_kernel r
    | (_, r) => sin_kernel r
    end
  else nan.

(** Arc tangent of [t] in [[0, 1]]: two half-angle reductions, then the
    series of atan. *)
Definition atan01 (t : float) : float :=
  let half u := u / (1 + sqrt (1 + u * u)) in
  let u := half (half t) in
  let alt (k : nat) := if Nat.even k then 1 else -1 in
  let cs := map (fun k => alt k / C.of_int (Z.of_nat (2 * k + 1))) (seq 0 16) in
  4 * u * horner cs (u * u).

Definition atan_pos (t : float) : float :=
  if t =? infinity then M_PI_2
  else if t <=? 1 then atan01 t else M_PI_2 - atan01 (1 / t).

Definition atan2 (y x : float) : float :=
  if is_nan x || is_nan y then nan
  else
    let a :=
      if (abs x =? infinity) && (abs y =? infinity) then M_PI_2 / 2
      else if (x =? 0) && (y =? 0) then 0
      else atan_pos (abs y / abs x) in
    let a := if (x <? 0) || ((x =? 0) && (y =? 0) && get_sign x) then M_PI - a else a in
    if (y <? 0) || ((y =? 0) && get_sign y) then - a else a.

Definition libm : Libm := Build_Libm log pow cos sin atan2.

End RefLibm.

(** Left-to-right accumulation [sum_ += term i] for [i = 0 .. n-1]. *)
Definition accumulate (n : nat) (term : nat -> float) (init : float) : float :=
  fold_left (fun s i => s + term i) (seq 0 n) init.

Definition Zn (n : nat) : float := C.of_int (Z.of_nat n).

(** ** Compile-time constants *)

Definition DERIV_2D_MAX : nat := 9.
Definition NU_MAX : nat := 4.
Definition M_MAX : nat := 8.
Definition N_TRIANGLE_QUAD : nat := 9.
Definition N_QUAD_2D : nat := 8.
Definition N_LOG_QUAD_2D : nat := 7.
Definition TRACING_STEP_MAX : float := 0.01.
Definition MIN_DISTANCE_AXIS : float := 1e-10.
Definition TRACING_BLOCK_SIZE : nat := Z.to_nat 100000.

(** ** Quadrature tables *)

Definition QUAD_B1 : vec :=
  [0.124949503233232; 0.437525248383384; 0.437525248383384;
   0.797112651860071; 0.797112651860071; 0.165409927389841;
   0.165409927389841; 0.037477420750088; 0.037477420750088].

Definition QUAD_B2 : vec :=
  [0.437525248383384; 0.124949503233232; 0.437525248383384;
   0.165409927389841; 0.037477420750088; 0.797112651860071;
   0.037477420750088; 0.797112651860071; 0.165409927389841].

Definition QUAD_WEIGHTS : vec :=
  [0.205950504760887; 0.205950504760887; 0.205950504760887;
   0.063691414286223; 0.063691414286223; 0.063691414286223;
   0.063691414286223; 0.063691414286223; 0.063691414286223].

Definition GAUSS_QUAD_POINTS : vec :=
  [-0.1834346424956498; 0.1834346424956498; -0.5255324099163290;
   0.5255324099163290; -0.7966664774136267; 0.7966664774136267;
   -0.9602898564975363; 0.9602898564975363].

Definition GAUSS_QUAD_WEIGHTS : vec :=
  [0.3626837833783620; 0.3626837833783620; 0.3137066458778873;
   0.3137066458778873; 0.2223810344533745; 0.2223810344533745;
   0.1012285362903763; 0.1012285362903763].

(** John A. Crow. Quadrature of Integrands with a Logarithmic Singularity. *)
Definition GAUSS_LOG_QUAD_POINTS : vec :=
  [0.175965211846577428056264284949e-2;
   0.244696507125133674276453373497e-1;
   0.106748056858788954180259781083;
   0.275807641295917383077859512057;
   0.517855142151833716158668961982;
   0.771815485362384900274646869494;
   0.952841340581090558994306588503].

Definition GAUSS_LOG_QUAD_WEIGHTS : vec :=
  [0.663266631902570511783904989051e-2;
   0.457997079784753341255767348120e-1;
   0.123840208071318194550489564922;
   0.212101926023811930107914875456;
   0.261390645672007725646580606859;
   0.231636180290909384318815526104;
   0.118598665644451726132783641957].

(** ** Elliptic integrals (Cody 1965) *)

Section Elliptic.
Context {M : Libm}.

Definition ellipk_A : vec :=
  [log 4.0; 9.65736020516771e-2; 3.08909633861795e-2; 1.52618320622534e-2;
   1.25565693543211e-2; 1.68695685967517e-2; 1.09423810688623e-2;
   1.40704915496101e-3].

Definition ellipk_B : vec :=
  [1.0 / 2.0; 1.24999998585309e-1; 7.03114105853296e-2; 4.87379510945218e-2;
   3.57218443007327e-2; 2.09857677336790e-2; 5.81807961871996e-3;
   3.42805719229748e-4].

(** [ellipk_singularity], lines 62-90. *)
Definition ellipk_singularity (k : float) : float :=
  let eta := 1 - k in
  let L := log (1 / eta) in
  accumulate 8 (fun i => (get ellipk_A i + L * get ellipk_B i) * pow eta (Zn i)) 0.0.

(** [ellipk], lines 92-96. *)
Definition ellipk (k : float) : float :=
  if -1 <? k then ellipk_singularity k
  else ellipk_singularity (1 - 1 / (1 - k)) / sqrt (1 - k).

Definition ellipe_A : vec :=
  [1; 4.43147193467733e-1; 5.68115681053803e-2; 2.21862206993846e-2;
   1.56847700239786e-2; 1.92284389022977e-2; 1.21819481486695e-2;
   1.55618744745296e-3].

Definition ellipe_B : vec :=
  [0; 2.49999998448655e-1; 9.37488062098189e-2; 5.84950297066166e-2;
   4.09074821593164e-2; 2.35091602564984e-2; 6.45682247315060e-3;
   3.78886487349367e-4].

(** [ellipe_01], lines 98-126. *)
Definition ellipe_01 (k : float) : float :=
  let eta := 1 - k in
  let L := log (1 / eta) in
  accumulate 8 (fun i => (get ellipe_A i + L * get ellipe_B i) * pow eta (Zn i)) 0.0.

(** [ellipe], lines 128-132. *)
Definition ellipe (k : float) : float :=
  if (0 <=? k) && (k <=? 1) then ellipe_01 k
  else ellipe_01 (k / (k - 1)) * sqrt (1 - k).

End Elliptic.

(** ** Utilities, 2D and 3D *)

Definition norm_2d (x y : float) : float := sqrt (x * x + y * y).

Definition length_2d (v1 v2 : buf) : float :=
  norm_2d (v2 0%nat - v1 0%nat) (v2 1%nat - v1 1%nat).

Definition normal_2d (p1 p2 : buf) : vec :=
  let x1 := p1 0%nat in let y1 := p1 1%nat in
  let x2 := p2 0%nat in let y2 := p2 1%nat in
  let tangent_x := x2 - x1 in let tangent_y := y2 - y1 in
  let normal_x := tangent_y in let normal_y := - tangent_x in
  let length := norm_2d normal_x normal_y in
  [normal_x / length; normal_y / length].

Definition norm_3d (x y z : float) : float := sqrt (x * x + y * y + z * z).

Definition normal_3d (p1 p2 p3 : buf) : vec :=
  let x1 := p1 0%nat in let y1 := p1 1%nat in let z1 := p1 2%nat in
  let x2 := p2 0%nat in let y2 := p2 1%nat in let z2 := p2 2%nat in
  let x3 := p3 0%nat in let y3 := p3 1%nat in let z3 := p3 2%nat in
  let normal_x := (y2 - y1) * (z3 - z1) - (y3 - y1) * (z2 - z1) in
  let normal_y := (x3 - x1) * (z2 - z1) - (x2 - x1) * (z3 - z1) in
  let normal_z := (x2 - x1) * (y3 - y1) - (x3 - x1) * (y2 - y1) in
  let length := norm_3d normal_x normal_y normal_z in
  [normal_x / length; normal_y / length; normal_z / length].

(** [&p[off]]: the buffer seen from an offset. *)
Definition at_offset (p : buf) (off : nat) : buf := fun i => p (off + i)%nat.

Definition integration_cb_3d :=
  float -> float -> float -> float -> float -> float -> float.

(** ** Triangle quadrature *)

Section Kernels.
Context {M : Libm}.

Definition triangle_area (v1 v2 v3 : buf) : float :=
  let v1x := v1 0%nat in let v1y := v1 1%nat in let v1z := v1 2%nat in
  let v2x := v2 0%nat in let v2y := v2 1%nat in let v2z := v2 2%nat in
  let v3x := v3 0%nat in let v3y := v3 1%nat in let v3z := v3 2%nat in
  0.5 * sqrt (pow ((v2y - v1y) * (v3z - v1z) - (v2z - v1z) * (v3y - v1y)) 2
              + pow ((v2z - v1z) * (v3x - v1x) - (v2x - v1x) * (v3z - v1z)) 2
              + pow ((v2x - v1x) * (v3y - v1y) - (v2y - v1y) * (v3x - v1x)) 2).

(** [triangle_integral], lines 194-217. *)
Definition triangle_integral (target v1 v2 v3 : buf) (function : integration_cb_3d) : float :=
  let v1x := v1 0%nat in let v1y := v1 1%nat in let v1z := v1 2%nat in
  let v2x := v2 0%nat in let v2y := v2 1%nat in let v2z := v2 2%nat in
  let v3x := v3 0%nat in let v3y := v3 1%nat in let v3z := v3 2%nat in
  let area := triangle_area v1 v2 v3 in
  let sum_ :=
    accumulate N_TRIANGLE_QUAD (fun k =>
      let b1_ := get QUAD_B1 k in
      let b2_ := get QUAD_B2 k in
      let w := get QUAD_WEIGHTS k in
      let x := v1x + b1_ * (v2x - v1x) + b2_ * (v3x - v1x) in
      let y := v1y + b1_ * (v2y - v1y) + b2_ * (v3y - v1y) in
      let z := v1z + b1_ * (v2z - v1z) + b2_ * (v3z - v1z) in
      w * function (target 0%nat) (target 1%nat) (target 2%nat) x y z) 0.0 in
  area * sum_.

Definition potential_3d_point (x0 y0 z0 x y z : float) : float :=
  let r := norm_3d (x - x0) (y - y0) (z - z0) in
  1 / (4 * r).

(** The copy of [triangle_integral] with [potential_3d_point] inlined. *)
Definition triangle_integral_potential_3d_point (target v1 v2 v3 : buf) : float :=
  let v1x := v1 0%nat in let v1y := v1 1%nat in let v1z := v1 2%nat in
  let v2x := v2 0%nat in let v2y := v2 1%nat in let v2z := v2 2%nat in
  let v3x := v3 0%nat in let v3y := v3 1%nat in let v3z := v3 2%nat in
  let area := triangle_area v1 v2 v3 in
  let sum_ :=
    accumulate N_TRIANGLE_QUAD (fun k =>
      let b1_ := get QUAD_B1 k in
      let b2_ := get QUAD_B2 k in
      let w := get QUAD_WEIGHTS k in
      let x := v1x + b1_ * (v2x - v1x) + b2_ * (v3x - v1x) in
      let y := v1y + b1_ * (v2y - v1y) + b2_ * (v3y - v1y) in
      let z := v1z + b1_ * (v2z - v1z) + b2_ * (v3z - v1z) in
      w * potential_3d_point (target 0%nat) (target 1%nat) (target 2%nat) x y z) 0.0 in
  area * sum_.

(** ** Radial ring potential and its derivatives *)

Definition dr1_potential_radial_ring (r_0 z_0 r z : float) : float :=
  if C.fabs r_0 <? MIN_DISTANCE_AXIS then 0.0
  else
    let s := norm_2d (z - z_0) (r + r_0) in
    let s1 := (r_0 + r) / s in
    let t := 4.0 * r * r_0 / pow s 2 in
    let A := ellipe t in
    let B := ellipk t in
    let ellipe_term :=
      - (2.0 * r * r_0 * s1 - r * s) / (2.0 * r_0 * pow s 2 - 8.0 * pow r_0 2 * r) in
    let ellipk_term := - r / (2.0 * r_0 * s) in
    A * ellipe_term + B * ellipk_term.

Definition potential_radial_ring (r_0 z_0 r z : float) : float :=
  let rz2 := pow (r + r_0) 2 + pow (z - z_0) 2 in
  let t := 4.0 * r * r_0 / rz2 in
  ellipk t * r / sqrt rz2.

Definition dz1_potential_radial_ring (r_0 z_0 r z : float) : float :=
  let rz2 := pow (r + r_0) 2 + pow (z - z_0) 2 in
  let t := 4.0 * r * r_0 / rz2 in
  let numerator := r * (z - z_0) * ellipe t in
  let denominator := (pow (z - z_0) 2 + pow (r - r_0) 2) * sqrt rz2 in
  numerator / denominator.

(** ** 3D point potential derivatives *)

Definition dx1_potential_3d_point (x0 y0 z0 x y z : float) : float :=
  let r := norm_3d (x - x0) (y - y0) (z - z0) in
  (x - x0) / (4 * pow r 3).

Definition dy1_potential_3d_point (x0 y0 z0 x y z : float) : float :=
  let r := norm_3d (x - x0) (y - y0) (z - z0) in
  (y - y0) / (4 * pow r 3).

Definition dz1_potential_3d_point (x0 y0 z0 x y z : float) : float :=
  let r := norm_3d (x - x0) (y - y0) (z - z0) in
  (z - z0) / (4 * pow r 3).

Definition field_dot_normal_3d (normal : vec) (x0 y0 z0 x y z : float) : float :=
  let Ex := - dx1_potential_3d_point x0 y0 z0 x y z in
  let Ey := - dy1_potential_3d_point x0 y0 z0 x y z in
  let Ez := - dz1_potential_3d_point x0 y0 z0 x y z in
  get normal 0 * Ex + get normal 1 * Ey + get normal 2 * Ez.

Definition field_dot_normal_radial (normal : vec) (r0 z0 r z : float) : float :=
  let Er := - dr1_potential_radial_ring r0 z0 r z in
  let Ez := - dz1_potential_radial_ring r0 z0 r z in
  get normal 0 * Er + get normal 1 * Ez.

End Kernels.

(** ** Particle tracing *)

Definition EM : float := -0.1758820022723908.

(** The Runge-Kutta-Fehlberg tableau, lines 262-269; the quotients are
    floating-point divisions ([2./9.]). *)

Definition A : vec := [0.0; 2/9; 1/3; 3/4; 1; 5/6].
Definition B6 : vec := [65/432; -5/16; 13/16; 4/27; 5/144].
Definition B5 : vec := [-17/12; 27/4; -27/5; 16/15].
Definition B4 : vec := [69/128; -243/128; 135/64].
Definition B3 : vec := [1/12; 1/4].
Definition B2 : vec := [2/9].
Definition CH : vec := [47/450; 0; 12/25; 32/225; 1/30; 6/25].
Definition CT : vec := [-1/150; 0; 3/100; -16/75; -1/20; 6/25].

(** A field callback: the 6-vector state in, the 3-vector field out. *)
Definition field_fun := vec -> vec.

(** A [double m[6][6]] local: six rows. *)
Definition mat := list vec.

Definition row (m : mat) (i : nat) : vec := nth i m [].

Fixpoint set_at {T : Type} (l : list T) (i : nat) (v : T) : list T :=
  match l, i with
  | [], _ => []
  | _ :: t, O => v :: t
  | x :: t, S i' => x :: set_at t i' v
  end.

Definition zeros6 : vec := [0.0; 0.0; 0.0; 0.0; 0.0; 0.0].
Definition zeros66 : mat := [zeros6; zeros6; zeros6; zeros6; zeros6; zeros6].

Definition coefficients : list vec := [[]; B2; B3; B4; B5; B6].

(** [produce_new_y], lines 273-285: row [index] of [ys]. *)
Definition produce_new_y (y : vec) (ys ks : mat) (index : nat) : mat :=
  set_at ys index
    (map (fun i =>
            fold_left (fun acc j => acc + get (nth index coefficients []) j * get (row ks j) i)
                      (seq 0 index) (get y i))
         (seq 0 6)).

(** [produce_new_k], lines 287-299: row [index] of [ks].  ([backend.c] takes
    the first three entries from [ks[index-1][3..5]].) *)
Definition produce_new_k (ys ks : mat) (index : nat) (h : float) (ff : field_fun) : mat :=
  let field := ff (row ys index) in
  set_at ks index
    [h * get (row ys index) 3; h * get (row ys index) 4; h * get (row ys index) 5;
     h * EM * get field 0; h * EM * get field 1; h * EM * get field 2].

Record tracer_state := {
  st_y : vec;
  st_h : float;
  st_N : nat;
  st_times : buf;
  st_positions : buf
}.

Section Tracer.
Context {M : Libm}.
Variable field : field_fun.
Variable bounds : buf.
Variable atol : float.

Definition xmin := bounds 0%nat.
Definition xmax := bounds 1%nat.
Definition ymin := bounds 2%nat.
Definition ymax := bounds 3%nat.
Definition zmin := bounds 4%nat.
Definition zmax := bounds 5%nat.

(** The condition of the [while]. *)
Definition in_bounds (y : vec) : bool :=
  (xmin <=? get y 0) && (get y 0 <=? xmax) &&
  (ymin <=? get y 1) && (get y 1 <=? ymax) &&
  (zmin <=? get y 2) && (get y 2 <=? zmax).

(** The six stages: [k] and [ys] after the [for] over [index]. *)
Definition stages (y : vec) (h : float) : mat * mat :=
  fold_left (fun (kys : mat * mat) index =>
               let ys := produce_new_y y (snd kys) (fst kys) index in
               let k := produce_new_k ys (fst kys) index h field in
               (k, ys))
            (seq 0 6) (zeros66, zeros66).

(** The truncation error [TE] of the step. *)
Definition truncation_error (k : mat) : float :=
  fold_left (fun TE i =>
               let err := accumulate 6 (fun j => get CT j * get (row k j) i) 0.0 in
               if TE <? C.fabs err then C.fabs err else TE)
            (seq 0 6) 0.0.

(** The body of [if(TE <= atol)] up to [N += 1]. *)
Definition store_step (s : tracer_state) (k : mat) : tracer_state :=
  let N := st_N s in
  let h := st_h s in
  let '(y, times, positions) :=
    fold_left (fun (acc : vec * buf * buf) i =>
                 let '(y, times, positions) := acc in
                 let yi := get y i
                           + (get CH 0 * get (row k 0) i + get CH 1 * get (row k 1) i
                              + get CH 2 * get (row k 2) i + get CH 3 * get (row k 3) i
                              + get CH 4 * get (row k 4) i + get CH 5 * get (row k 5) i) in
                 (set_at y i yi,
                  upd times N (times (N - 1)%nat + h),
                  upd positions (6 * N + i) yi))
              (seq 0 6) (st_y s, st_times s, st_positions s) in
  {| st_y := y; st_h := h; st_N := N + 1; st_times := times; st_positions := positions |}.

Definition next_h (h hmax TE : float) : float :=
  C.fmin (0.9 * h * pow (atol / TE) 0.2) hmax.

Definition with_h (s : tracer_state) (h : float) : tracer_state :=
  {| st_y := st_y s; st_h := h; st_N := st_N s;
     st_times := st_times s; st_positions := st_positions s |}.

Inductive outcome :=
| Returned (s : tracer_state)
| Continue (s : tracer_state).

(** One evaluation of the loop condition and, when it holds, of the body
    (lines 321-353).  In [backend.c] the step is accepted also when
    [h == hmin], and the new step size is clamped from below by [hmin]. *)
Definition iteration (hmax : float) (s : tracer_state) : outcome :=
  if in_bounds (st_y s) then
    let k := fst (stages (st_y s) (st_h s)) in
    let TE := truncation_error k in
    if TE <=? atol then
      let s' := store_step s k in
      if Nat.eqb (st_N s') TRACING_BLOCK_SIZE then Returned s'
      else Continue (with_h s' (next_h (st_h s) hmax TE))
    else Continue (with_h s (next_h (st_h s) hmax TE))
  else Returned s.

(** The [while] loop, run for at most [fuel] iterations. *)
Fixpoint trace_loop (hmax : float) (fuel : nat) (s : tracer_state) : option tracer_state :=
  match fuel with
  | O => None
  | S fuel' =>
      match iteration hmax s with
      | Returned r => Some r
      | Continue s' => trace_loop hmax fuel' s'
      end
  end.

Definition initial_state (times_array pos_array : buf) : tracer_state :=
  let y := map (fun i => pos_array i) (seq 0 6) in
  let V := norm_3d (get y 3) (get y 4) (get y 5) in
  let hmax := TRACING_STEP_MAX / V in
  {| st_y := y; st_h := hmax; st_N := 1;
     st_times := times_array; st_positions := pos_array |}.

(** [trace_particle], lines 302-356: the returned [N] with the two arrays as it leaves
    them; [None] when the loop is still running after [fuel] iterations. *)
Definition trace_particle (fuel : nat) (times_array pos_array : buf)
  : option (nat * buf * buf) :=
  let s0 := initial_state times_array pos_array in
  match trace_loop (st_h s0) fuel s0 with
  | Some r => Some (st_N r, st_times r, st_positions r)
  | None => None
  end.

End Tracer.

(** ** The step control of [backend.c]

    The earlier [trace_particle] (backend.c, lines 276-331) keeps a smallest
    step [hmin = TRACING_STEP_MIN / V]: a step is accepted also when
    [h == hmin], and the step size is updated in two branches, clamped from
    below. *)

Module Legacy.

Definition TRACING_STEP_MAX : float := 0.085.
Definition TRACING_STEP_MIN : float := TRACING_STEP_MAX / 1e10.

(** [if (TE <= atol || h == hmin)]. *)
Definition accepts (TE atol h hmin : float) : bool :=
  (TE <=? atol) || (h =? hmin).

(** [if (TE > atol / 10) h = fmax(fmin(0.9 * h * pow(atol / TE, 0.2), hmax), hmin);
    else if (TE < atol / 100) h = hmax;]. *)
Definition next_h {M : Libm} (atol h hmax hmin TE : float) : float :=
  if atol / 10 <? TE then C.fmax (C.fmin (0.9 * h * pow (atol / TE) 0.2) hmax) hmin
  else if TE <? atol / 100 then hmax
  else h.

End Legacy.

(** ** Axial derivatives of the radial ring potential *)

Section Radial.
Context {M : Libm}.

(** [lines[j][a][b]], [charges[j][k]], [derivs[i][l]], [coeff[i][d][c]]. *)
Definition line_vertex (lines_p : buf) (j a : nat) : buf := at_offset lines_p (6 * j + 3 * a).
Definition charge (charges_p : buf) (j k : nat) : float := charges_p (N_QUAD_2D * j + k)%nat.
Definition deriv_index (i l : nat) : nat := 9 * i + l.
Definition coeff_2d (coeff_p : buf) (index i c : nat) : float :=
  coeff_p (DERIV_2D_MAX * 6 * index + 6 * i + c)%nat.

Definition zeros9 : vec := [0.0; 0.0; 0.0; 0.0; 0.0; 0.0; 0.0; 0.0; 0.0].

(** The local array [D] of one sample after its two assignments and the
    [for] over [n]. *)
Definition ring_D (z0 z R : float) : vec :=
  let D := zeros9 in
  let D := set_at D 0 (1 / R) in
  let D := set_at D 1 (- (z0 - z) / pow R 3) in
  fold_left (fun D n =>
               set_at D (n + 1)
                 (-1 / pow R 2 * (Zn (2 * n + 1) * (z0 - z) * get D n
                                  + pow (Zn n) 2 * get D (n - 1))))
            (seq 1 7) D.

(** The body of the three nested loops of [axial_derivatives_radial_ring]
    (lines 408-429), for one [(i, j, k)]. *)
Definition axial_sample (lines_p charges_p z : buf) (i j k : nat) (derivs : buf) : buf :=
  let z0 := z i in
  let v1 := line_vertex lines_p j 0 in
  let v2 := line_vertex lines_p j 1 in
  let length_factor := get GAUSS_QUAD_POINTS k / 2 + 1 / 2 in
  let r := v1 0%nat + length_factor * (v2 0%nat - v1 0%nat) in
  let z := v1 1%nat + length_factor * (v2 1%nat - v1 1%nat) in
  let length := length_2d v1 v2 in
  let weight := get GAUSS_QUAD_WEIGHTS k * length / 2 in
  let R := norm_2d (z0 - z) r in
  let D := ring_D z0 z R in
  fold_left (fun derivs l =>
               upd derivs (deriv_index i l)
                   (derivs (deriv_index i l) + weight * M_PI * r / 2 * charge charges_p j k * get D l))
            (seq 0 9) derivs.

(** [axial_derivatives_radial_ring], lines 398-431: the array [derivs] as the
    call leaves it. *)
Definition axial_derivatives_radial_ring
    (derivs_p lines_p charges_p : buf) (N_lines : nat) (z : buf) (N_z : nat) : buf :=
  fold_left (fun derivs i =>
    fold_left (fun derivs j =>
      fold_left (fun derivs k => axial_sample lines_p charges_p z i j k derivs)
                (seq 0 N_QUAD_2D) derivs)
      (seq 0 N_lines) derivs)
    (seq 0 N_z) derivs_p.

(** ** Radial symmetry: potential and field evaluation *)

(** [potential_radial], lines 458-480. *)
Definition potential_radial (point vertices_p charges_p : buf) (N_vertices : nat) : float :=
  fold_left (fun sum_ i =>
    let v1 := line_vertex vertices_p i 0 in
    let v2 := line_vertex vertices_p i 1 in
    let length := length_2d v1 v2 in
    fold_left (fun sum_ j =>
      let sample_factor := get GAUSS_QUAD_POINTS j / 2 + 1 / 2 in
      let sample_x := v1 0%nat + sample_factor * (v2 0%nat - v1 0%nat) in
      let sample_y := v1 1%nat + sample_factor * (v2 1%nat - v1 1%nat) in
      sum_ + length / 2 * get GAUSS_QUAD_WEIGHTS j * charge charges_p i j
             * potential_radial_ring (point 0%nat) (point 1%nat) sample_x sample_y)
      (seq 0 N_QUAD_2D) sum_)
    (seq 0 N_vertices) 0.0.

(** The local array [derivs] of the two expansion evaluators. *)
Definition spline_derivs (coeff_p : buf) (index : nat) (diffz : float) : vec :=
  map (fun i =>
         coeff_2d coeff_p index i 0 * pow diffz 5 + coeff_2d coeff_p index i 1 * pow diffz 4
         + coeff_2d coeff_p index i 2 * pow diffz 3 + coeff_2d coeff_p index i 3 * pow diffz 2
         + coeff_2d coeff_p index i 4 * diffz + coeff_2d coeff_p index i 5)
      (seq 0 DERIV_2D_MAX).

(** [potential_radial_derivs], lines 482-507.  [N_z - 1] is the subscript of
    the last grid point; the call has [N_z >= 1]. *)
Definition potential_radial_derivs (point z_inter coeff_p : buf) (N_z : nat) : option float :=
  let r := point 0%nat in let z := point 1%nat in
  let z0 := z_inter 0%nat in let zlast := z_inter (N_z - 1)%nat in
  if negb ((z0 <? z) && (z <? zlast)) then Some 0.0
  else
    let dz := z_inter 1%nat - z_inter 0%nat in
    match C.to_index ((z - z0) / dz) with
    | None => None
    | Some index =>
        let diffz := z - z_inter index in
        let derivs := spline_derivs coeff_p index diffz in
        Some (get derivs 0 - pow r 2 * get derivs 2 + pow r 4 / 64 * get derivs 4
              - pow r 6 / 2304 * get derivs 6 + pow r 8 / 147456 * get derivs 8)
    end.

(** [field_radial], lines 525-553: the three doubles written to [result]. *)
Definition field_radial (point vertices_p charges_p : buf) (N_vertices : nat) : vec :=
  let '(Ex, Ey) :=
    fold_left (fun E i =>
      fold_left (fun (E : float * float) k =>
        let '(Ex, Ey) := E in
        let v1 := line_vertex vertices_p i 0 in
        let v2 := line_vertex vertices_p i 1 in
        let length_factor := get GAUSS_QUAD_POINTS k / 2 + 1 / 2 in
        let r := v1 0%nat + length_factor * (v2 0%nat - v1 0%nat) in
        let z := v1 1%nat + length_factor * (v2 1%nat - v1 1%nat) in
        let length := length_2d v1 v2 in
        let weight := get GAUSS_QUAD_WEIGHTS k * length / 2 in
        (Ex - weight * charge charges_p i k
              * dr1_potential_radial_ring (point 0%nat) (point 1%nat) r z,
         Ey - weight * charge charges_p i k
              * dz1_potential_radial_ring (point 0%nat) (point 1%nat) r z))
        (seq 0 N_QUAD_2D) E)
      (seq 0 N_vertices) (0.0, 0.0) in
  [Ex; Ey; 0.0].

(** [field_radial_derivs], lines 577-605: the three doubles written to
    [field]. *)
Definition field_radial_derivs (point z_inter coeff_p : buf) (N_z : nat) : option vec :=
  let r := point 0%nat in let z := point 1%nat in
  let z0 := z_inter 0%nat in let zlast := z_inter (N_z - 1)%nat in
  if negb ((z0 <? z) && (z <? zlast)) then Some [0.0; 0.0; 0.0]
  else
    let dz := z_inter 1%nat - z_inter 0%nat in
    match C.to_index ((z - z0) / dz) with
    | None => None
    | Some index =>
        let diffz := z - z_inter index in
        let derivs := spline_derivs coeff_p index diffz in
        Some [r / 2 * (get derivs 2 - pow r 2 / 8 * get derivs 4 + pow r 4 / 192 * get derivs 6
                       - pow r 6 / 9216 * get derivs 8);
              - get derivs 1 + pow r 2 / 4 * get derivs 3 - pow r 4 / 64 * get derivs 5
              + pow r 6 / 2304 * get derivs 7;
              0.0]
    end.

End Radial.

(** ** 3D: potential and field evaluation *)

Section ThreeD.
Context {M : Libm}.

Definition triangle_vertex (vertices_p : buf) (i a : nat) : buf :=
  at_offset vertices_p (9 * i + 3 * a).

(** [coeffs[index][part][nu][m][c]]. *)
Definition coeff_3d (coeffs_p : buf) (index part nu m c : nat) : float :=
  coeffs_p ((((index * 2 + part) * NU_MAX + nu) * M_MAX + m) * 4 + c)%nat.

Definition potential_3d (point vertices_p charges : buf) (N_vertices : nat) : float :=
  accumulate N_vertices (fun i =>
    charges i * triangle_integral point (triangle_vertex vertices_p i 0)
                  (triangle_vertex vertices_p i 1) (triangle_vertex vertices_p i 2)
                  potential_3d_point) 0.0.

Definition field_3d (point vertices_p charges : buf) (N_vertices : nat) : vec :=
  let '(Ex, Ey, Ez) :=
    fold_left (fun (E : float * float * float) i =>
      let '(Ex, Ey, Ez) := E in
      let v1 := triangle_vertex vertices_p i 0 in
      let v2 := triangle_vertex vertices_p i 1 in
      let v3 := triangle_vertex vertices_p i 2 in
      (Ex - charges i * triangle_integral point v1 v2 v3 dx1_potential_3d_point,
       Ey - charges i * triangle_integral point v1 v2 v3 dy1_potential_3d_point,
       Ez - charges i * triangle_integral point v1 v2 v3 dz1_potential_3d_point))
      (seq 0 N_vertices) (0.0, 0.0, 0.0) in
  [Ex; Ey; Ez].

(** The scratch tables [A], [B], [Adiff], [Bdiff] at [(nu, m)]. *)
Definition cubic (coeffs_p : buf) (index part : nat) (z_ : float) (nu m : nat) : float :=
  pow z_ 3 * coeff_3d coeffs_p index part nu m 0 + pow z_ 2 * coeff_3d coeffs_p index part nu m 1
  + z_ * coeff_3d coeffs_p index part nu m 2 + coeff_3d coeffs_p index part nu m 3.

Definition cubic_diff (coeffs_p : buf) (index part : nat) (z_ : float) (nu m : nat) : float :=
  3 * pow z_ 2 * coeff_3d coeffs_p index part nu m 0 + 2 * z_ * coeff_3d coeffs_p index part nu m 1
  + coeff_3d coeffs_p index part nu m 2.

(** [potential_3d_derivs], lines 717-750. *)
Definition potential_3d_derivs (point zs coeffs_p : buf) (N_z : nat) : option float :=
  let xp := point 0%nat in let yp := point 1%nat in let zp := point 2%nat in
  if negb ((zs 0%nat <? zp) && (zp <? zs (N_z - 1)%nat)) then Some 0.0
  else
    let dz := zs 1%nat - zs 0%nat in
    match C.to_index ((zp - zs 0%nat) / dz) with
    | None => None
    | Some index =>
        let z_ := zp - zs index in
        let A := cubic coeffs_p index 0 z_ in
        let B := cubic coeffs_p index 1 z_ in
        let r := norm_2d xp yp in
        let phi := atan2 yp xp in
        Some (fold_left (fun sum_ nu =>
                fold_left (fun sum_ m =>
                  sum_ + (A nu m * cos (Zn m * phi) + B nu m * sin (Zn m * phi))
                         * pow r (Zn (m + 2 * nu)))
                  (seq 0 M_MAX) sum_)
                (seq 0 NU_MAX) 0.0)
    end.

(** [field_3d_derivs], lines 805-861: the three doubles written to [field]. *)
Definition field_3d_derivs (point zs coeffs_p : buf) (N_z : nat) : option vec :=
  let xp := point 0%nat in let yp := point 1%nat in let zp := point 2%nat in
  let field := [0.0; 0.0; 0.0] in
  if negb ((zs 0%nat <? zp) && (zp <? zs (N_z - 1)%nat)) then Some field
  else
    let dz := zs 1%nat - zs 0%nat in
    match C.to_index ((zp - zs 0%nat) / dz) with
    | None => None
    | Some index =>
        let z_ := zp - zs index in
        let A := cubic coeffs_p index 0 z_ in
        let B := cubic coeffs_p index 1 z_ in
        let Adiff := cubic_diff coeffs_p index 0 z_ in
        let Bdiff := cubic_diff coeffs_p index 1 z_ in
        let r := norm_2d xp yp in
        let phi := atan2 yp xp in
        if r <? MIN_DISTANCE_AXIS then Some [- A 0%nat 1%nat; - B 0%nat 1%nat; - Adiff 0%nat 0%nat]
        else
          Some (fold_left (fun field nu =>
                  fold_left (fun field m =>
                    let exp := (2 * nu + m)%nat in
                    let diff_r := (A nu m * cos (Zn m * phi) + B nu m * sin (Zn m * phi))
                                  * Zn exp * pow r (C.of_int (Z.of_nat exp - 1)) in
                    let diff_theta := Zn m * (- A nu m * sin (Zn m * phi) + B nu m * cos (Zn m * phi))
                                      * pow r (Zn exp) in
                    [get field 0 - (diff_r * xp / r + diff_theta * - yp / pow r 2);
                     get field 1 - (diff_r * yp / r + diff_theta * xp / pow r 2);
                     get field 2 - (Adiff nu m * cos (Zn m * phi) + Bdiff nu m * sin (Zn m * phi))
                                   * pow r (Zn exp)])
                    (seq 0 M_MAX) field)
                  (seq 0 NU_MAX) field)
    end.

End ThreeD.

(** ** Plane intersection *)

Definition straddles (z1 z2 z : float) : bool :=
  (C.fmin z1 z2 <=? z) && (z <=? C.fmax z1 z2).

(** The [for] of [xy_plane_intersection_*] entered with counter [i], for
    states of [width] doubles whose z-coordinate is column [zcol]. *)
Fixpoint xy_plane_loop (width zcol : nat) (positions : buf) (z : float) (i : nat) : option vec :=
  match i with
  | O => None
  | S i' =>
      let z1 := positions (width * i' + zcol)%nat in
      let z2 := positions (width * i + zcol)%nat in
      if straddles z1 z2 z then
        let ratio := C.fabs ((z - z1) / (z1 - z2)) in
        Some (map (fun k => positions (width * i' + k)%nat
                            + ratio * (positions (width * i + k)%nat - positions (width * i' + k)%nat))
                  (seq 0 width))
      else xy_plane_loop width zcol positions z i'
  end.

(** [xy_plane_intersection_2d] (lines 1135-1156) and
    [xy_plane_intersection_3d] (lines 1158-1179): [Some result] is a return
    of [true] with [result] written, [None] a return of [false]. *)
Definition xy_plane_intersection_2d (positions_p : buf) (N_p : nat) (z : float) : option vec :=
  xy_plane_loop 4 1 positions_p z (N_p - 1).

Definition xy_plane_intersection_3d (positions_p : buf) (N_p : nat) (z : float) : option vec :=
  xy_plane_loop 6 2 positions_p z (N_p - 1).

(** ** Solver: matrix assembly *)

(** How a call ends: it returns, or the process is ended by [exit(1)], or an
    [assert] fails. *)
Inductive result (T : Type) :=
| Ok (v : T)
| Exit (status : Z)
| AssertionFailed.
Arguments Ok {T} v.
Arguments Exit {T} status.
Arguments AssertionFailed {T}.

Definition bind {T U : Type} (r : result T) (f : T -> result U) : result U :=
  match r with
  | Ok v => f v
  | Exit s => Exit s
  | AssertionFailed => AssertionFailed
  end.

Notation "x <- r ;; k" := (bind r (fun x => k))
  (at level 61, r at next level, right associativity).

(** A [for] whose body can end the call. *)
Fixpoint for_each {S : Type} (l : list nat) (body : nat -> S -> result S) (s : S) : result S :=
  match l with
  | [] => Ok s
  | i :: l' => s' <- body i s ;; for_each l' body s'
  end.

(** [for (i = first; i <= last; i++)]. *)
Definition range_incl (first last : nat) : list nat := seq first (last + 1 - first).

Inductive ExcitationType :=
| VOLTAGE_FIXED
| VOLTAGE_FUN
| DIELECTRIC
| FLOATING_CONDUCTOR.

(** The enumerator a tag byte equals, if any. *)
Definition excitation_of_tag (tag : nat) : option ExcitationType :=
  match tag with
  | 1 => Some VOLTAGE_FIXED
  | 2 => Some VOLTAGE_FUN
  | 3 => Some DIELECTRIC
  | 4 => Some FLOATING_CONDUCTOR
  | _ => None
  end%nat.

Section Solver.
Context {M : Libm}.

(** [legendre], lines 888-926: the [switch] has cases 0 to 8 and [exit(1)]
    follows it. *)
Definition legendre (N : nat) (x : float) : result float :=
  match N with
  | 0%nat => Ok 1
  | 1%nat => Ok x
  | 2%nat => Ok ((3 * pow x 2 - 1) / 2)
  | 3%nat => Ok ((5 * pow x 3 - 3 * x) / 2)
  | 4%nat => Ok ((35 * pow x 4 - 30 * pow x 2 + 3) / 8)
  | 5%nat => Ok ((63 * pow x 5 - 70 * pow x 3 + 15 * x) / 8)
  | 6%nat => Ok ((231 * pow x 6 - 315 * pow x 4 + 105 * pow x 2 - 5) / 16)
  | 7%nat => Ok ((429 * pow x 7 - 693 * pow x 5 + 315 * pow x 3 - 35 * x) / 16)
  | 8%nat => Ok ((6435 * pow x 8 - 12012 * pow x 6 + 6930 * pow x 4 - 1260 * pow x 2 + 35) / 128)
  | _ => Exit 1
  end.

(** [legendre_coefficient], lines 929-931. *)
Definition legendre_coefficient (i j : nat) : result float :=
  p <- legendre i (get GAUSS_QUAD_POINTS j) ;;
  Ok (get GAUSS_QUAD_WEIGHTS j * p * Zn (2 * i + 1) / 2).

(** [log_integral], lines 933-982; [side] is one of its two inner loops, to
    the left and to the right of the singular point. *)
Definition log_integral (v1 v2 : buf) (l k : nat) : result float :=
  let length := length_2d v1 v2 in
  let length_factor := get GAUSS_QUAD_POINTS l / 2 + 1 / 2 in
  let singular_point_x := v1 0%nat + length_factor * (v2 0%nat - v1 0%nat) in
  let singular_point_y := v1 1%nat + length_factor * (v2 1%nat - v1 1%nat) in
  let singular_length := length * length_factor in
  let side (w side_length along : float) (integration_sum : float) : result float :=
    let sampled_x := v1 0%nat + along / length * (v2 0%nat - v1 0%nat) in
    let sampled_y := v1 1%nat + along / length * (v2 1%nat - v1 1%nat) in
    let legendre_arg := 2 * along / length - 1 in
    for_each (seq 0 N_QUAD_2D) (fun m integration_sum =>
      let pot_ring := potential_radial_ring singular_point_x singular_point_y
                                            sampled_x sampled_y in
      c <- legendre_coefficient m k ;;
      p <- legendre m legendre_arg ;;
      Ok (integration_sum + w * side_length * c * p * pot_ring)) integration_sum in
  for_each (seq 0 N_LOG_QUAD_2D) (fun o integration_sum =>
    let p := get GAUSS_LOG_QUAD_POINTS o in
    let w := get GAUSS_LOG_QUAD_WEIGHTS o in
    let length_left := singular_length - singular_length * p in
    s <- side w singular_length length_left integration_sum ;;
    let length_right := singular_length + (length - singular_length) * p in
    side w (length - singular_length) length_right s) 0.0.

(** [fill_self_voltages], lines 984-1004. *)
Definition fill_self_voltages (matrix line_points_p : buf) (N_lines N_matrix : nat)
    (lines_range_start lines_range_end : nat) : result buf :=
  for_each (range_incl lines_range_start lines_range_end) (fun i matrix =>
    let v1 := line_vertex line_points_p i 0 in
    let v2 := line_vertex line_points_p i 1 in
    for_each (seq 0 N_QUAD_2D) (fun l matrix =>
      for_each (seq 0 N_QUAD_2D) (fun k matrix =>
        v <- log_integral v1 v2 l k ;;
        Ok (upd matrix ((N_QUAD_2D * i + l) * N_matrix + N_QUAD_2D * i + k) v)) matrix) matrix)
    matrix.

(** Lines 1032-1049 of [fill_matrix_radial]: the block of row block [i]
    against segment [j]. *)
Definition fill_voltage_block (line_points_p : buf) (N_matrix i j : nat) (matrix : buf) : buf :=
  let target_v1 := line_vertex line_points_p i 0 in
  let target_v2 := line_vertex line_points_p i 1 in
  let v1 := line_vertex line_points_p j 0 in
  let v2 := line_vertex line_points_p j 1 in
  let source_length := length_2d v1 v2 in
  fold_left (fun matrix l =>
    let target_length_factor := get GAUSS_QUAD_POINTS l / 2 + 1 / 2 in
    let target_x := target_v1 0%nat + target_length_factor * (target_v2 0%nat - target_v1 0%nat) in
    let target_y := target_v1 1%nat + target_length_factor * (target_v2 1%nat - target_v1 1%nat) in
    fold_left (fun matrix k =>
      let length_factor := get GAUSS_QUAD_POINTS k / 2 + 1 / 2 in
      let source_x := v1 0%nat + length_factor * (v2 0%nat - v1 0%nat) in
      let source_y := v1 1%nat + length_factor * (v2 1%nat - v1 1%nat) in
      let weight := get GAUSS_QUAD_WEIGHTS k * source_length / 2 in
      upd matrix ((N_QUAD_2D * i + l) * N_matrix + N_QUAD_2D * j + k)
          (weight * potential_radial_ring target_x target_y source_x source_y))
      (seq 0 N_QUAD_2D) matrix)
    (seq 0 N_QUAD_2D) matrix.

(** [fill_matrix_radial], lines 1007-1083.  Everything after the call of
    [fill_self_voltages] is inside a block comment in the source: the
    dielectric branch and the final [else] with its [exit(1)].  The two
    [int] range bounds are naturals here: a negative one fails the first
    [assert], which compares them as [size_t]. *)
Definition fill_matrix_radial (matrix line_points_p : buf) (excitation_types : nat -> nat)
    (excitation_values : buf) (N_lines N_matrix : nat)
    (lines_range_start lines_range_end : nat) : result buf :=
  if negb ((lines_range_start <? N_lines)%nat && (lines_range_end <? N_lines)%nat)
  then AssertionFailed
  else if negb (N_matrix =? N_QUAD_2D * N_lines)%nat then AssertionFailed
  else
    let matrix :=
      fold_left (fun matrix i =>
        match excitation_of_tag (excitation_types i) with
        | Some VOLTAGE_FIXED | Some VOLTAGE_FUN | Some FLOATING_CONDUCTOR =>
            fold_left (fun matrix j =>
                         if (i =? j)%nat then matrix
                         else fill_voltage_block line_points_p N_matrix i j matrix)
                      (seq 0 N_lines) matrix
        | _ => matrix
        end)
        (range_incl lines_range_start lines_range_end) matrix in
    fill_self_voltages matrix line_points_p N_lines N_matrix lines_range_start lines_range_end.

(** [fill_matrix_3d], lines 1085-1133. *)
Definition fill_matrix_3d (matrix triangle_points_p : buf) (excitation_types : nat -> nat)
    (excitation_values : buf) (N_lines N_matrix : nat)
    (lines_range_start lines_range_end : nat) : result buf :=
  if negb ((lines_range_start <? N_lines)%nat && (lines_range_end <? N_lines)%nat)
  then AssertionFailed
  else
    for_each (range_incl lines_range_start lines_range_end) (fun i matrix =>
      let p1 := triangle_vertex triangle_points_p i 0 in
      let p2 := triangle_vertex triangle_points_p i 1 in
      let p3 := triangle_vertex triangle_points_p i 2 in
      let target := buf_of_list [(p1 0%nat + p2 0%nat + p3 0%nat) / 3;
                                 (p1 1%nat + p2 1%nat + p3 1%nat) / 3;
                                 (p1 2%nat + p2 2%nat + p3 2%nat) / 3] in
      match excitation_of_tag (excitation_types i) with
      | Some VOLTAGE_FIXED | Some VOLTAGE_FUN | Some FLOATING_CONDUCTOR =>
          Ok (fold_left (fun matrix j =>
                let v1 := triangle_vertex triangle_points_p j 0 in
                let v2 := triangle_vertex triangle_points_p j 1 in
                let v3 := triangle_vertex triangle_points_p j 2 in
                upd matrix (i * N_matrix + j)
                    (triangle_integral_potential_3d_point target v1 v2 v3))
              (seq 0 N_lines) matrix)
      | Some DIELECTRIC =>
          let normal := normal_3d p1 p2 p3 in
          let K := excitation_values i in
          Ok (fold_left (fun matrix j =>
                let v1 := triangle_vertex triangle_points_p j 0 in
                let v2 := triangle_vertex triangle_points_p j 1 in
                let v3 := triangle_vertex triangle_points_p j 2 in
                let factor := (2 * K - 2) / (M_PI * (1 + K)) in
                let matrix :=
                  upd matrix (i * N_matrix + j)
                      (factor * triangle_integral target v1 v2 v3 (field_dot_normal_3d normal)) in
                if (i =? j)%nat
                then upd matrix (i * N_matrix + j) (matrix (i * N_matrix + j)%nat - 1.0)
                else matrix)
              (seq 0 N_lines) matrix)
      | None => Exit 1
      end) matrix.

End Solver.

(** ** The tracers of the two direct field evaluators *)

Section Tracers.
Context {M : Libm}.

(** [field_radial_traceable], lines 561-566. *)
Definition field_radial_traceable (vertices charges : buf) (N_vertices : nat) : field_fun :=
  fun point => field_radial (buf_of_list point) vertices charges N_vertices.

(** [trace_particle_radial], lines 568-575. *)
Definition trace_particle_radial (fuel : nat) (times_array pos_array bounds : buf)
    (atol : float) (vertices charges : buf) (N_vertices : nat) : option (nat * buf * buf) :=
  trace_particle (field_radial_traceable vertices charges N_vertices) bounds atol fuel
                 times_array pos_array.

(** [field_3d_traceable], lines 789-794. *)
Definition field_3d_traceable (vertices charges : buf) (N_vertices : nat) : field_fun :=
  fun point => field_3d (buf_of_list point) vertices charges N_vertices.

(** [trace_particle_3d], lines 796-803. *)
Definition trace_particle_3d (fuel : nat) (times_array pos_array bounds : buf)
    (atol : float) (vertices charges : buf) (N_vertices : nat) : option (nat * buf * buf) :=
  trace_particle (field_3d_traceable vertices charges N_vertices) bounds atol fuel
                 times_array pos_array.

End Tracers.

(** ** Axial harmonic coefficients in 3D *)

(** A [for] whose body may leave the behaviour of the call undefined. *)
Fixpoint for_each_defined {S : Type} (l : list nat) (body : nat -> S -> option S) (s : S)
  : option S :=
  match l with
  | [] => Some s
  | i :: l' =>
      match body i s with
      | Some s' => for_each_defined l' body s'
      | None => None
      end
  end.

Section AxialCoefficients3D.
Context {M : Libm}.

(** [output_coeffs[i][part][nu][m]] and [theta_coeffs[index][nu][m][c]]. *)
Definition output_coeff_index (i part nu m : nat) : nat :=
  (((i * 2 + part) * NU_MAX + nu) * M_MAX + m)%nat.

Definition theta_coeff (theta_coeffs_p : buf) (index nu m c : nat) : float :=
  theta_coeffs_p ((((index * NU_MAX + nu) * M_MAX + m) * 4 + c)%nat).

(** The body of the loops over [h], [i] and [k] of [axial_coefficients_3d]
    (lines 669-695): quadrature point [k] of triangle [h] against the axial
    position [zs[i]].  The subscript [index] is an [(int)] cast. *)
Definition axial_coefficients_sample (vertices_p charges zs thetas theta_coeffs_p : buf)
    (h i k : nat) (output_coeffs : buf) : option buf :=
  let theta0 := thetas 0%nat in
  let dtheta := thetas 1%nat - thetas 0%nat in
  let v1 := triangle_vertex vertices_p h 0 in
  let v2 := triangle_vertex vertices_p h 1 in
  let v3 := triangle_vertex vertices_p h 2 in
  let v1x := v1 0%nat in let v1y := v1 1%nat in let v1z := v1 2%nat in
  let v2x := v2 0%nat in let v2y := v2 1%nat in let v2z := v2 2%nat in
  let v3x := v3 0%nat in let v3y := v3 1%nat in let v3z := v3 2%nat in
  let area :=
    0.5 * sqrt (pow ((v2y - v1y) * (v3z - v1z) - (v2z - v1z) * (v3y - v1y)) 2
                + pow ((v2z - v1z) * (v3x - v1x) - (v2x - v1x) * (v3z - v1z)) 2
                + pow ((v2x - v1x) * (v3y - v1y) - (v2y - v1y) * (v3x - v1x)) 2) in
  let b1_ := get QUAD_B1 k in
  let b2_ := get QUAD_B2 k in
  let w := get QUAD_WEIGHTS k in
  let x := v1x + b1_ * (v2x - v1x) + b2_ * (v3x - v1x) in
  let y := v1y + b1_ * (v2y - v1y) + b2_ * (v3y - v1y) in
  let z := v1z + b1_ * (v2z - v1z) + b2_ * (v3z - v1z) in
  let r := norm_3d x y (z - zs i) in
  let theta := atan2 (z - zs i) (norm_2d x y) in
  let mu := atan2 y x in
  match C.to_index ((theta - theta0) / dtheta) with
  | None => None
  | Some index =>
      let t := theta - thetas index in
      Some (fold_left (fun output_coeffs nu =>
              fold_left (fun output_coeffs m =>
                let base := pow t 3 * theta_coeff theta_coeffs_p index nu m 0
                            + pow t 2 * theta_coeff theta_coeffs_p index nu m 1
                            + t * theta_coeff theta_coeffs_p index nu m 2
                            + theta_coeff theta_coeffs_p index nu m 3 in
                let r_dependence :=
                  pow r (C.of_int (-2 * Z.of_nat nu - Z.of_nat m - 1)) in
                let output_coeffs :=
                  upd output_coeffs (output_coeff_index i 0 nu m)
                      (output_coeffs (output_coeff_index i 0 nu m)
                       + charges h * area * w * base * cos (Zn m * mu) * r_dependence) in
                upd output_coeffs (output_coeff_index i 1 nu m)
                    (output_coeffs (output_coeff_index i 1 nu m)
                     + charges h * area * w * base * sin (Zn m * mu) * r_dependence))
                (seq 0 M_MAX) output_coeffs)
              (seq 0 NU_MAX) output_coeffs)
  end.

(** [axial_coefficients_3d], lines 646-698: the array [output_coeffs] as the
    call leaves it; [None] when a subscript cast has no defined value. *)
Definition axial_coefficients_3d (vertices_p charges : buf) (N_v : nat)
    (zs output_coeffs_p : buf) (N_z : nat) (thetas theta_coeffs_p : buf) (N_t : nat)
  : option buf :=
  for_each_defined (seq 0 N_v) (fun h output_coeffs =>
    for_each_defined (seq 0 N_z) (fun i output_coeffs =>
      for_each_defined (seq 0 N_TRIANGLE_QUAD) (fun k output_coeffs =>
        axial_coefficients_sample vertices_p charges zs thetas theta_coeffs_p h i k
                                  output_coeffs)
        output_coeffs)
      output_coeffs)
    output_coeffs_p.

End AxialCoefficients3D.

(** * Specification-side definitions

    The quantities the specification names, written as it words them; the
    theorems below compare them with what the code computes. *)

(** ** Quadrature weights *)

(** The sum of a table accumulated in table order, in binary64. *)
Definition weights_sum (w : vec) : float := fold_left add w 0.

(** The rational number a finite double is. *)
Definition exact (x : float) : Q :=
  match Prim2SF x with
  | S754_finite s m e =>
      ((if s then -1 else 1) * inject_Z (Zpos m) * Qpower 2 e)%Q
  | _ => 0%Q
  end.

(** The sum of a table as rational numbers, without rounding. *)
Definition exact_sum (w : vec) : Q := fold_right Qplus 0%Q (map exact w).

(** ** Elliptic integral K *)

(** The Landen-mapped value [K(1 - 1/(1-m)) / sqrt(1-m)]. *)
Definition landen_ellipk {M : Libm} (m : float) : float :=
  ellipk_singularity (1 - 1 / (1 - m)) / sqrt (1 - m).

(** The arithmetic-geometric mean of [a] and [g] after [n] steps. *)
Fixpoint agm (n : nat) (a g : float) : float :=
  match n with
  | O => a
  | S n' => agm n' ((a + g) / 2) (sqrt (a * g))
  end.

(** [K(m) = pi / (2 agm(1, sqrt(1 - m)))]: a value of K that uses neither the
    approximant nor the mapping. *)
Definition agm_ellipk (m : float) : float := M_PI / (2 * agm 8 1 (sqrt (1 - m))).

(** [|x - ref| / |ref|]. *)
Definition relative_error (x ref : float) : float := abs (x - ref) / abs ref.

(** ** Classes of binary64 values *)

(** Numerical equality of two doubles ([==] in C). *)
Definition feq (x y : float) : Prop := (x =? y) = true.

(** [x] is [+0] or [-0]. *)
Definition fzero (x : float) : Prop := (x =? 0) = true.

(** [x] is neither a NaN nor an infinity. *)
Definition ffinite (x : float) : Prop := is_finite x = true.

Definition sf_zero (f : spec_float) : Prop :=
  match f with S754_zero _ => True | _ => False end.

Definition sf_finite (f : spec_float) : Prop :=
  match f with S754_zero _ | S754_finite _ _ _ => True | _ => False end.

(** ** Radial expansion field *)

(** The quintic [a5 x^5 + a4 x^4 + a3 x^3 + a2 x^2 + a1 x + a0]. *)
Definition quintic {M : Libm} (a5 a4 a3 a2 a1 a0 x : float) : float :=
  a5 * pow x 5 + a4 * pow x 4 + a3 * pow x 3 + a2 * pow x 2 + a1 * x + a0.

(** The [n]-th axial derivative [D_n]: the quintic of z-interval [index],
    table row [n], at the offset [diffz]. *)
Definition axial_derivative {M : Libm} (coeff_p : buf) (index : nat) (diffz : float)
    (n : nat) : float :=
  quintic (coeff_2d coeff_p index n 0) (coeff_2d coeff_p index n 1)
          (coeff_2d coeff_p index n 2) (coeff_2d coeff_p index n 3)
          (coeff_2d coeff_p index n 4) (coeff_2d coeff_p index n 5) diffz.



(** ** Plane intersection *)

(** Whether the consecutive pair (state [i-1], state [i]) of a trajectory of
    [width]-double states straddles the plane [z]. *)
Definition pair_straddles (width zcol : nat) (positions : buf) (z : float) (i : nat) : bool :=
  straddles (positions (width * (i - 1) + zcol)%nat) (positions (width * i + zcol)%nat) z.

(** The plane [z] lies between the z-coordinates [z1] and [z2], in either
    order, the ends included. *)
Definition lies_between (z1 z2 z : float) : Prop :=
  ((z1 <=? z) = true /\ (z <=? z2) = true) \/ ((z2 <=? z) = true /\ (z <=? z1) = true).

(** The consecutive pair (state [i-1], state [i]) has the plane between its
    z-coordinates. *)
Definition crossing (width zcol : nat) (positions : buf) (z : float) (i : nat) : Prop :=
  lies_between (positions (width * (i - 1) + zcol)%nat) (positions (width * i + zcol)%nat) z.

(** The fraction [lambda = |z - z1| / |z1 - z2|]. *)
Definition lambda (z z1 z2 : float) : float := abs (z - z1) / abs (z1 - z2).

(** Every component interpolated linearly between state [i-1] and state [i]. *)
Definition interpolate (width : nat) (positions : buf) (i : nat) (lam : float) : vec :=
  map (fun k => positions (width * (i - 1) + k)%nat
                + lam * (positions (width * i + k)%nat - positions (width * (i - 1) + k)%nat))
      (seq 0 width).

(** What a call at [N_p] states and plane [z] must return: the interpolation
    at the last straddling pair, or nothing when no pair straddles. *)
Definition intersection_spec (width zcol : nat) (positions : buf) (N_p : nat) (z : float)
    (result : option vec) : Prop :=
  match result with
  | Some v =>
      exists i, (0 < i < N_p)%nat /\
        pair_straddles width zcol positions z i = true /\
        (forall j, (i < j < N_p)%nat -> pair_straddles width zcol positions z j = false) /\
        v = interpolate width positions i
              (lambda z (positions (width * (i - 1) + zcol)%nat)
                        (positions (width * i + zcol)%nat))
  | None => forall i, (0 < i < N_p)%nat -> pair_straddles width zcol positions z i = false
  end.

(** What a call at [N_p] states and plane [z] returns, in terms of the
    pairs that have the plane between their z-coordinates: the interpolation
    at the last such pair, or nothing when there is none. *)
Definition intersection_meets (width zcol : nat) (positions : buf) (N_p : nat) (z : float)
    (result : option vec) : Prop :=
  match result with
  | Some v =>
      exists i, (0 < i < N_p)%nat /\
        crossing width zcol positions z i /\
        (forall j, (i < j < N_p)%nat -> ~ crossing width zcol positions z j) /\
        v = interpolate width positions i
              (lambda z (positions (width * (i - 1) + zcol)%nat)
                        (positions (width * i + zcol)%nat))
  | None => forall i, (0 < i < N_p)%nat -> ~ crossing width zcol positions z i
  end.

(** ** Tracer *)

(** The state [y] lies in the closed box whose side along axis [a] is
    [bounds[a][0] .. bounds[a][1]]; a NaN coordinate lies in no box. *)
Definition inside_box (bounds : buf) (y : vec) : Prop :=
  forall a, (a < 3)%nat ->
    (bounds (2 * a)%nat <=? get y a) = true /\ (get y a <=? bounds (2 * a + 1)%nat) = true.

(** Stored state [i] of the positions array. *)
Definition sample (positions : buf) (i : nat) : vec :=
  map (fun c => positions (6 * i + c)%nat) (seq 0 6).

(** [|sum_j CT_j k_{j,i}|], the truncation estimate of component [i]. *)
Definition component_error (k : mat) (i : nat) : float :=
  abs (accumulate 6 (fun j => get CT j * get (row k j) i) 0).

(** The state after an accepted step: [y + sum_j CH_j k_j]. *)
Definition advance (y : vec) (k : mat) : vec :=
  map (fun i => get y i
                + (get CH 0 * get (row k 0) i + get CH 1 * get (row k 1) i
                   + get CH 2 * get (row k 2) i + get CH 3 * get (row k 3) i
                   + get CH 4 * get (row k 4) i + get CH 5 * get (row k 5) i))
      (seq 0 6).

(** Six doubles stored as state [N] of the positions array. *)
Definition write_sample (positions : buf) (N : nat) (y : vec) : buf :=
  fold_left (fun p i => upd p (6 * N + i) (get y i)) (seq 0 6) positions.

(** [y'] at time [t'] is an accepted Runge-Kutta step from [y] at time [t]:
    for some step size its truncation error is at most [atol], and [y'] and
    [t'] are the advanced state and time. *)
Definition accepted_step {M : Libm} (field : field_fun) (atol : float)
    (y : vec) (t : float) (y' : vec) (t' : float) : Prop :=
  exists h, let k := fst (stages field y h) in
    (truncation_error k <=? atol) = true /\ y' = advance y k /\ t' = t + h.

(** The largest of [t0] and the elements of [es], as the loop over the
    components computes it: a NaN element is never taken. *)
Definition running_max (es : list float) (t0 : float) : float :=
  fold_left (fun TE e => if TE <? e then e else TE) es t0.

(** What the two arrays hold when [N] states are stored, against the arrays
    [t0], [p0] the caller passed: nothing outside states [1 .. N-1] was
    written, every stored state but the last lies in the box, and every
    stored state after the first is an accepted step from the one before. *)
Definition trajectory_ok {M : Libm} (field : field_fun) (bounds : buf) (atol : float)
    (t0 p0 : buf) (N : nat) (times positions : buf) : Prop :=
  (forall j, (j < 6 \/ 6 * N <= j)%nat -> positions j = p0 j) /\
  (forall j, (j = 0 \/ N <= j)%nat -> times j = t0 j) /\
  (forall i, (i + 1 < N)%nat -> in_bounds bounds (sample positions i) = true) /\
  (forall i, (1 <= i < N)%nat ->
     accepted_step field atol (sample positions (i - 1)) (times (i - 1)%nat)
                   (sample positions i) (times i)).

(** The invariant of the [while] loop at its test. *)
Definition tracer_invariant {M : Libm} (field : field_fun) (bounds : buf) (atol : float)
    (t0 p0 : buf) (s : tracer_state) : Prop :=
  length (st_y s) = 6%nat /\
  (1 <= st_N s < TRACING_BLOCK_SIZE)%nat /\
  st_y s = sample (st_positions s) (st_N s - 1) /\
  trajectory_ok field bounds atol t0 p0 (st_N s) (st_times s) (st_positions s).

(** ** Axial derivatives of a ring *)

(** [D_n], the [n]-th on-axis derivative of [1/R], by the three-term
    recurrence [D_{n+1} = -(1/R^2) ((2n+1) (z0-z) D_n + n^2 D_{n-1})] from
    [D_0 = 1/R] and [D_1 = -(z0-z)/R^3]. *)
Fixpoint ring_derivative {M : Libm} (z0 z R : float) (n : nat) : float :=
  match n with
  | O => 1 / R
  | S m =>
      match m with
      | O => - ((z0 - z) / pow R 3)
      | S p => - (1 / pow R 2 * (Zn (2 * m + 1) * (z0 - z) * ring_derivative z0 z R m
                                 + pow (Zn m) 2 * ring_derivative z0 z R p))
      end
  end.

(** Quadrature sample [k] of segment [j]: its position [(r, z)] and its
    weight [w_k * length / 2]. *)
Definition sample_r (lines_p : buf) (j k : nat) : float :=
  let v1 := line_vertex lines_p j 0 in
  let v2 := line_vertex lines_p j 1 in
  v1 0%nat + (get GAUSS_QUAD_POINTS k / 2 + 1 / 2) * (v2 0%nat - v1 0%nat).

Definition sample_z (lines_p : buf) (j k : nat) : float :=
  let v1 := line_vertex lines_p j 0 in
  let v2 := line_vertex lines_p j 1 in
  v1 1%nat + (get GAUSS_QUAD_POINTS k / 2 + 1 / 2) * (v2 1%nat - v1 1%nat).

Definition sample_weight (lines_p : buf) (j k : nat) : float :=
  get GAUSS_QUAD_WEIGHTS k * length_2d (line_vertex lines_p j 0) (line_vertex lines_p j 1) / 2.

(** What sample [k] of segment [j] adds to derivative [l] at target [z0]:
    [D_l] scaled by [pi r / 2], the quadrature weight and the nodal charge. *)
Definition contribution {M : Libm} (lines_p charges_p : buf) (z0 : float) (j k l : nat) : float :=
  let r := sample_r lines_p j k in
  let z := sample_z lines_p j k in
  let R := norm_2d (z0 - z) r in
  sample_weight lines_p j k * M_PI * r / 2 * charge charges_p j k * ring_derivative z0 z R l.

(** The contributions of every sample of every segment added to [init], in
    the order of the loops. *)
Definition axial_sum {M : Libm} (lines_p charges_p : buf) (N_lines : nat) (z0 : float)
    (l : nat) (init : float) : float :=
  fold_left (fun acc j =>
    fold_left (fun acc k => acc + contribution lines_p charges_p z0 j k l)
              (seq 0 N_QUAD_2D) acc)
    (seq 0 N_lines) init.

(** The loop over the segments [js] of [axial_derivatives_radial_ring], for
    one target [i]. *)
Definition target_loop {M : Libm} (lines_p charges_p z : buf) (i : nat) (js : list nat)
    (derivs : buf) : buf :=
  fold_left (fun d j =>
               fold_left (fun d k => axial_sample lines_p charges_p z i j k d)
                         (seq 0 N_QUAD_2D) d) js derivs.

(** ** Inputs at which the theorems below are instantiated *)

Module Sample.

(** A uniform grid [0, 1, 2]. *)
Definition z_grid : buf := buf_of_list [0; 1; 2].

(** Radial spline table: every coefficient of every interval is [c0 + i]
    for its flat index [i]. *)
Definition coeff : buf := fun i => 0.5 + Zn i.

(** A point above the grid: [r = 0.5], [z = 5]. *)
Definition point_above : buf := buf_of_list [0.5; 5; 5].

(** A point inside the grid: [r = 0.25], [z = 1.5]. *)
Definition point_inside : buf := buf_of_list [0.25; 1.5; 1.5].

(** The point on the axis at [z = 2], the first of the targets below. *)
Definition axis_point : buf := buf_of_list [0; 2; 0].

(** A point on the axis inside the grid. *)
Definition point_on_axis : buf := buf_of_list [0; 1.5; 1.5].

(** A 3D trajectory of four states with z = 0, 0.5, 1.5, 2.5 and x = 10 z. *)
Definition trajectory : buf :=
  buf_of_list [0; 0; 0; 0; 0; 1;   5; 0; 0.5; 0; 0; 1;
               15; 0; 1.5; 0; 0; 1;   25; 0; 2.5; 0; 0; 1].

(** A uniform field along z, a box, and a particle starting on the axis. *)
Definition uniform_field : field_fun := fun _ => [0; 0; 1].
Definition box : buf := buf_of_list [-1; 1; -1; 1; 0; 0.025].
Definition start : buf := buf_of_list [0; 0; 0; 0; 0; 1].
Definition clock : buf := buf_of_list [0].

(** Two segments, unit charges, two targets on the axis. *)
Definition segments : buf :=
  buf_of_list [1; 0; 0; 1; 1; 0;   2; 0; 0; 2; 0.5; 0].
Definition unit_charges : buf := fun _ => 1.
Definition targets : buf := buf_of_list [2; 3].
Definition no_derivs : buf := fun _ => 0.

(** A matrix of untouched cells, and tags for two segments: the first one
    unknown, the second [VOLTAGE_FIXED]. *)
Definition untouched : float := 99.
Definition blank_matrix : buf := fun _ => untouched.
Definition tags_7_1 : nat -> nat := fun i => match i with O => 7%nat | _ => 1%nat end.
Definition no_values : buf := fun _ => 0.

(** A 3D trajectory whose second state is all NaN, as the tracer stores it
    when the field is not a number. *)
Definition nan_trajectory : buf :=
  buf_of_list [0; 0; 5; 0; 0; 1;   nan; nan; nan; nan; nan; nan].


(** Two triangles. *)
Definition triangles : buf :=
  buf_of_list [0; 0; 0; 1; 0; 0; 0; 1; 0;   0; 0; 2; 1; 0; 2; 0; 1; 2].

End Sample.

(** ** Loop bodies *)

(** The body of the two nested loops of [field_radial] (lines 533-548), for
    segment [i] and sample [k]. *)
Definition field_radial_step {M : Libm} (point vertices_p charges_p : buf) (i : nat)
    (E : float * float) (k : nat) : float * float :=
  let '(Ex, Ey) := E in
  let v1 := line_vertex vertices_p i 0 in
  let v2 := line_vertex vertices_p i 1 in
  let length_factor := get GAUSS_QUAD_POINTS k / 2 + 1 / 2 in
  let r := v1 0%nat + length_factor * (v2 0%nat - v1 0%nat) in
  let z := v1 1%nat + length_factor * (v2 1%nat - v1 1%nat) in
  let length := length_2d v1 v2 in
  let weight := get GAUSS_QUAD_WEIGHTS k * length / 2 in
  (Ex - weight * charge charges_p i k
        * dr1_potential_radial_ring (point 0%nat) (point 1%nat) r z,
   Ey - weight * charge charges_p i k
        * dz1_potential_radial_ring (point 0%nat) (point 1%nat) r z).

(** ** Radial expansion potential *)

(** The expansion of the potential around the axis as the code sums it:
    [D0 - r^2 D2 + r^4/64 D4 - r^6/2304 D6 + r^8/147456 D8]. *)
Definition potential_expansion {M : Libm} (r : float) (D : nat -> float) : float :=
  D 0%nat - pow r 2 * D 2%nat + pow r 4 / 64 * D 4%nat - pow r 6 / 2304 * D 6%nat
  + pow r 8 / 147456 * D 8%nat.

(** ** Matrix assembly in 3D *)

(** The centroid of triangle [i], the target point of its row. *)
Definition centroid (triangle_points_p : buf) (i : nat) : buf :=
  let p1 := triangle_vertex triangle_points_p i 0 in
  let p2 := triangle_vertex triangle_points_p i 1 in
  let p3 := triangle_vertex triangle_points_p i 2 in
  buf_of_list [(p1 0%nat + p2 0%nat + p3 0%nat) / 3;
               (p1 1%nat + p2 1%nat + p3 1%nat) / 3;
               (p1 2%nat + p2 2%nat + p3 2%nat) / 3].

(** What row [i] of the 3D matrix holds in column [j]: for a dielectric row
    the scaled normal field of triangle [j] at the centroid of triangle [i],
    less one on the diagonal; for a conductor row the potential of triangle
    [j] at that centroid. *)
Definition matrix_cell_3d {M : Libm} (triangle_points_p : buf) (excitation_types : nat -> nat)
    (excitation_values : buf) (i j : nat) : float :=
  let target := centroid triangle_points_p i in
  let v1 := triangle_vertex triangle_points_p j 0 in
  let v2 := triangle_vertex triangle_points_p j 1 in
  let v3 := triangle_vertex triangle_points_p j 2 in
  match excitation_of_tag (excitation_types i) with
  | Some DIELECTRIC =>
      let normal := normal_3d (triangle_vertex triangle_points_p i 0)
                              (triangle_vertex triangle_points_p i 1)
                              (triangle_vertex triangle_points_p i 2) in
      let K := excitation_values i in
      let factor := (2 * K - 2) / (M_PI * (1 + K)) in
      let v := factor * triangle_integral target v1 v2 v3 (field_dot_normal_3d normal) in
      if (i =? j)%nat then v - 1 else v
  | _ => triangle_integral target v1 v2 v3 potential_3d_point
  end.

(** The body of the loop over the rows of [fill_matrix_3d] (lines
    1098-1132), for row [i]. *)
Definition fill_matrix_3d_row {M : Libm} (triangle_points_p : buf)
    (excitation_types : nat -> nat) (excitation_values : buf) (N_lines N_matrix : nat)
    (i : nat) (matrix : buf) : result buf :=
  let p1 := triangle_vertex triangle_points_p i 0 in
  let p2 := triangle_vertex triangle_points_p i 1 in
  let p3 := triangle_vertex triangle_points_p i 2 in
  let target := buf_of_list [(p1 0%nat + p2 0%nat + p3 0%nat) / 3;
                             (p1 1%nat + p2 1%nat + p3 1%nat) / 3;
                             (p1 2%nat + p2 2%nat + p3 2%nat) / 3] in
  match excitation_of_tag (excitation_types i) with
  | Some VOLTAGE_FIXED | Some VOLTAGE_FUN | Some FLOATING_CONDUCTOR =>
      Ok (fold_left (fun matrix j =>
            let v1 := triangle_vertex triangle_points_p j 0 in
            let v2 := triangle_vertex triangle_points_p j 1 in
            let v3 := triangle_vertex triangle_points_p j 2 in
            upd matrix (i * N_matrix + j)
                (triangle_integral_potential_3d_point target v1 v2 v3))
          (seq 0 N_lines) matrix)
  | Some DIELECTRIC =>
      let normal := normal_3d p1 p2 p3 in
      let K := excitation_values i in
      Ok (fold_left (fun matrix j =>
            let v1 := triangle_vertex triangle_points_p j 0 in
            let v2 := triangle_vertex triangle_points_p j 1 in
            let v3 := triangle_vertex triangle_points_p j 2 in
            let factor := (2 * K - 2) / (M_PI * (1 + K)) in
            let matrix :=
              upd matrix (i * N_matrix + j)
                  (factor * triangle_integral target v1 v2 v3 (field_dot_normal_3d normal)) in
            if (i =? j)%nat
            then upd matrix (i * N_matrix + j) (matrix (i * N_matrix + j)%nat - 1.0)
            else matrix)
          (seq 0 N_lines) matrix)
  | None => Exit 1
  end.

(** Whether row [r] is one of the rows [first .. last] of a call. *)
Definition in_range (first last r : nat) : bool := ((first <=? r) && (r <=? last))%nat.

(** ** Matrix assembly in radial symmetry *)

(** Whether a tag byte names one of the three conductor excitations. *)
Definition is_conductor (tag : nat) : bool :=
  match excitation_of_tag tag with
  | Some VOLTAGE_FIXED | Some VOLTAGE_FUN | Some FLOATING_CONDUCTOR => true
  | _ => false
  end.

(** The cell of target sample [l] of segment [i] against source sample [k]
    of another segment [j]: the ring potential of the source sample at the
    target sample, times the quadrature weight of the source sample. *)
Definition cross_cell {M : Libm} (line_points_p : buf) (i l j k : nat) : float :=
  sample_weight line_points_p j k
  * potential_radial_ring (sample_r line_points_p i l) (sample_z line_points_p i l)
                          (sample_r line_points_p j k) (sample_z line_points_p j k).

(** The cell of target sample [l] of segment [i] against its own sample [k]:
    the logarithmic integral. *)
Definition self_cell {M : Libm} (line_points_p : buf) (i l k : nat) : float :=
  match log_integral (line_vertex line_points_p i 0) (line_vertex line_points_p i 1) l k with
  | Ok v => v
  | _ => 0
  end.

(** The flat index of the cell of sample [l] of segment [i] against sample
    [k] of segment [j]. *)
Definition cell_index (N_matrix i l j k : nat) : nat :=
  ((N_QUAD_2D * i + l) * N_matrix + N_QUAD_2D * j + k)%nat.

(** What an assembled cell holds, from its flat index. *)
Definition matrix_cell_radial {M : Libm} (line_points_p : buf) (N_matrix idx : nat) : float :=
  let row := (idx / N_matrix)%nat in
  let col := (idx mod N_matrix)%nat in
  if (row / 8 =? col / 8)%nat
  then self_cell line_points_p (row / 8) (row mod 8) (col mod 8)
  else cross_cell line_points_p (row / 8) (row mod 8) (col / 8) (col mod 8).

(** The cells of the block of segment [i] against segment [j]. *)
Definition block_owned (N_matrix i j idx : nat) : bool :=
  existsb (fun l => existsb (fun k => Nat.eqb idx (cell_index N_matrix i l j k))
                            (seq 0 N_QUAD_2D))
          (seq 0 N_QUAD_2D).

(** The cells the loop over the conductor rows writes, and the cells
    [fill_self_voltages] writes. *)
Definition cross_owned (excitation_types : nat -> nat) (N_lines N_matrix first last idx : nat)
  : bool :=
  existsb (fun i => is_conductor (excitation_types i)
                    && existsb (fun j => negb (i =? j)%nat && block_owned N_matrix i j idx)
                               (seq 0 N_lines))
          (range_incl first last).

Definition self_owned (N_matrix first last idx : nat) : bool :=
  existsb (fun i => block_owned N_matrix i i idx) (range_incl first last).

(** ** Axial harmonic coefficients in 3D *)

(** What quadrature point [k] of triangle [h] adds to
    [output_coeffs[i][part][nu][m]]: charge, area and weight times the cubic
    in [theta - thetas[index]] of the table entry, times [cos (m mu)]
    ([part = 0]) or [sin (m mu)] ([part = 1]), times [r^(-2 nu - m - 1)]. *)
Definition coefficient_contribution {M : Libm}
    (vertices_p charges zs thetas theta_coeffs_p : buf) (h i k part nu m : nat) : float :=
  let v1 := triangle_vertex vertices_p h 0 in
  let v2 := triangle_vertex vertices_p h 1 in
  let v3 := triangle_vertex vertices_p h 2 in
  let area := triangle_area v1 v2 v3 in
  let b1_ := get QUAD_B1 k in
  let b2_ := get QUAD_B2 k in
  let w := get QUAD_WEIGHTS k in
  let x := v1 0%nat + b1_ * (v2 0%nat - v1 0%nat) + b2_ * (v3 0%nat - v1 0%nat) in
  let y := v1 1%nat + b1_ * (v2 1%nat - v1 1%nat) + b2_ * (v3 1%nat - v1 1%nat) in
  let z := v1 2%nat + b1_ * (v2 2%nat - v1 2%nat) + b2_ * (v3 2%nat - v1 2%nat) in
  let r := norm_3d x y (z - zs i) in
  let theta := atan2 (z - zs i) (norm_2d x y) in
  let mu := atan2 y x in
  let index := match C.to_index ((theta - thetas 0%nat) / (thetas 1%nat - thetas 0%nat)) with
               | Some index => index
               | None => 0%nat
               end in
  let t := theta - thetas index in
  let base := pow t 3 * theta_coeff theta_coeffs_p index nu m 0
              + pow t 2 * theta_coeff theta_coeffs_p index nu m 1
              + t * theta_coeff theta_coeffs_p index nu m 2
              + theta_coeff theta_coeffs_p index nu m 3 in
  let angular := match part with O => cos (Zn m * mu) | _ => sin (Zn m * mu) end in
  charges h * area * w * base * angular
  * pow r (C.of_int (-2 * Z.of_nat nu - Z.of_nat m - 1)).

(** The contributions of every quadrature point of every triangle added to
    [init], in the order of the loops. *)
Definition coefficient_sum {M : Libm} (vertices_p charges : buf) (N_v : nat)
    (zs thetas theta_coeffs_p : buf) (i part nu m : nat) (init : float) : float :=
  fold_left (fun acc h =>
    fold_left (fun acc k =>
                 acc + coefficient_contribution vertices_p charges zs thetas theta_coeffs_p
                                                h i k part nu m)
              (seq 0 N_TRIANGLE_QUAD) acc)
    (seq 0 N_v) init.

(** ** The loop of the tracer *)

(** [reaches hmax s s']: the loop of [trace_particle], at its test in state
    [s], is at its test in state [s'] some passes later. *)
Inductive reaches {M : Libm} (field : field_fun) (bounds : buf) (atol hmax : float)
  : tracer_state -> tracer_state -> Prop :=
| reaches_here (s : tracer_state) : reaches field bounds atol hmax s s
| reaches_pass (s s' s'' : tracer_state) :
    iteration field bounds atol hmax s = Continue s' ->
    reaches field bounds atol hmax s' s'' ->
    reaches field bounds atol hmax s s''.

(** ** Further inputs *)

Module Sample2.

(** A point and a degenerate segment and triangle built on it. *)
Definition corner : buf := buf_of_list [1; 2; 3].
Definition far_corner : buf := buf_of_list [4; 6; 8].

(** A field that is a NaN everywhere. *)
Definition nan_field : field_fun := fun _ => [nan; nan; nan].

(** Tags of two triangles: a conductor and a dielectric of permittivity 2. *)
Definition tags_1_3 : nat -> nat := fun i => match i with O => 1%nat | _ => 3%nat end.
Definition permittivities : buf := fun _ => 2.
Definition charges_3_5 : buf := buf_of_list [3; 5].

(** A grid of three polar angles covering [-2, 2], and one axial position. *)
Definition thetas : buf := buf_of_list [-2; 0; 2].
Definition axial_position : buf := buf_of_list [5].

End Sample2.

(** * Facts about binary64 arithmetic *)

Module FloatFacts.
Ltac lex_cases :=
  change (Pos.compare_cont Eq) with Pos.compare in *;
  repeat match goal with
         | |- context [(?a ?= ?b)%Z] => destruct (Z.compare_spec a b)
         | H : context [(?a ?= ?b)%Z] |- _ => destruct (Z.compare_spec a b)
         | |- context [(?a ?= ?b)%positive] => destruct (Pos.compare_spec a b)
         | H : context [(?a ?= ?b)%positive] |- _ => destruct (Pos.compare_spec a b)
         end;
  simpl in *; try reflexivity; try discriminate; try congruence; try lia.

Lemma SFcompare_swap (x y : spec_float) :
  SFcompare y x = option_map CompOpp (SFcompare x y).
Proof.
  destruct x as [[]|[]| |[] mx ex], y as [[]|[]| |[] my ey]; simpl; try reflexivity;
    lex_cases.
Qed.

Lemma SFcompare_refl (x : spec_float) :
  x <> S754_nan -> SFcompare x x = Some Eq.
Proof.
  destruct x as [[]|[]| |[] m e]; simpl; intros Hx; try reflexivity; try congruence;
    lex_cases.
Qed.

Lemma SFleb_trans (x y z : spec_float) :
  SFleb x y = true -> SFleb y z = true -> SFleb x z = true.
Proof.
  unfold SFleb.
  destruct x as [[]|[]| |[] mx ex], y as [[]|[]| |[] my ey], z as [[]|[]| |[] mz ez];
    simpl; try discriminate; try reflexivity; intros Hxy Hyz; lex_cases.
Qed.

Lemma SFcompare_nan_l x : SFcompare S754_nan x = None.
Proof. reflexivity. Qed.

Lemma SFcompare_nan_r x : SFcompare x S754_nan = None.
Proof. destruct x as [[]|[]| |[] m e]; reflexivity. Qed.

Lemma SFcompare_total x y :
  x <> S754_nan -> y <> S754_nan -> exists c, SFcompare x y = Some c.
Proof.
  destruct x as [[]|[]| |[] mx ex], y as [[]|[]| |[] my ey]; simpl; intros; try congruence; eauto.
Qed.


Lemma is_nan_spec (x : float) : is_nan x = true <-> Prim2SF x = S754_nan.
Proof.
  unfold is_nan. rewrite FloatAxioms.eqb_spec. unfold SFeqb. split.
  - destruct (Prim2SF x) eqn:E; try reflexivity;
      rewrite SFcompare_refl by congruence; discriminate.
  - intros ->. reflexivity.
Qed.

Lemma not_nan_spec (x : float) : is_nan x = false <-> Prim2SF x <> S754_nan.
Proof.
  rewrite <- is_nan_spec. destruct (is_nan x); split; congruence.
Qed.

Lemma leb_trans (x y z : float) :
  (x <=? y) = true -> (y <=? z) = true -> (x <=? z) = true.
Proof. rewrite !FloatAxioms.leb_spec. apply SFleb_trans. Qed.

Lemma leb_refl (x : float) : is_nan x = false -> (x <=? x) = true.
Proof.
  rewrite not_nan_spec, FloatAxioms.leb_spec. unfold SFleb. intros H.
  rewrite SFcompare_refl by assumption. reflexivity.
Qed.

Lemma ltb_not_nan (x y : float) :
  (x <? y) = true -> is_nan x = false /\ is_nan y = false.
Proof.
  rewrite FloatAxioms.ltb_spec, !not_nan_spec. unfold SFltb. intros H.
  split; intros E; rewrite E in H;
    [rewrite SFcompare_nan_l in H | rewrite SFcompare_nan_r in H]; discriminate.
Qed.

Lemma leb_not_nan (x y : float) :
  (x <=? y) = true -> is_nan x = false /\ is_nan y = false.
Proof.
  rewrite FloatAxioms.leb_spec, !not_nan_spec. unfold SFleb. intros H.
  split; intros E; rewrite E in H;
    [rewrite SFcompare_nan_l in H | rewrite SFcompare_nan_r in H]; discriminate.
Qed.

Lemma ltb_leb (x y : float) : (x <? y) = true -> (x <=? y) = true.
Proof.
  rewrite FloatAxioms.ltb_spec, FloatAxioms.leb_spec. unfold SFltb, SFleb.
  destruct (SFcompare _ _) as [[]|]; congruence.
Qed.

Lemma ltb_false_leb (x y : float) :
  (x <? y) = false -> is_nan x = false -> is_nan y = false -> (y <=? x) = true.
Proof.
  rewrite FloatAxioms.ltb_spec, FloatAxioms.leb_spec, !not_nan_spec. unfold SFltb, SFleb. intros H Hx Hy.
  rewrite SFcompare_swap.
  destruct (SFcompare_total _ _ Hx Hy) as [c Hc]. rewrite Hc in *.
  destruct c; simpl; congruence.
Qed.

Lemma leb_ltb_false (x y : float) : (x <=? y) = true -> (y <? x) = false.
Proof.
  rewrite FloatAxioms.ltb_spec, FloatAxioms.leb_spec. unfold SFltb, SFleb. rewrite (SFcompare_swap (Prim2SF x)).
  destruct (SFcompare _ _) as [[]|]; simpl; congruence.
Qed.

Lemma binary_round_aux_abs (s : bool) (m e : Z) (l : location) :
  SFabs (binary_round_aux prec emax s m e l) = binary_round_aux prec emax false m e l.
Proof.
  unfold binary_round_aux.
  destruct (shr_fexp prec emax m e l) as [mrs' e'].
  destruct (shr_fexp prec emax _ e' loc_Exact) as [mrs'' e''].
  destruct (shr_m mrs''); try reflexivity.
  destruct (Z.leb e'' _); reflexivity.
Qed.

(** [fabs(a / b)] is [fabs(a) / fabs(b)], bit for bit. *)
Lemma abs_div (a b : float) : abs (a / b) = abs a / abs b.
Proof.
  apply Prim2SF_inj. rewrite FloatAxioms.abs_spec, !FloatAxioms.div_spec, !FloatAxioms.abs_spec.
  unfold SF64div, SFdiv.
  destruct (Prim2SF a) as [[]|[]| |[] ma ea], (Prim2SF b) as [[]|[]| |[] mb eb];
    simpl; try reflexivity;
    destruct (SFdiv_core_binary _ _ _ _ _ _) as [[mz ez] lz];
    apply binary_round_aux_abs.
Qed.

Lemma abs_not_nan (x : float) : is_nan x = false -> is_nan (abs x) = false.
Proof.
  rewrite !not_nan_spec, FloatAxioms.abs_spec. destruct (Prim2SF x); simpl; congruence.
Qed.

Lemma zero_leb_abs (x : float) : is_nan x = false -> (0 <=? abs x) = true.
Proof.
  rewrite not_nan_spec, FloatAxioms.leb_spec, FloatAxioms.abs_spec. unfold SFleb.
  change (Prim2SF 0) with (S754_zero false).
  destruct (Prim2SF x) as [[]|[]| |[] m e]; simpl; congruence.
Qed.

Lemma fzero_spec (x : float) : fzero x <-> sf_zero (Prim2SF x).
Proof.
  unfold fzero. rewrite FloatAxioms.eqb_spec. unfold SFeqb.
  change (Prim2SF 0) with (S754_zero false).
  destruct (Prim2SF x) as [[]|[]| |[] m e]; simpl; split; intros; try tauto; discriminate.
Qed.

Lemma ffinite_spec (x : float) : ffinite x <-> sf_finite (Prim2SF x).
Proof.
  unfold ffinite, is_finite, is_infinity.
  pose proof (is_nan_spec x) as Hn.
  rewrite FloatAxioms.eqb_spec, FloatAxioms.abs_spec. unfold SFeqb.
  change (Prim2SF infinity) with (S754_infinity false).
  destruct (is_nan x).
  - rewrite (proj1 Hn eq_refl). simpl. split; [discriminate | tauto].
  - destruct (Prim2SF x) as [[]|[]| |[] m e]; simpl; split; intros; try tauto;
      try discriminate; try reflexivity.
    destruct Hn as [_ Hn]. discriminate (Hn eq_refl).
Qed.

Lemma feq_spec (x y : float) :
  feq x y <-> SFcompare (Prim2SF x) (Prim2SF y) = Some Eq.
Proof.
  unfold feq. rewrite FloatAxioms.eqb_spec. unfold SFeqb.
  destruct (SFcompare _ _) as [[]|]; split; congruence.
Qed.

Lemma feq_refl (x : float) : is_nan x = false -> feq x x.
Proof. rewrite not_nan_spec, feq_spec. apply SFcompare_refl. Qed.

Lemma ffinite_not_nan (x : float) : ffinite x -> is_nan x = false.
Proof.
  rewrite ffinite_spec, not_nan_spec. destruct (Prim2SF x); simpl; intros; try tauto; congruence.
Qed.

Lemma ffinite_opp (x : float) : ffinite x -> ffinite (- x).
Proof.
  rewrite !ffinite_spec, FloatAxioms.opp_spec. destruct (Prim2SF x); simpl; tauto.
Qed.


(** Adding or subtracting a zero does not change the value. *)
Lemma feq_add_zero (x y z : float) : feq x y -> fzero z -> feq (x + z) y.
Proof.
  rewrite !feq_spec, fzero_spec, FloatAxioms.add_spec. unfold SF64add.
  destruct (Prim2SF x) as [[]|[]| |[] mx ex], (Prim2SF z) as [[]|[]| |[] mz ez],
           (Prim2SF y) as [[]|[]| |[] my ey]; simpl; intros; try tauto; discriminate.
Qed.

Lemma feq_sub_zero (x y z : float) : feq x y -> fzero z -> feq (x - z) y.
Proof.
  rewrite !feq_spec, fzero_spec, FloatAxioms.sub_spec. unfold SF64sub.
  destruct (Prim2SF x) as [[]|[]| |[] mx ex], (Prim2SF z) as [[]|[]| |[] mz ez],
           (Prim2SF y) as [[]|[]| |[] my ey]; simpl; intros; try tauto; discriminate.
Qed.

(** A zero times a finite double is a zero. *)
Lemma fzero_mul_finite (z x : float) : fzero z -> ffinite x -> fzero (z * x).
Proof.
  rewrite !fzero_spec, ffinite_spec, FloatAxioms.mul_spec. unfold SF64mul.
  destruct (Prim2SF z) as [[]|[]| |[] mz ez], (Prim2SF x) as [[]|[]| |[] mx ex];
    simpl; tauto.
Qed.

(** A zero divided by a finite non-zero double is a zero. *)
Lemma fzero_div (z c : float) : fzero z -> ffinite c -> ~ fzero c -> fzero (z / c).
Proof.
  rewrite !fzero_spec, ffinite_spec, FloatAxioms.div_spec. unfold SF64div.
  destruct (Prim2SF z) as [[]|[]| |[] mz ez], (Prim2SF c) as [[]|[]| |[] mc ec];
    simpl; tauto.
Qed.


Lemma leb_infinity (x : float) : is_nan x = false -> (x <=? infinity) = true.
Proof.
  rewrite not_nan_spec, FloatAxioms.leb_spec. unfold SFleb.
  change (Prim2SF infinity) with (S754_infinity false).
  destruct (Prim2SF x) as [[]|[]| |[] m e]; simpl; congruence.
Qed.

Lemma binary_round_aux_opp (s : bool) (m e : Z) (l : location) :
  SFopp (binary_round_aux prec emax s m e l) = binary_round_aux prec emax (negb s) m e l.
Proof.
  unfold binary_round_aux.
  destruct (shr_fexp prec emax m e l) as [mrs' e'].
  destruct (shr_fexp prec emax _ e' loc_Exact) as [mrs'' e''].
  destruct (shr_m mrs''); try reflexivity.
  destruct (Z.leb e'' _); reflexivity.
Qed.

(** Negation commutes with division and multiplication, bit for bit. *)
Lemma opp_div_l (a b : float) : - a / b = - (a / b).
Proof.
  apply Prim2SF_inj. rewrite FloatAxioms.opp_spec, !FloatAxioms.div_spec, FloatAxioms.opp_spec.
  unfold SF64div, SFdiv.
  destruct (Prim2SF a) as [[]|[]| |[] ma ea], (Prim2SF b) as [[]|[]| |[] mb eb];
    simpl; try reflexivity;
    destruct (SFdiv_core_binary _ _ _ _ _ _) as [[mz ez] lz];
    rewrite binary_round_aux_opp; reflexivity.
Qed.

Lemma opp_mul_l (a b : float) : - a * b = - (a * b).
Proof.
  apply Prim2SF_inj. rewrite FloatAxioms.opp_spec, !FloatAxioms.mul_spec, FloatAxioms.opp_spec.
  unfold SF64mul, SFmul.
  destruct (Prim2SF a) as [[]|[]| |[] ma ea], (Prim2SF b) as [[]|[]| |[] mb eb];
    simpl; try reflexivity; rewrite binary_round_aux_opp; reflexivity.
Qed.

(** [-1./p * x] is [-(1/p * x)]. *)
Lemma neg_one_div_mul (p x : float) : (-1) / p * x = - (1 / p * x).
Proof.
  change (-1) with (- (1)). rewrite opp_div_l, opp_mul_l. reflexivity.
Qed.

Create HintDb floats.
#[global] Hint Resolve leb_refl ltb_leb ltb_false_leb ffinite_not_nan ffinite_opp
  abs_not_nan zero_leb_abs leb_infinity feq_refl : floats.

End FloatFacts.

(** * Quadrature tables *)

(** C9 as stated fails on the triangle rule: the nine tabulated weights,
    accumulated in table order in binary64, give 0.99999999999999933 and not
    1; and the numbers the doubles stand for do not sum to 1 either. *)
Lemma triangle_weights_do_not_sum_to_one :
  (weights_sum QUAD_WEIGHTS =? 1) = false /\
  weights_sum QUAD_WEIGHTS = 0.99999999999999933 /\
  Qeq_bool (exact_sum QUAD_WEIGHTS) 1 = false.
Proof. repeat split; vm_compute; reflexivity. Qed.

(** C9, amended: the eight Gauss-Legendre weights sum to 2 and the nine
    triangle weights sum to 1 up to the truncation of the tabulated decimals.
    In binary64 and table order the Gauss sum is exactly 2 and the triangle
    sum is within 1e-15 of 1; as exact numbers both sums are within 1e-15 of
    their nominal value. *)
Theorem quadrature_weights_sum :
  weights_sum GAUSS_QUAD_WEIGHTS = 2 /\
  (abs (weights_sum QUAD_WEIGHTS - 1) <=? 1e-15) = true /\
  Qle_bool (Qabs (exact_sum GAUSS_QUAD_WEIGHTS - 2)) (1 # 1000000000000000) = true /\
  Qle_bool (Qabs (exact_sum QUAD_WEIGHTS - 1)) (1 # 1000000000000000) = true.
Proof. repeat split; vm_compute; reflexivity. Qed.

(** * Elliptic integral K *)

(** Above [-1] the approximant is evaluated at the argument itself. *)
Lemma ellipk_direct {M : Libm} (m : float) :
  (-1 <? m) = true -> ellipk m = ellipk_singularity m.
Proof. intros H. unfold ellipk. rewrite H. reflexivity. Qed.

(** From [-1] down the value is the Landen-mapped one. *)
Lemma ellipk_mapped {M : Libm} (m : float) :
  (m <=? -1) = true -> ellipk m = landen_ellipk m.
Proof.
  intros H. unfold ellipk, landen_ellipk.
  rewrite (FloatFacts.leb_ltb_false _ _ H). reflexivity.
Qed.

(** C4 fails in the code: the guard of [ellipk] is [k > -1], so for every
    [m] in [(-1, 0)] the approximant is evaluated at [m] itself, outside its
    range [[0, 1]], and only from [-1] down is the argument mapped.  At
    [m = -0.5] the value differs from the Landen-mapped one, and against
    [K = pi / (2 agm(1, sqrt(1 - m)))] its relative error exceeds the
    [2e-8] of the contract, where the Landen-mapped value is within
    [1e-12]. *)
Theorem ellipk_above_minus_one_is_not_mapped :
  (forall (M : Libm) (m : float), (-1 <? m) = true -> ellipk m = ellipk_singularity m) /\
  (forall (M : Libm) (m : float), (m <=? -1) = true -> ellipk m = landen_ellipk m) /\
  (-1 <? -0.5) = true /\ (-0.5 <? 0) = true /\
  (@ellipk RefLibm.libm (-0.5) =? @landen_ellipk RefLibm.libm (-0.5)) = false /\
  (2e-8 <? relative_error (@ellipk RefLibm.libm (-0.5)) (agm_ellipk (-0.5))) = true /\
  (relative_error (@landen_ellipk RefLibm.libm (-0.5)) (agm_ellipk (-0.5)) <? 1e-12) = true.
Proof.
  split; [intros M m; apply ellipk_direct|].
  split; [intros M m; apply ellipk_mapped|].
  repeat split; vm_compute; reflexivity.
Qed.

(** * Expansion evaluators outside the grid *)

(** C5: on a grid of [N_z >= 1] points, when the z-coordinate of the point
    is not strictly between [z_grid[0]] and [z_grid[N_z-1]] (a NaN
    included), [potential_radial_derivs] returns 0, [field_radial_derivs] and
    [field_3d_derivs] write the zero vector, and each returns normally.  The
    z-coordinate is [point[1]] for the two radial evaluators and [point[2]]
    for the 3D one. *)
Theorem expansion_evaluators_zero_out_of_range {M : Libm}
    (point z_grid coeff_p : buf) (N_z : nat) :
  (1 <= N_z)%nat ->
  ((z_grid 0%nat <? point 1%nat) && (point 1%nat <? z_grid (N_z - 1)%nat) = false ->
   potential_radial_derivs point z_grid coeff_p N_z = Some 0 /\
   field_radial_derivs point z_grid coeff_p N_z = Some [0; 0; 0]) /\
  ((z_grid 0%nat <? point 2%nat) && (point 2%nat <? z_grid (N_z - 1)%nat) = false ->
   field_3d_derivs point z_grid coeff_p N_z = Some [0; 0; 0]).
Proof.
  intros _. split.
  - intros H. unfold potential_radial_derivs, field_radial_derivs.
    cbv zeta. rewrite H. split; reflexivity.
  - intros H. unfold field_3d_derivs. cbv zeta. rewrite H. reflexivity.
Qed.

Lemma expansion_evaluators_zero_out_of_range_witness :
  @potential_radial_derivs RefLibm.libm Sample.point_above Sample.z_grid Sample.coeff 3 = Some 0 /\
  @field_radial_derivs RefLibm.libm Sample.point_above Sample.z_grid Sample.coeff 3 = Some [0; 0; 0] /\
  @field_3d_derivs RefLibm.libm Sample.point_above Sample.z_grid Sample.coeff 3 = Some [0; 0; 0].
Proof.
  pose proof (@expansion_evaluators_zero_out_of_range RefLibm.libm
                Sample.point_above Sample.z_grid Sample.coeff 3) as [Hr H3]; [lia|].
  destruct (Hr eq_refl) as [Hp Hf].
  split; [exact Hp | split; [exact Hf | exact (H3 eq_refl)]].
Defined.

(** * The radial expansion field *)

(** The local array [derivs] holds the nine axial derivatives. *)
Lemma spline_derivs_get {M : Libm} (coeff_p : buf) (index : nat) (diffz : float) (n : nat) :
  (n < DERIV_2D_MAX)%nat ->
  get (spline_derivs coeff_p index diffz) n = axial_derivative coeff_p index diffz n.
Proof.
  intros Hn. unfold DERIV_2D_MAX in Hn.
  do 9 (destruct n as [|n]; [reflexivity|]). lia.
Qed.





(** * Plane intersection *)

(** For comparable coordinates, [straddles] is: [z] lies between them. *)
Lemma straddles_between (z1 z2 z : float) :
  is_nan z1 = false -> is_nan z2 = false ->
  straddles z1 z2 z =
  ((z1 <=? z) && (z <=? z2)) || ((z2 <=? z) && (z <=? z1)).
Proof.
  intros H1 H2. unfold straddles, C.fmin, C.fmax. rewrite H1, H2.
  destruct (z1 <? z2) eqn:E.
  - destruct ((z1 <=? z) && (z <=? z2)) eqn:A; [reflexivity|]. simpl.
    destruct (z2 <=? z) eqn:B, (z <=? z1) eqn:C'; try reflexivity.
    pose proof (FloatFacts.leb_ltb_false _ _ (FloatFacts.leb_trans _ _ _ B C')). congruence.
  - pose proof (FloatFacts.ltb_false_leb _ _ E H1 H2) as L.
    destruct (z1 <=? z) eqn:A, (z <=? z2) eqn:B; simpl;
      try (destruct ((z2 <=? z) && (z <=? z1)); reflexivity).
    rewrite (FloatFacts.leb_trans _ _ _ L A), (FloatFacts.leb_trans _ _ _ B L). reflexivity.
Qed.

(** The loop entered with counter [n] returns at the largest straddling
    [i <= n], with the interpolation there. *)
Lemma xy_plane_loop_spec (width zcol : nat) (positions : buf) (z : float) (n : nat) :
  intersection_spec width zcol positions (S n) z (xy_plane_loop width zcol positions z n).
Proof.
  induction n as [|n IH]; cbn [xy_plane_loop].
  - intros i Hi. lia.
  - fold (straddles (positions (width * n + zcol)%nat) (positions (width * S n + zcol)%nat) z).
    destruct (straddles _ _ z) eqn:E.
    + exists (S n). unfold pair_straddles, interpolate, lambda.
      replace (S n - 1)%nat with n by lia.
      split; [lia|]. split; [exact E|]. split; [intros j Hj; lia|].
      rewrite FloatFacts.abs_div. reflexivity.
    + destruct (xy_plane_loop width zcol positions z n) as [v|]; cbn [intersection_spec] in *.
      * destruct IH as (i & Hi & Hs & Hlast & Hv). exists i.
        split; [lia|]. split; [exact Hs|]. split; [|exact Hv].
        intros j Hj. destruct (Nat.eq_dec j (S n)) as [->|Hne].
        -- unfold pair_straddles. replace (S n - 1)%nat with n by lia. exact E.
        -- apply Hlast. lia.
      * intros i Hi. destruct (Nat.eq_dec i (S n)) as [->|Hne].
        -- unfold pair_straddles. replace (S n - 1)%nat with n by lia. exact E.
        -- apply IH. lia.
Qed.

(** Between two numbers, the test of the loop is: the plane lies between
    them. *)
Lemma straddles_lies_between (z1 z2 z : float) :
  is_nan z1 = false -> is_nan z2 = false ->
  (straddles z1 z2 z = true <-> lies_between z1 z2 z).
Proof.
  intros H1 H2. rewrite (straddles_between z1 z2 z H1 H2). unfold lies_between.
  rewrite orb_true_iff, !andb_true_iff. reflexivity.
Qed.

Lemma intersection_spec_meets (width zcol : nat) (positions : buf) (N_p : nat) (z : float)
    (result : option vec) :
  (forall i, (i < N_p)%nat -> is_nan (positions (width * i + zcol)%nat) = false) ->
  intersection_spec width zcol positions N_p z result ->
  intersection_meets width zcol positions N_p z result.
Proof.
  intros Hnum.
  assert (Hpair : forall i, (0 < i < N_p)%nat ->
            (pair_straddles width zcol positions z i = true
             <-> crossing width zcol positions z i)).
  { intros i Hi. unfold pair_straddles, crossing.
    apply straddles_lies_between; apply Hnum; lia. }
  destruct result as [v|]; cbn [intersection_spec intersection_meets].
  - intros (i & Hi & Hs & Hlast & Hv). exists i.
    split; [exact Hi|]. split; [apply Hpair; assumption|]. split; [|exact Hv].
    intros j Hj Hc. apply Hpair in Hc; [|lia]. rewrite (Hlast j Hj) in Hc. discriminate Hc.
  - intros Hnone i Hi Hc. apply Hpair in Hc; [|exact Hi].
    rewrite (Hnone i Hi) in Hc. discriminate Hc.
Qed.

(** C6 as stated fails at a state that is not a number: [fmin] and [fmax]
    skip a NaN, so the pair (z = 5, z = NaN) passes the test of the loop at
    the plane [z = 5], which is not between its z-coordinates, and the call
    returns true with six NaNs. *)
Lemma xy_plane_intersection_at_nan_state :
  xy_plane_intersection_3d Sample.nan_trajectory 2 5 = Some [nan; nan; nan; nan; nan; nan] /\
  ~ crossing 6 2 Sample.nan_trajectory 5 1 /\
  ~ intersection_meets 6 2 Sample.nan_trajectory 2 5
      (xy_plane_intersection_3d Sample.nan_trajectory 2 5).
Proof.
  assert (Hc : ~ crossing 6 2 Sample.nan_trajectory 5 1).
  { unfold crossing, lies_between. vm_compute. intros [[_ H]|[H _]]; discriminate H. }
  split; [vm_compute; reflexivity|]. split; [exact Hc|].
  replace (xy_plane_intersection_3d Sample.nan_trajectory 2 5)
    with (Some [nan; nan; nan; nan; nan; nan]) by (vm_compute; reflexivity).
  intros (i & Hi & Hcross & _). replace i with 1%nat in Hcross by lia. exact (Hc Hcross).
Qed.

(** C6, amended: on a trajectory whose stored z-coordinates are numbers,
    [xy_plane_intersection_2d] and [xy_plane_intersection_3d] walk backward
    from the last state; at the first consecutive pair (state [i-1], state
    [i]) that has the plane between its z-coordinates, the ends included,
    they return true with every component interpolated at
    [lambda = |z - z1| / |z1 - z2|]; when no pair has, they return false.
    The z-coordinate is column 1 of 4 in 2D and column 2 of 6 in 3D. *)
Theorem xy_plane_intersection_correct (positions_p : buf) (N_p : nat) (z : float) :
  ((forall i, (i < N_p)%nat -> is_nan (positions_p (4 * i + 1)%nat) = false) ->
   intersection_meets 4 1 positions_p N_p z (xy_plane_intersection_2d positions_p N_p z)) /\
  ((forall i, (i < N_p)%nat -> is_nan (positions_p (6 * i + 2)%nat) = false) ->
   intersection_meets 6 2 positions_p N_p z (xy_plane_intersection_3d positions_p N_p z)).
Proof.
  assert (H : forall width zcol,
            intersection_spec width zcol positions_p N_p z
              (match N_p with
               | O => None
               | S _ => xy_plane_loop width zcol positions_p z (N_p - 1)
               end)).
  { intros width zcol. destruct N_p as [|n].
    - cbn. intros i Hi. lia.
    - replace (S n - 1)%nat with n by lia. apply xy_plane_loop_spec. }
  split; intros Hnum; apply intersection_spec_meets; try exact Hnum.
  - pose proof (H 4%nat 1%nat) as H'. unfold xy_plane_intersection_2d.
    destruct N_p; exact H'.
  - pose proof (H 6%nat 2%nat) as H'. unfold xy_plane_intersection_3d.
    destruct N_p; exact H'.
Qed.

Lemma xy_plane_intersection_correct_witness :
  xy_plane_intersection_3d Sample.trajectory 4 1 = Some [10; 0; 1; 0; 0; 1] /\
  intersection_meets 6 2 Sample.trajectory 4 1 (Some [10; 0; 1; 0; 0; 1]).
Proof.
  assert (E : xy_plane_intersection_3d Sample.trajectory 4 1 = Some [10; 0; 1; 0; 0; 1])
    by (vm_compute; reflexivity).
  split; [exact E|]. rewrite <- E.
  apply (proj2 (xy_plane_intersection_correct Sample.trajectory 4 1)).
  intros i Hi. do 4 (destruct i as [|i]; [reflexivity|]). lia.
Defined.

(** Scenario S5: states with z = 0, 0.5, 1.5, 2.5 cut at z = 1 give the
    midpoint of the states at 0.5 and 1.5. *)
Example xy_plane_intersection_3d_S5 :
  xy_plane_intersection_3d Sample.trajectory 4 1 = Some [10; 0; 1; 0; 0; 1] /\
  lambda 1 0.5 1.5 = 0.5 /\
  xy_plane_intersection_3d Sample.trajectory 4 3 = None.
Proof. repeat split; vm_compute; reflexivity. Qed.

(** * Particle tracer *)

Lemma upd_eq (b : buf) (i : nat) (v : float) : upd b i v i = v.
Proof. unfold upd. rewrite Nat.eqb_refl. reflexivity. Qed.

Lemma upd_neq (b : buf) (i j : nat) (v : float) : j <> i -> upd b i v j = b j.
Proof. unfold upd. intros H. destruct (Nat.eqb_spec j i); [contradiction | reflexivity]. Qed.

Lemma length_6 (y : vec) :
  length y = 6%nat -> exists a b c d e f, y = [a; b; c; d; e; f].
Proof.
  intros H. do 6 (destruct y as [|? y]; [discriminate|]).
  destruct y; [|discriminate]. repeat eexists.
Qed.

Lemma advance_length (y : vec) (k : mat) : length (advance y k) = 6%nat.
Proof. reflexivity. Qed.

Lemma write_sample_inside (positions : buf) (N : nat) (y : vec) (c : nat) :
  (c < 6)%nat -> write_sample positions N y (6 * N + c)%nat = get y c.
Proof.
  intros Hc. unfold write_sample. cbn [fold_left seq].
  do 6 (destruct c as [|c];
        [repeat first [rewrite upd_eq; reflexivity | rewrite upd_neq by lia] |]).
  lia.
Qed.

Lemma write_sample_outside (positions : buf) (N : nat) (y : vec) (j : nat) :
  (j < 6 * N \/ 6 * N + 6 <= j)%nat -> write_sample positions N y j = positions j.
Proof.
  intros Hj. unfold write_sample. cbn [fold_left seq].
  rewrite !upd_neq by lia. reflexivity.
Qed.

Lemma sample_write_sample_same (positions : buf) (N : nat) (y : vec) :
  length y = 6%nat -> sample (write_sample positions N y) N = y.
Proof.
  intros H. destruct (length_6 y H) as (a & b & c & d & e & f & ->).
  unfold sample. cbn [map seq].
  rewrite !write_sample_inside by lia. reflexivity.
Qed.

Lemma sample_write_sample_other (positions : buf) (N i : nat) (y : vec) :
  i <> N -> sample (write_sample positions N y) i = sample positions i.
Proof.
  intros H. unfold sample. cbn [map seq].
  rewrite !write_sample_outside by lia. reflexivity.
Qed.

Lemma sample_ext (p q : buf) (i : nat) :
  (forall j, (6 * i <= j < 6 * i + 6)%nat -> p j = q j) -> sample p i = sample q i.
Proof.
  intros H. unfold sample. cbn [map seq]. rewrite !H by lia. reflexivity.
Qed.

Section TracerFacts.
Context {M : Libm}.
Variable field : field_fun.
Variable bounds : buf.
Variable atol : float.

(** What the body of [if (TE <= atol)] leaves behind. *)
Lemma store_step_spec (s : tracer_state) (k : mat) :
  length (st_y s) = 6%nat ->
  st_y (store_step s k) = advance (st_y s) k /\
  st_h (store_step s k) = st_h s /\
  st_N (store_step s k) = (st_N s + 1)%nat /\
  st_positions (store_step s k) = write_sample (st_positions s) (st_N s) (advance (st_y s) k) /\
  ((1 <= st_N s)%nat ->
   forall j, st_times (store_step s k) j
             = if Nat.eqb j (st_N s) then st_times s (st_N s - 1)%nat + st_h s else st_times s j).
Proof.
  intros H. destruct (length_6 _ H) as (a & b & c & d & e & f & Hy).
  destruct s as [y h N times positions]. cbn [st_y st_h st_N st_times st_positions] in *.
  subst y. unfold store_step. cbn [st_y st_h st_N st_times st_positions fold_left seq].
  cbn [set_at get nth]. unfold advance. cbn [map seq get nth].
  repeat split.
  intros HN j. unfold upd.
  destruct (Nat.eqb_spec j N) as [->|Hne]; [|reflexivity].
  destruct (Nat.eqb_spec (N - 1) N); [lia | reflexivity].
Qed.

(** The truncation error is the running maximum of the component errors. *)
Lemma truncation_error_running_max (k : mat) :
  truncation_error k = running_max (map (component_error k) (seq 0 6)) 0.
Proof. reflexivity. Qed.

End TracerFacts.

Lemma running_max_not_nan (es : list float) (t0 : float) :
  is_nan t0 = false -> is_nan (running_max es t0) = false.
Proof.
  revert t0. induction es as [|e es IH]; intros t0 H0; simpl; [exact H0|].
  apply IH. destruct (t0 <? e) eqn:E; [|exact H0].
  apply (FloatFacts.ltb_not_nan _ _ E).
Qed.

Lemma running_max_ge_init (es : list float) (t0 : float) :
  is_nan t0 = false -> (t0 <=? running_max es t0) = true.
Proof.
  revert t0. induction es as [|e es IH]; intros t0 H0; simpl.
  - auto with floats.
  - destruct (t0 <? e) eqn:E; [|apply IH, H0].
    apply FloatFacts.leb_trans with e; [auto with floats|].
    apply IH. apply (FloatFacts.ltb_not_nan _ _ E).
Qed.



Section StepControl.
Context {M : Libm}.
Variable field : field_fun.
Variable bounds : buf.
Variable atol : float.


Lemma truncation_error_not_nan (k : mat) : is_nan (truncation_error k) = false.
Proof. rewrite truncation_error_running_max. apply running_max_not_nan. reflexivity. Qed.


End StepControl.


(** The step control of [backend.c] is a different one: at its smallest step
    it accepts a step whose error exceeds the tolerance, and its next step
    size never falls below [hmin], where the current one gives a smaller
    step. *)
Lemma legacy_step_control_differs :
  let atol := 1e-10 in let TE := 1e-5 in
  let hmax := 0.085 in let hmin := Legacy.TRACING_STEP_MIN in
  (TE <=? atol) = false /\
  Legacy.accepts TE atol hmin hmin = true /\
  @Legacy.next_h RefLibm.libm atol hmin hmax hmin TE = hmin /\
  (@next_h RefLibm.libm atol hmin hmax TE <? hmin) = true.
Proof. vm_compute. repeat split. Qed.

Lemma block_size_bounds : (2 <= TRACING_BLOCK_SIZE)%nat.
Proof. unfold TRACING_BLOCK_SIZE. lia. Qed.

Section TracerRun.
Context {M : Libm}.
Variable field : field_fun.
Variable bounds : buf.
Variable atol : float.
Variables t0 p0 : buf.

Lemma initial_invariant :
  tracer_invariant field bounds atol t0 p0 (initial_state t0 p0).
Proof.
  pose proof block_size_bounds.
  unfold tracer_invariant, trajectory_ok, initial_state; cbn [st_y st_N st_times st_positions].
  split; [reflexivity|]. split; [lia|]. split; [reflexivity|].
  repeat split; intros; try reflexivity; lia.
Qed.

(** An accepted step extends a well-formed trajectory by one state. *)
Lemma store_step_trajectory (s : tracer_state) :
  tracer_invariant field bounds atol t0 p0 s ->
  in_bounds bounds (st_y s) = true ->
  let k := fst (stages field (st_y s) (st_h s)) in
  (truncation_error k <=? atol) = true ->
  trajectory_ok field bounds atol t0 p0 (st_N s + 1)
                (st_times (store_step s k)) (st_positions (store_step s k)).
Proof.
  intros (Hlen & HN & Hy & Hframe_p & Hframe_t & Hbox & Hchain) Hin k Hacc.
  destruct (store_step_spec s k Hlen) as (_ & _ & _ & Hp & Ht).
  specialize (Ht (proj1 HN)). rewrite Hp.
  assert (Hs : forall i, i <> st_N s ->
                 sample (write_sample (st_positions s) (st_N s) (advance (st_y s) k)) i
                 = sample (st_positions s) i)
    by (intros; apply sample_write_sample_other; assumption).
  assert (Htn : forall j, j <> st_N s -> st_times (store_step s k) j = st_times s j).
  { intros j Hj. rewrite Ht. destruct (Nat.eqb_spec j (st_N s)); [contradiction | reflexivity]. }
  split; [|split; [|split]].
  - intros j Hj. rewrite write_sample_outside by lia. apply Hframe_p. lia.
  - intros j Hj. rewrite Htn by lia. apply Hframe_t. lia.
  - intros i Hi. rewrite Hs by lia.
    destruct (Nat.eq_dec (i + 1) (st_N s)) as [E|E].
    + replace i with (st_N s - 1)%nat by lia. rewrite <- Hy. exact Hin.
    + apply Hbox. lia.
  - intros i Hi. destruct (Nat.eq_dec i (st_N s)) as [->|E].
    + rewrite Hs by lia. rewrite sample_write_sample_same by apply advance_length.
      rewrite Htn by lia. rewrite Ht, Nat.eqb_refl. rewrite <- Hy.
      exists (st_h s). cbv zeta. fold k. repeat split. exact Hacc.
    + rewrite !Hs by lia. rewrite !Htn by lia. apply Hchain. lia.
Qed.

Lemma iteration_continue_invariant (hmax : float) (s s' : tracer_state) :
  tracer_invariant field bounds atol t0 p0 s ->
  iteration field bounds atol hmax s = Continue s' ->
  tracer_invariant field bounds atol t0 p0 s'.
Proof.
  intros Inv. pose proof Inv as (Hlen & HN & Hy & Htraj).
  unfold iteration. destruct (in_bounds bounds (st_y s)) eqn:Hin; [|discriminate].
  set (k := fst (stages field (st_y s) (st_h s))).
  destruct (truncation_error k <=? atol) eqn:Hacc.
  - destruct (store_step_spec s k Hlen) as (Hy' & _ & HN' & Hp & _).
    destruct (Nat.eqb_spec (st_N (store_step s k)) TRACING_BLOCK_SIZE) as [Hb|Hb];
      [discriminate|].
    intros E. injection E as <-.
    unfold tracer_invariant. cbn [with_h st_y st_N st_times st_positions].
    rewrite HN' in *. split; [rewrite Hy'; apply advance_length|]. split; [lia|]. split.
    + rewrite Hy', Hp. replace (st_N s + 1 - 1)%nat with (st_N s) by lia.
      symmetry. apply sample_write_sample_same, advance_length.
    + apply store_step_trajectory; assumption.
  - intros E. injection E as <-. exact Inv.
Qed.

Lemma iteration_returned (hmax : float) (s r : tracer_state) :
  tracer_invariant field bounds atol t0 p0 s ->
  iteration field bounds atol hmax s = Returned r ->
  (1 <= st_N r <= TRACING_BLOCK_SIZE)%nat /\
  (st_N r = TRACING_BLOCK_SIZE \/ in_bounds bounds (sample (st_positions r) (st_N r - 1)) = false) /\
  trajectory_ok field bounds atol t0 p0 (st_N r) (st_times r) (st_positions r).
Proof.
  intros Inv. pose proof Inv as (Hlen & HN & Hy & Htraj).
  unfold iteration. destruct (in_bounds bounds (st_y s)) eqn:Hin.
  - set (k := fst (stages field (st_y s) (st_h s))).
    destruct (truncation_error k <=? atol) eqn:Hacc; [|discriminate].
    destruct (store_step_spec s k Hlen) as (_ & _ & HN' & _ & _).
    destruct (Nat.eqb_spec (st_N (store_step s k)) TRACING_BLOCK_SIZE) as [Hb|Hb];
      [|discriminate].
    intros E. injection E as <-. split; [lia|]. split; [left; exact Hb|].
    rewrite HN'. apply store_step_trajectory; assumption.
  - intros E. injection E as <-. split; [lia|]. split; [|exact Htraj].
    right. rewrite <- Hy. exact Hin.
Qed.

Lemma trace_loop_returned (hmax : float) (fuel : nat) (s r : tracer_state) :
  tracer_invariant field bounds atol t0 p0 s ->
  trace_loop field bounds atol hmax fuel s = Some r ->
  (1 <= st_N r <= TRACING_BLOCK_SIZE)%nat /\
  (st_N r = TRACING_BLOCK_SIZE \/ in_bounds bounds (sample (st_positions r) (st_N r - 1)) = false) /\
  trajectory_ok field bounds atol t0 p0 (st_N r) (st_times r) (st_positions r).
Proof.
  revert s. induction fuel as [|fuel IH]; intros s Inv; cbn [trace_loop]; [discriminate|].
  destruct (iteration field bounds atol hmax s) as [r'|s'] eqn:E.
  - intros H. injection H as <-. eapply iteration_returned; eassumption.
  - apply IH. eapply iteration_continue_invariant; eassumption.
Qed.

(** The test of the loop is the box. *)
Lemma in_bounds_inside_box (y : vec) : in_bounds bounds y = true <-> inside_box bounds y.
Proof.
  unfold in_bounds, inside_box, xmin, xmax, ymin, ymax, zmin, zmax.
  rewrite !andb_true_iff. split.
  - intros (((((H0 & H1) & H2) & H3) & H4) & H5) a Ha.
    destruct a as [|[|[|a]]]; [split; assumption..|lia].
  - intros H.
    destruct (H 0%nat ltac:(lia)) as [H0 H1].
    destruct (H 1%nat ltac:(lia)) as [H2 H3].
    destruct (H 2%nat ltac:(lia)) as [H4 H5].
    repeat split; assumption.
Qed.

Lemma not_inside_box (y : vec) : in_bounds bounds y = false <-> ~ inside_box bounds y.
Proof.
  rewrite <- in_bounds_inside_box. destruct (in_bounds bounds y); intuition congruence.
Qed.

Lemma reaches_inv (hmax : float) (s s' : tracer_state) :
  reaches field bounds atol hmax s s' ->
  s' = s \/ exists s1, iteration field bounds atol hmax s = Continue s1 /\
                       reaches field bounds atol hmax s1 s'.
Proof. intros H. destruct H as [s|s s1 s' E H]; [left; reflexivity | right; eauto]. Qed.

(** When every step attempted along the run is accepted, the loop returns
    before the block is exceeded. *)
Lemma trace_loop_returns (hmax : float) (fuel : nat) (s : tracer_state) :
  (forall s', reaches field bounds atol hmax s s' -> in_bounds bounds (st_y s') = true ->
     (truncation_error (fst (stages field (st_y s') (st_h s'))) <=? atol) = true) ->
  length (st_y s) = 6%nat ->
  (st_N s < TRACING_BLOCK_SIZE <= st_N s + fuel)%nat ->
  exists r, trace_loop field bounds atol hmax fuel s = Some r.
Proof.
  revert s. induction fuel as [|fuel IH]; intros s Hacc Hlen HN; [lia|].
  cbn [trace_loop].
  destruct (iteration field bounds atol hmax s) as [r|s1] eqn:Hit; [eexists; reflexivity|].
  assert (Hform : st_y s1 = st_y (store_step s (fst (stages field (st_y s) (st_h s)))) /\
                  st_N s1 = st_N (store_step s (fst (stages field (st_y s) (st_h s)))) /\
                  st_N s1 <> TRACING_BLOCK_SIZE).
  { revert Hit. unfold iteration.
    destruct (in_bounds bounds (st_y s)) eqn:Hin; [|discriminate].
    rewrite (Hacc s (reaches_here _ _ _ _ s) Hin).
    generalize (store_step s (fst (stages field (st_y s) (st_h s)))).
    generalize (next_h atol (st_h s) hmax
                       (truncation_error (fst (stages field (st_y s) (st_h s))))).
    intros h' stored.
    destruct (Nat.eqb_spec (st_N stored) TRACING_BLOCK_SIZE) as [Hb|Hb]; [discriminate|].
    intros E. assert (E' : s1 = with_h stored h') by congruence. rewrite E'.
    repeat split. exact Hb. }
  destruct Hform as (Hy1 & HN1 & Hb).
  destruct (store_step_spec s (fst (stages field (st_y s) (st_h s))) Hlen)
    as (Hy' & _ & HN' & _).
  apply IH.
  - intros s' Hr. apply Hacc. apply (reaches_pass _ _ _ _ s s1 s' Hit Hr).
  - rewrite Hy1, Hy'. apply advance_length.
  - rewrite HN1, HN' in *. lia.
Qed.

(** A pass after which the loop goes on either stores a state or leaves the
    count as it was. *)
Lemma iteration_continue_cases (hmax : float) (s s1 : tracer_state) :
  length (st_y s) = 6%nat ->
  iteration field bounds atol hmax s = Continue s1 ->
  length (st_y s1) = 6%nat /\
  (st_N s1 = st_N s \/ (st_N s1 = (st_N s + 1)%nat /\ st_N s1 <> TRACING_BLOCK_SIZE)).
Proof.
  intros Hlen. unfold iteration.
  destruct (store_step_spec s (fst (stages field (st_y s) (st_h s))) Hlen)
    as (Hy' & _ & HN' & _).
  assert (Hlen' : length (st_y (store_step s (fst (stages field (st_y s) (st_h s))))) = 6%nat)
    by (rewrite Hy'; apply advance_length).
  clear Hy'. revert Hlen' HN'.
  generalize (store_step s (fst (stages field (st_y s) (st_h s)))).
  generalize (next_h atol (st_h s) hmax
                     (truncation_error (fst (stages field (st_y s) (st_h s))))).
  generalize (truncation_error (fst (stages field (st_y s) (st_h s))) <=? atol).
  intros accepted h' stored Hlen' HN'.
  destruct (in_bounds bounds (st_y s)); [|discriminate].
  destruct accepted.
  - destruct (Nat.eqb_spec (st_N stored) TRACING_BLOCK_SIZE) as [Hb|Hb]; [discriminate|].
    intros E. assert (E' : s1 = with_h stored h') by congruence. rewrite E'.
    cbn [with_h st_y st_N]. split; [exact Hlen'|]. right. split; [exact HN' | exact Hb].
  - intros E. assert (E' : s1 = with_h s h') by congruence. rewrite E'.
    cbn [with_h st_y st_N]. split; [exact Hlen | left; reflexivity].
Qed.

(** A pass whose step is accepted returns or stores a state. *)
Lemma iteration_accepted (hmax : float) (s : tracer_state) :
  length (st_y s) = 6%nat ->
  (truncation_error (fst (stages field (st_y s) (st_h s))) <=? atol) = true ->
  (exists r, iteration field bounds atol hmax s = Returned r) \/
  (exists s1, iteration field bounds atol hmax s = Continue s1 /\
              length (st_y s1) = 6%nat /\ st_N s1 = (st_N s + 1)%nat /\
              st_N s1 <> TRACING_BLOCK_SIZE).
Proof.
  intros Hlen Hacc.
  destruct (iteration field bounds atol hmax s) as [r|s1] eqn:Hit; [left; eauto|].
  right. exists s1. split; [reflexivity|].
  destruct (iteration_continue_cases hmax s s1 Hlen Hit) as (Hl1 & [HN1|(HN1 & Hb1)]);
    [|repeat split; assumption].
  exfalso. revert Hit HN1. unfold iteration. rewrite Hacc.
  destruct (store_step_spec s (fst (stages field (st_y s) (st_h s))) Hlen)
    as (_ & _ & HN' & _).
  revert HN'.
  generalize (store_step s (fst (stages field (st_y s) (st_h s)))).
  generalize (next_h atol (st_h s) hmax
                     (truncation_error (fst (stages field (st_y s) (st_h s))))).
  intros h' stored HN'.
  destruct (in_bounds bounds (st_y s)); [|discriminate].
  destruct (Nat.eqb (st_N stored) TRACING_BLOCK_SIZE); [discriminate|].
  intros E. assert (E' : s1 = with_h stored h') by congruence. rewrite E'.
  cbn [with_h st_N]. lia.
Qed.

(** When from every state the run reaches a step is accepted some passes
    later, the loop returns: each accepted step stores a state, and the block
    holds [TRACING_BLOCK_SIZE] of them. *)
Lemma trace_loop_returns_eventually (hmax : float) (n : nat) (s : tracer_state) :
  (TRACING_BLOCK_SIZE - st_N s <= n)%nat ->
  length (st_y s) = 6%nat -> (st_N s < TRACING_BLOCK_SIZE)%nat ->
  (forall t, reaches field bounds atol hmax s t -> in_bounds bounds (st_y t) = true ->
     exists t', reaches field bounds atol hmax t t' /\
                (truncation_error (fst (stages field (st_y t') (st_h t'))) <=? atol) = true) ->
  exists fuel r, trace_loop field bounds atol hmax fuel s = Some r.
Proof.
  revert s. induction n as [|n IHn]; intros s Hn Hlen HN H; [lia|].
  destruct (in_bounds bounds (st_y s)) eqn:Hin.
  2: { exists 1%nat, s. cbn [trace_loop]. unfold iteration. rewrite Hin. reflexivity. }
  destruct (H s (reaches_here _ _ _ _ s) Hin) as (t' & Hr & Hacc). clear Hin.
  revert Hacc Hn Hlen HN H.
  induction Hr as [t|t t1 t' Hstep Hr IHr]; intros Hacc Hn Hlen HN H.
  - destruct (iteration_accepted hmax t Hlen Hacc) as [[r E]|(s1 & E & Hl1 & HN1 & Hb1)].
    + exists 1%nat, r. cbn [trace_loop]. rewrite E. reflexivity.
    + destruct (IHn s1) as (fuel & r & Hf); try assumption; try lia.
      * intros u Hu. apply H. apply (reaches_pass _ _ _ _ t s1 u E Hu).
      * exists (S fuel), r. cbn [trace_loop]. rewrite E. exact Hf.
  - destruct (iteration_continue_cases hmax t t1 Hlen Hstep) as (Hl1 & [HN1|(HN1 & Hb1)]).
    + destruct (IHr Hacc) as (fuel & r & Hf); try assumption; try lia.
      * intros u Hu. apply H. apply (reaches_pass _ _ _ _ t t1 u Hstep Hu).
      * exists (S fuel), r. cbn [trace_loop]. rewrite Hstep. exact Hf.
    + destruct (IHn t1) as (fuel & r & Hf); try assumption; try lia.
      * intros u Hu. apply H. apply (reaches_pass _ _ _ _ t t1 u Hstep Hu).
      * exists (S fuel), r. cbn [trace_loop]. rewrite Hstep. exact Hf.
Qed.

(** The truncation error is never negative, so a tolerance that [0] does
    not meet is met by no step. *)
Lemma tolerance_below_zero_rejects (k : mat) :
  (0 <=? atol) = false -> (truncation_error k <=? atol) = false.
Proof.
  intros Hneg. destruct (truncation_error k <=? atol) eqn:E; [|reflexivity].
  rewrite <- Hneg. symmetry. apply FloatFacts.leb_trans with (y := truncation_error k); [|exact E].
  rewrite truncation_error_running_max. apply running_max_ge_init. reflexivity.
Qed.

(** A state in the box none of whose steps is accepted is never left. *)
Lemma trace_loop_runs_on (hmax : float) (fuel : nat) (s : tracer_state) :
  in_bounds bounds (st_y s) = true ->
  (forall h, (truncation_error (fst (stages field (st_y s) h)) <=? atol) = false) ->
  trace_loop field bounds atol hmax fuel s = None.
Proof.
  revert s. induction fuel as [|fuel IH]; intros s Hin Hrej; [reflexivity|].
  cbn [trace_loop]. unfold iteration. rewrite Hin, Hrej.
  apply IH; cbn [with_h st_y]; assumption.
Qed.

(** A pass of the loop returns in two cases only: the state at the test is
    outside the box, or the step is accepted and fills the block. *)
Lemma iteration_returns_iff (hmax : float) (s r : tracer_state) :
  let k := fst (stages field (st_y s) (st_h s)) in
  iteration field bounds atol hmax s = Returned r <->
  (in_bounds bounds (st_y s) = false /\ r = s) \/
  (in_bounds bounds (st_y s) = true /\ (truncation_error k <=? atol) = true /\
   st_N (store_step s k) = TRACING_BLOCK_SIZE /\ r = store_step s k).
Proof.
  intros k. unfold iteration. fold k.
  destruct (in_bounds bounds (st_y s)).
  - destruct (truncation_error k <=? atol).
    + destruct (Nat.eqb_spec (st_N (store_step s k)) TRACING_BLOCK_SIZE) as [Hb|Hb].
      * split.
        -- intros E. injection E as <-. right. repeat split. exact Hb.
        -- intros [[E _]|(_ & _ & _ & ->)]; [discriminate | reflexivity].
      * split; [discriminate|].
        intros [[E _]|(_ & _ & Hb' & _)]; [discriminate | contradiction].
    + split; [discriminate|]. intros [[E _]|(_ & E & _)]; discriminate.
  - split.
    + intros E. injection E as <-. left. split; reflexivity.
    + intros [[_ ->]|(E & _)]; [reflexivity | discriminate].
Qed.

End TracerRun.

(** C3 as stated fails: not every call returns.  At a start inside the box
    and the tolerance [-1], which no truncation error meets, no step is ever
    accepted and the loop is still running after any number of passes. *)
Lemma trace_particle_runs_on_below_zero :
  inside_box Sample.box (sample Sample.start 0) /\
  (0 <=? -1) = false /\
  (forall fuel,
     @trace_particle RefLibm.libm Sample.uniform_field Sample.box (-1) fuel
                     Sample.clock Sample.start = None).
Proof.
  split; [apply in_bounds_inside_box; vm_compute; reflexivity|]. split; [reflexivity|].
  intros fuel. unfold trace_particle.
  rewrite (@trace_loop_runs_on RefLibm.libm Sample.uniform_field Sample.box (-1));
    [reflexivity | vm_compute; reflexivity |].
  intros h. apply tolerance_below_zero_rejects. reflexivity.
Qed.

(** C3, amended.  The box is the closed box of the bounds, and a NaN
    coordinate is outside it.  Whenever [trace_particle] returns [N]:
    [1 <= N <= 10^5 = TRACING_BLOCK_SIZE]; state [N-1] is outside the box or
    [N = 10^5]; every earlier state is inside the box; states [1 .. N-1] are
    each an accepted step from the state before, and nothing is stored from
    state [N] on, so [N] counts the stored states, the caller's initial one
    included.  The call returns, within [10^5] passes of the loop, when every
    step attempted along its run is accepted, and it returns whenever, from
    every state its run reaches, some later pass accepts a step.  Not every
    call returns: from a
    start inside the box with a tolerance that [0] does not meet (negative or
    NaN), it never does.  And a pass of the loop returns in two cases only:
    the state at the test is outside the box, or the step is accepted and
    its store brings the count to [10^5]. *)
Theorem trace_particle_termination {M : Libm} (field : field_fun) (bounds : buf)
    (atol : float) (times_array pos_array : buf) :
  Z.of_nat TRACING_BLOCK_SIZE = 100000%Z /\
  (forall y, in_bounds bounds y = true <-> inside_box bounds y) /\
  (forall fuel N times positions,
     trace_particle field bounds atol fuel times_array pos_array = Some (N, times, positions) ->
     (1 <= N <= TRACING_BLOCK_SIZE)%nat /\
     (N = TRACING_BLOCK_SIZE \/ ~ inside_box bounds (sample positions (N - 1))) /\
     (forall i, (i + 1 < N)%nat -> inside_box bounds (sample positions i)) /\
     (forall i, (1 <= i < N)%nat ->
        accepted_step field atol (sample positions (i - 1)) (times (i - 1)%nat)
                      (sample positions i) (times i)) /\
     (forall j, (6 * N <= j)%nat -> positions j = pos_array j)) /\
  ((forall s,
      reaches field bounds atol (st_h (initial_state times_array pos_array))
              (initial_state times_array pos_array) s ->
      inside_box bounds (st_y s) ->
      (truncation_error (fst (stages field (st_y s) (st_h s))) <=? atol) = true) ->
   exists N times positions,
     trace_particle field bounds atol TRACING_BLOCK_SIZE times_array pos_array
     = Some (N, times, positions)) /\
  ((forall s,
      reaches field bounds atol (st_h (initial_state times_array pos_array))
              (initial_state times_array pos_array) s ->
      inside_box bounds (st_y s) ->
      exists s',
        reaches field bounds atol (st_h (initial_state times_array pos_array)) s s' /\
        (truncation_error (fst (stages field (st_y s') (st_h s'))) <=? atol) = true) ->
   exists fuel N times positions,
     trace_particle field bounds atol fuel times_array pos_array = Some (N, times, positions)) /\
  (inside_box bounds (sample pos_array 0) -> (0 <=? atol) = false ->
   forall fuel, trace_particle field bounds atol fuel times_array pos_array = None) /\
  (forall hmax s r,
     let k := fst (stages field (st_y s) (st_h s)) in
     iteration field bounds atol hmax s = Returned r <->
     (~ inside_box bounds (st_y s) /\ r = s) \/
     (inside_box bounds (st_y s) /\ (truncation_error k <=? atol) = true /\
      st_N (store_step s k) = TRACING_BLOCK_SIZE /\ r = store_step s k)).
Proof.
  split; [unfold TRACING_BLOCK_SIZE; lia|].
  split; [apply in_bounds_inside_box|].
  split; [|split; [|split; [|split]]].
  - intros fuel N times positions. unfold trace_particle.
    destruct (trace_loop _ _ _ _ fuel _) as [r|] eqn:E; [|discriminate].
    intros H. injection H as <- <- <-.
    destruct (trace_loop_returned field bounds atol times_array pos_array _ _ _ _
                (initial_invariant field bounds atol times_array pos_array) E)
      as (HN & Hexit & Hp & _ & Hbox & Hchain).
    split; [exact HN|].
    split; [destruct Hexit as [Hb|Hout]; [left; exact Hb | right; apply not_inside_box, Hout]|].
    split; [intros i Hi; apply in_bounds_inside_box, Hbox, Hi|]. split; [exact Hchain|].
    intros j Hj. apply Hp. right. exact Hj.
  - intros Hacc. unfold trace_particle.
    destruct (trace_loop_returns field bounds atol
                (st_h (initial_state times_array pos_array)) TRACING_BLOCK_SIZE
                (initial_state times_array pos_array)) as [r Hr].
    + intros s' Hreach Hin. apply Hacc; [exact Hreach | apply in_bounds_inside_box, Hin].
    + reflexivity.
    + pose proof block_size_bounds. cbn [initial_state st_N]. lia.
    + rewrite Hr. eauto.
  - intros Hev. unfold trace_particle.
    destruct (trace_loop_returns_eventually field bounds atol
                (st_h (initial_state times_array pos_array))
                (TRACING_BLOCK_SIZE - 1) (initial_state times_array pos_array))
      as (fuel & r & Hr).
    + cbn [initial_state st_N]. lia.
    + reflexivity.
    + pose proof block_size_bounds. cbn [initial_state st_N]. lia.
    + intros t Hreach Hin. apply Hev; [exact Hreach | apply in_bounds_inside_box, Hin].
    + exists fuel. rewrite Hr. eauto.
  - intros Hin Hneg fuel. unfold trace_particle.
    rewrite (trace_loop_runs_on field bounds atol); [reflexivity | |].
    + apply in_bounds_inside_box. exact Hin.
    + intros h. apply tolerance_below_zero_rejects. exact Hneg.
  - intros hmax s r k.
    rewrite (iteration_returns_iff field bounds atol hmax s r). fold k.
    rewrite not_inside_box, in_bounds_inside_box. reflexivity.
Qed.

Lemma trace_particle_termination_witness :
  exists N times positions,
    @trace_particle RefLibm.libm Sample.uniform_field Sample.box 1e-10
                    TRACING_BLOCK_SIZE Sample.clock Sample.start
    = Some (N, times, positions) /\
    (1 <= N <= TRACING_BLOCK_SIZE)%nat /\
    (N = TRACING_BLOCK_SIZE \/ ~ inside_box Sample.box (sample positions (N - 1))) /\
    (forall i, (i + 1 < N)%nat -> inside_box Sample.box (sample positions i)).
Proof.
  destruct (@trace_particle_termination RefLibm.libm Sample.uniform_field Sample.box
              1e-10 Sample.clock Sample.start) as (_ & _ & Hret & Hterm & _ & _).
  destruct Hterm as (N & times & positions & E).
  - intros s Hreach _.
    apply reaches_inv in Hreach. destruct Hreach as [->|(s1 & E1 & Hreach)];
      [vm_compute; reflexivity|].
    vm_compute in E1. injection E1 as <-.
    apply reaches_inv in Hreach. destruct Hreach as [->|(s2 & E2 & Hreach)];
      [vm_compute; reflexivity|].
    vm_compute in E2. injection E2 as <-.
    apply reaches_inv in Hreach. destruct Hreach as [->|(s3 & E3 & Hreach)];
      [vm_compute; reflexivity|].
    vm_compute in E3. injection E3 as <-.
    apply reaches_inv in Hreach. destruct Hreach as [->|(s4 & E4 & Hreach)];
      [vm_compute; reflexivity|].
    vm_compute in E4. discriminate E4.
  - exists N, times, positions. split; [exact E|].
    destruct (Hret _ _ _ _ E) as (HN & Hexit & Hbox & _).
    split; [exact HN|]. split; [exact Hexit | exact Hbox].
Defined.

(** No lower clamp: with a zero tolerance the first step is rejected and the
    next step size is 0. *)
Example step_size_reaches_zero :
  let s0 := initial_state Sample.clock Sample.start in
  exists s', @iteration RefLibm.libm Sample.uniform_field Sample.box 0 (st_h s0) s0 = Continue s' /\
             st_N s' = 1%nat /\ st_h s' = 0.
Proof. eexists. vm_compute. repeat split. Qed.

(** C10: a call that returns [N] has read the initial state from state 0 of
    the positions array and has written only states [1 .. N-1] of the
    positions array and entries [1 .. N-1] of the times array: state 0,
    [times[0]] and everything from index [N] on are as the caller left
    them. *)
Theorem trace_particle_frame {M : Libm} (field : field_fun) (bounds : buf) (atol : float)
    (fuel : nat) (times_array pos_array : buf) (N : nat) (times positions : buf) :
  trace_particle field bounds atol fuel times_array pos_array = Some (N, times, positions) ->
  st_y (initial_state times_array pos_array) = sample pos_array 0 /\
  (forall j, (j < 6 \/ 6 * N <= j)%nat -> positions j = pos_array j) /\
  (forall j, (j = 0 \/ N <= j)%nat -> times j = times_array j).
Proof.
  unfold trace_particle.
  destruct (trace_loop _ _ _ _ fuel _) as [r|] eqn:E; [|discriminate].
  intros H. injection H as <- <- <-.
  destruct (trace_loop_returned field bounds atol times_array pos_array _ _ _ _
              (initial_invariant field bounds atol times_array pos_array) E)
    as (_ & _ & Hp & Ht & _).
  split; [reflexivity|]. split; [exact Hp | exact Ht].
Qed.

Lemma trace_particle_frame_witness :
  exists N times positions,
    @trace_particle RefLibm.libm Sample.uniform_field Sample.box 1e-10 10
                    Sample.clock Sample.start
    = Some (N, times, positions) /\
    N = 4%nat /\
    sample positions 0 = [0; 0; 0; 0; 0; 1] /\
    (forall j, (j < 6 \/ 6 * N <= j)%nat -> positions j = Sample.start j) /\
    (forall j, (j = 0 \/ N <= j)%nat -> times j = Sample.clock j).
Proof.
  destruct (@trace_particle RefLibm.libm Sample.uniform_field Sample.box 1e-10 10
              Sample.clock Sample.start) as [[[N times] positions]|] eqn:E;
    [|vm_compute in E; discriminate E].
  exists N, times, positions. split; [reflexivity|].
  destruct (@trace_particle_frame RefLibm.libm _ _ _ _ _ _ _ _ _ E) as (_ & Hp & Ht).
  assert (HN : N = 4%nat) by (vm_compute in E; injection E as <- _ _; reflexivity).
  split; [exact HN|]. split; [|split; [exact Hp | exact Ht]].
  unfold sample. cbn [map seq]. rewrite !Hp by lia. reflexivity.
Defined.

(** * Axial derivatives of the radial ring potential *)

Section AxialDerivatives.
Context {M : Libm}.

(** The local array [D] holds the derivatives of the recurrence. *)
Lemma ring_D_get (z0 z R : float) (l : nat) :
  (l < 9)%nat -> get (ring_D z0 z R) l = ring_derivative z0 z R l.
Proof.
  intros Hl. unfold ring_D. cbn [fold_left seq].
  do 9 (destruct l as [|l];
        [cbn; rewrite ?FloatFacts.neg_one_div_mul, ?FloatFacts.opp_div_l; reflexivity |]).
  lia.
Qed.

Variables lines_p charges_p z : buf.

(** One sample adds its contribution to the nine cells of its target and
    touches nothing else. *)
Lemma axial_sample_inside (i j k l : nat) (derivs : buf) :
  (l < 9)%nat ->
  axial_sample lines_p charges_p z i j k derivs (9 * i + l)%nat
  = derivs (9 * i + l)%nat + contribution lines_p charges_p (z i) j k l.
Proof.
  intros Hl. unfold axial_sample, contribution, deriv_index. cbv zeta.
  fold (sample_r lines_p j k). fold (sample_z lines_p j k). fold (sample_weight lines_p j k).
  set (D := ring_D _ _ _).
  assert (HD : forall n, (n < 9)%nat -> get D n = ring_derivative (z i) (sample_z lines_p j k)
                 (norm_2d (z i - sample_z lines_p j k) (sample_r lines_p j k)) n)
    by (intros; apply ring_D_get; assumption).
  clearbody D. cbn [fold_left seq].
  do 9 (destruct l as [|l];
        [repeat first [rewrite upd_eq | rewrite upd_neq by lia];
         rewrite HD by lia; reflexivity |]).
  lia.
Qed.

Lemma axial_sample_outside (i j k idx : nat) (derivs : buf) :
  (idx < 9 * i \/ 9 * i + 9 <= idx)%nat ->
  axial_sample lines_p charges_p z i j k derivs idx = derivs idx.
Proof.
  intros H. unfold axial_sample, deriv_index. cbv zeta. cbn [fold_left seq].
  rewrite !upd_neq by lia. reflexivity.
Qed.

(** The loop over the samples of one segment. *)
Lemma samples_loop (i j l : nat) (ks : list nat) (derivs : buf) :
  (l < 9)%nat ->
  fold_left (fun d k => axial_sample lines_p charges_p z i j k d) ks derivs (9 * i + l)%nat
  = fold_left (fun acc k => acc + contribution lines_p charges_p (z i) j k l) ks
              (derivs (9 * i + l)%nat).
Proof.
  intros Hl. revert derivs. induction ks as [|k ks IH]; intros derivs; cbn [fold_left]; [reflexivity|].
  rewrite IH, axial_sample_inside by assumption. reflexivity.
Qed.

Lemma samples_loop_outside (i j idx : nat) (ks : list nat) (derivs : buf) :
  (idx < 9 * i \/ 9 * i + 9 <= idx)%nat ->
  fold_left (fun d k => axial_sample lines_p charges_p z i j k d) ks derivs idx = derivs idx.
Proof.
  intros H. revert derivs. induction ks as [|k ks IH]; intros derivs; cbn [fold_left]; [reflexivity|].
  rewrite IH, axial_sample_outside by assumption. reflexivity.
Qed.

Lemma target_loop_inside (i l : nat) (js : list nat) (derivs : buf) :
  (l < 9)%nat ->
  target_loop lines_p charges_p z i js derivs (9 * i + l)%nat
  = fold_left (fun acc j =>
                 fold_left (fun acc k => acc + contribution lines_p charges_p (z i) j k l)
                           (seq 0 N_QUAD_2D) acc) js (derivs (9 * i + l)%nat).
Proof.
  intros Hl. unfold target_loop. revert derivs.
  induction js as [|j js IH]; intros derivs; cbn [fold_left]; [reflexivity|].
  rewrite IH. f_equal. apply samples_loop. exact Hl.
Qed.

Lemma target_loop_outside (i idx : nat) (js : list nat) (derivs : buf) :
  (idx < 9 * i \/ 9 * i + 9 <= idx)%nat -> target_loop lines_p charges_p z i js derivs idx = derivs idx.
Proof.
  intros H. unfold target_loop. revert derivs.
  induction js as [|j js IH]; intros derivs; cbn [fold_left]; [reflexivity|].
  rewrite IH. apply samples_loop_outside. exact H.
Qed.

(** The loop over the targets [a, a+1, .., a+n-1]. *)
Lemma targets_loop (N_lines a n : nat) (derivs : buf) :
  let derivs' := fold_left (fun d i => target_loop lines_p charges_p z i (seq 0 N_lines) d) (seq a n) derivs in
  (forall i l, (a <= i < a + n)%nat -> (l < 9)%nat ->
     derivs' (9 * i + l)%nat
     = axial_sum lines_p charges_p N_lines (z i) l (derivs (9 * i + l)%nat)) /\
  (forall idx, (idx < 9 * a \/ 9 * (a + n) <= idx)%nat -> derivs' idx = derivs idx).
Proof.
  revert a derivs. induction n as [|n IH]; intros a derivs; cbn [seq fold_left].
  - split; [intros; lia | reflexivity].
  - destruct (IH (S a) (target_loop lines_p charges_p z a (seq 0 N_lines) derivs)) as [Hin Hout].
    cbv zeta in *. split.
    + intros i l Hi Hl. destruct (Nat.eq_dec i a) as [->|Hne].
      * rewrite Hout by lia. apply target_loop_inside. exact Hl.
      * rewrite Hin by lia. rewrite target_loop_outside by lia. reflexivity.
    + intros idx Hidx. rewrite Hout by lia. apply target_loop_outside. lia.
Qed.

End AxialDerivatives.

(** C7: for every target [z_k], [axial_derivatives_radial_ring] adds to
    [derivs[k][l]], for [l = 0 .. 8], the contribution of every quadrature
    sample of every segment: the derivative [D_l] of the three-term
    recurrence [D_{n+1} = -(1/R^2) ((2n+1) (z0-z) D_n + n^2 D_{n-1})] started
    from [D_0 = 1/R] and [D_1 = -(z0-z)/R^3], scaled by [pi r / 2], the
    quadrature weight and the nodal charge; the nine derivatives satisfy the
    recurrence, and nothing outside [derivs[0 .. N_z-1][0 .. 8]] is written. *)
Theorem axial_derivatives_radial_ring_correct {M : Libm}
    (derivs_p lines_p charges_p : buf) (N_lines : nat) (z : buf) (N_z : nat) :
  let derivs' := axial_derivatives_radial_ring derivs_p lines_p charges_p N_lines z N_z in
  (forall k l, (k < N_z)%nat -> (l < 9)%nat ->
     derivs' (9 * k + l)%nat
     = axial_sum lines_p charges_p N_lines (z k) l (derivs_p (9 * k + l)%nat)) /\
  (forall idx, (9 * N_z <= idx)%nat -> derivs' idx = derivs_p idx) /\
  (forall z0 zs R,
     ring_derivative z0 zs R 0 = 1 / R /\
     ring_derivative z0 zs R 1 = - ((z0 - zs) / pow R 3) /\
     forall n, (1 <= n)%nat ->
       ring_derivative z0 zs R (n + 1)
       = - (1 / pow R 2 * (Zn (2 * n + 1) * (z0 - zs) * ring_derivative z0 zs R n
                           + pow (Zn n) 2 * ring_derivative z0 zs R (n - 1)))).
Proof.
  intros derivs'.
  destruct (targets_loop lines_p charges_p z N_lines 0 N_z derivs_p) as [Hin Hout].
  cbv zeta in *. split; [|split].
  - intros k l Hk Hl. apply Hin; lia.
  - intros idx Hidx. apply Hout. lia.
  - intros z0 zs R. split; [reflexivity|]. split; [reflexivity|].
    intros n Hn. destruct n as [|n]; [lia|].
    replace (S n + 1)%nat with (S (S n)) by lia.
    replace (S n - 1)%nat with n by lia. reflexivity.
Qed.

(** * Matrix assembly *)

Lemma for_each_ok {S : Type} (l : list nat) (body : nat -> S -> result S) (s : S) :
  (forall i s, In i l -> exists s', body i s = Ok s') ->
  exists s', for_each l body s = Ok s'.
Proof.
  revert s. induction l as [|i l IH]; intros s H; cbn [for_each]; [eauto|].
  destruct (H i s (or_introl eq_refl)) as [s' ->]. cbn [bind].
  apply IH. intros j t Hj. apply H. right. exact Hj.
Qed.

(** A loop whose passes either return or end the process with status 1 ends
    the process when one of its passes always does. *)
Lemma for_each_exit {S : Type} (l : list nat) (body : nat -> S -> result S) (s : S) :
  (forall i s, In i l -> body i s = Exit 1 \/ exists s', body i s = Ok s') ->
  (exists i, In i l /\ forall s, body i s = Exit 1) ->
  for_each l body s = Exit 1.
Proof.
  revert s. induction l as [|i l IH]; intros s Hall (j & Hj & Hexit); [contradiction|].
  cbn [for_each]. destruct Hj as [->|Hj].
  - rewrite Hexit. reflexivity.
  - destruct (Hall i s (or_introl eq_refl)) as [->|[s' ->]]; [reflexivity|].
    cbn [bind]. apply IH; [|eauto].
    intros i' t Hi'. apply Hall. right. exact Hi'.
Qed.

Section SolverFacts.
Context {M : Libm}.

(** [legendre] is tabulated up to order 8 and ends the process above. *)
Lemma legendre_ok (N : nat) (x : float) :
  (N <= 8)%nat -> exists v, legendre N x = Ok v.
Proof.
  intros H. do 9 (destruct N as [|N]; [cbn; eauto|]). lia.
Qed.

Lemma legendre_above_8 (N : nat) (x : float) : (9 <= N)%nat -> legendre N x = Exit 1.
Proof.
  intros H. do 9 (destruct N as [|N]; [lia|]). reflexivity.
Qed.

Lemma legendre_coefficient_ok (i j : nat) :
  (i <= 8)%nat -> exists v, legendre_coefficient i j = Ok v.
Proof.
  intros H. unfold legendre_coefficient.
  destruct (legendre_ok i (get GAUSS_QUAD_POINTS j) H) as [p ->]. cbn [bind]. eauto.
Qed.

Lemma log_integral_ok (v1 v2 : buf) (l k : nat) :
  exists v, log_integral v1 v2 l k = Ok v.
Proof.
  unfold log_integral. cbv zeta.
  assert (Hside : forall w sl al s0, exists s',
            for_each (seq 0 N_QUAD_2D)
              (fun m integration_sum =>
                 c <- legendre_coefficient m k ;;
                 p <- legendre m (2 * al / length_2d v1 v2 - 1) ;;
                 Ok (integration_sum + w * sl * c * p
                     * potential_radial_ring
                         (v1 0%nat + (get GAUSS_QUAD_POINTS l / 2 + 1 / 2) * (v2 0%nat - v1 0%nat))
                         (v1 1%nat + (get GAUSS_QUAD_POINTS l / 2 + 1 / 2) * (v2 1%nat - v1 1%nat))
                         (v1 0%nat + al / length_2d v1 v2 * (v2 0%nat - v1 0%nat))
                         (v1 1%nat + al / length_2d v1 v2 * (v2 1%nat - v1 1%nat)))) s0
            = Ok s').
  { intros w sl al s0. apply for_each_ok. intros m s Hm.
    apply in_seq in Hm. unfold N_QUAD_2D in Hm.
    destruct (legendre_coefficient_ok m k) as [c ->]; [lia|].
    destruct (legendre_ok m (2 * al / length_2d v1 v2 - 1)) as [p ->]; [lia|].
    cbn [bind]. eauto. }
  apply for_each_ok. intros o s _.
  destruct (Hside (get GAUSS_LOG_QUAD_WEIGHTS o)
                  (length_2d v1 v2 * (get GAUSS_QUAD_POINTS l / 2 + 1 / 2))
                  (length_2d v1 v2 * (get GAUSS_QUAD_POINTS l / 2 + 1 / 2)
                   - length_2d v1 v2 * (get GAUSS_QUAD_POINTS l / 2 + 1 / 2)
                     * get GAUSS_LOG_QUAD_POINTS o) s) as [s1 ->].
  cbn [bind]. apply Hside.
Qed.

Lemma fill_self_voltages_ok (matrix line_points_p : buf) (N_lines N_matrix first last : nat) :
  exists matrix', fill_self_voltages matrix line_points_p N_lines N_matrix first last = Ok matrix'.
Proof.
  unfold fill_self_voltages.
  apply for_each_ok. intros i m _. apply for_each_ok. intros l m' _.
  apply for_each_ok. intros k m'' _.
  destruct (log_integral_ok (line_vertex line_points_p i 0) (line_vertex line_points_p i 1) l k)
    as [v ->].
  cbn [bind]. eauto.
Qed.

(** [fill_matrix_radial] never ends the process, whatever the tags. *)
Lemma fill_matrix_radial_returns (matrix line_points_p : buf) (excitation_types : nat -> nat)
    (excitation_values : buf) (N_lines N_matrix first last : nat) :
  fill_matrix_radial matrix line_points_p excitation_types excitation_values
                     N_lines N_matrix first last = AssertionFailed \/
  exists matrix',
    fill_matrix_radial matrix line_points_p excitation_types excitation_values
                       N_lines N_matrix first last = Ok matrix'.
Proof.
  unfold fill_matrix_radial.
  destruct (negb _); [left; reflexivity|].
  destruct (negb _); [left; reflexivity|].
  right. apply fill_self_voltages_ok.
Qed.

(** [fill_matrix_3d] ends the process when a row of the range has an unknown
    tag. *)
Lemma fill_matrix_3d_unknown_tag (matrix triangle_points_p : buf)
    (excitation_types : nat -> nat) (excitation_values : buf)
    (N_lines N_matrix first last i : nat) :
  (first <= i <= last)%nat -> (last < N_lines)%nat ->
  excitation_of_tag (excitation_types i) = None ->
  fill_matrix_3d matrix triangle_points_p excitation_types excitation_values
                 N_lines N_matrix first last = Exit 1.
Proof.
  intros Hi Hlast Htag. unfold fill_matrix_3d.
  replace ((first <? N_lines)%nat && (last <? N_lines)%nat) with true
    by (symmetry; apply andb_true_iff; split; apply Nat.ltb_lt; lia).
  cbn [negb]. apply for_each_exit.
  - intros j m _. cbv zeta.
    destruct (excitation_of_tag (excitation_types j)) as [[]|]; eauto.
  - exists i. split; [apply in_seq; lia|]. intros m. cbv zeta. rewrite Htag. reflexivity.
Qed.

(** A cell of a row-major matrix determines its row and its column. *)
Lemma cell_inj (n a b c d : nat) :
  (b < n)%nat -> (d < n)%nat -> (a * n + b = c * n + d)%nat -> a = c /\ b = d.
Proof.
  intros Hb Hd H.
  assert (a = c).
  { destruct (Nat.lt_trichotomy a c) as [L|[E|L]]; [exfalso|exact E|exfalso]; nia. }
  subst. split; [reflexivity | lia].
Qed.

Lemma fold_left_frame {T : Type} (l : list T) (step : buf -> T -> buf) (m : buf) (idx : nat) :
  (forall x m, In x l -> step m x idx = m idx) -> fold_left step l m idx = m idx.
Proof.
  revert m. induction l as [|x l IH]; intros m H; cbn [fold_left]; [reflexivity|].
  rewrite IH by (intros; apply H; right; assumption).
  apply H. left. reflexivity.
Qed.

Lemma for_each_frame (l : list nat) (body : nat -> buf -> result buf) (m m' : buf) (idx : nat) :
  (forall i m m', In i l -> body i m = Ok m' -> m' idx = m idx) ->
  for_each l body m = Ok m' -> m' idx = m idx.
Proof.
  revert m. induction l as [|i l IH]; intros m H; cbn [for_each].
  - intros E. injection E as <-. reflexivity.
  - destruct (body i m) as [m1| |] eqn:E1; cbn [bind]; try discriminate.
    intros E. transitivity (m1 idx).
    + apply (IH m1); [|exact E]. intros j a b Hj. apply H. right. exact Hj.
    + eapply H; [left; reflexivity | exact E1].
Qed.

(** The block of row block [i'] against segment [j'] writes cells of rows
    [8 i' .. 8 i' + 7] and columns [8 j' .. 8 j' + 7] only. *)
Lemma fill_voltage_block_frame (line_points_p : buf) (N_lines i' j' : nat) (matrix : buf)
    (row col : nat) :
  (j' < N_lines)%nat -> (col < N_QUAD_2D * N_lines)%nat ->
  ~ ((8 * i' <= row < 8 * i' + 8)%nat /\ (8 * j' <= col < 8 * j' + 8)%nat) ->
  fill_voltage_block line_points_p (N_QUAD_2D * N_lines) i' j' matrix
                     (row * (N_QUAD_2D * N_lines) + col)%nat
  = matrix (row * (N_QUAD_2D * N_lines) + col)%nat.
Proof.
  intros Hj Hcol Hout. unfold fill_voltage_block. cbv zeta.
  apply fold_left_frame. intros l m Hl. apply fold_left_frame. intros k m0 Hk.
  apply in_seq in Hl. apply in_seq in Hk. unfold N_QUAD_2D in *.
  apply upd_neq. intros E.
  destruct (cell_inj (8 * N_lines) row col (8 * i' + l) (8 * j' + k)); lia.
Qed.

(** The self blocks are on the block diagonal. *)
Lemma fill_self_voltages_frame (matrix matrix' line_points_p : buf)
    (N_lines first last row col : nat) :
  (last < N_lines)%nat -> (col < N_QUAD_2D * N_lines)%nat ->
  (forall i', ~ ((8 * i' <= row < 8 * i' + 8)%nat /\ (8 * i' <= col < 8 * i' + 8)%nat)) ->
  fill_self_voltages matrix line_points_p N_lines (N_QUAD_2D * N_lines) first last = Ok matrix' ->
  matrix' (row * (N_QUAD_2D * N_lines) + col)%nat = matrix (row * (N_QUAD_2D * N_lines) + col)%nat.
Proof.
  intros Hlast Hcol Hout. unfold fill_self_voltages.
  apply for_each_frame. intros i m m1 Hi.
  apply for_each_frame. intros l m2 m3 Hl.
  apply for_each_frame. intros k m4 m5 Hk.
  apply in_seq in Hi. apply in_seq in Hl. apply in_seq in Hk. unfold N_QUAD_2D in *.
  destruct (log_integral _ _ l k) as [v| |]; cbn [bind]; try discriminate.
  intros E. injection E as <-. apply upd_neq. intros E.
  destruct (cell_inj (8 * N_lines) row col (8 * i + l) (8 * i + k)); try lia.
  apply (Hout i). lia.
Qed.

(** A row whose tag is not one of the three voltage tags gets its self block
    and nothing else: [fill_matrix_radial] returns with every other cell of
    the row as the caller passed it. *)
Lemma fill_matrix_radial_skips_row (matrix matrix' line_points_p : buf)
    (excitation_types : nat -> nat) (excitation_values : buf)
    (N_lines N_matrix first last i j l k : nat) :
  fill_matrix_radial matrix line_points_p excitation_types excitation_values
                     N_lines N_matrix first last = Ok matrix' ->
  match excitation_of_tag (excitation_types i) with
  | Some VOLTAGE_FIXED | Some VOLTAGE_FUN | Some FLOATING_CONDUCTOR => False
  | _ => True
  end ->
  (j < N_lines)%nat -> j <> i -> (l < 8)%nat -> (k < 8)%nat ->
  matrix' ((N_QUAD_2D * i + l) * N_matrix + N_QUAD_2D * j + k)%nat
  = matrix ((N_QUAD_2D * i + l) * N_matrix + N_QUAD_2D * j + k)%nat.
Proof.
  unfold fill_matrix_radial.
  destruct ((first <? N_lines)%nat && (last <? N_lines)%nat) eqn:Hrange;
    cbn [negb]; [|discriminate].
  destruct (Nat.eqb_spec N_matrix (N_QUAD_2D * N_lines)) as [->|]; cbn [negb]; [|discriminate].
  apply andb_true_iff in Hrange. destruct Hrange as [_ Hlast]. apply Nat.ltb_lt in Hlast.
  intros E Htag Hj Hne Hl Hk.
  assert (Hcell : ((N_QUAD_2D * i + l) * (N_QUAD_2D * N_lines) + N_QUAD_2D * j + k
                   = (8 * i + l) * (N_QUAD_2D * N_lines) + (8 * j + k))%nat)
    by (unfold N_QUAD_2D; lia).
  rewrite Hcell.
  assert (Hcol : (8 * j + k < N_QUAD_2D * N_lines)%nat) by (unfold N_QUAD_2D; lia).
  rewrite (fill_self_voltages_frame _ _ _ _ _ _ _ _ Hlast Hcol) with (2 := E)
    by (intros i' H; lia).
  apply fold_left_frame. intros i' m Hi'.
  destruct (excitation_of_tag (excitation_types i')) as [[]|] eqn:Ht; try reflexivity;
    (apply fold_left_frame; intros j' m0 Hj'; apply in_seq in Hj';
     destruct (Nat.eqb_spec i' j'); [reflexivity|];
     apply fill_voltage_block_frame; [lia | exact Hcol |];
     intros [Hr _]; assert (i' = i) by lia; subst i'; rewrite Ht in Htag; exact Htag).
Qed.
End SolverFacts.

(** C1 holds for [fill_matrix_3d] and fails for [fill_matrix_radial]: the 3D
    assembly ends the process with status 1 when a row of the range has a tag
    outside 1..4; the radial assembly never ends the process, whatever the
    tags, and when it returns, the blocks of a row with an unknown tag
    against the other segments are as the caller passed them.  At two
    segments tagged 7 and 1 it returns, cell 8 (row 0 against segment 1) is
    untouched and cell 128 (row 8, of segment 1) is filled. *)
Theorem fill_matrix_unknown_tag :
  (forall (M : Libm) matrix triangle_points_p excitation_types excitation_values
          N_lines N_matrix first last i,
     (first <= i <= last)%nat -> (last < N_lines)%nat ->
     excitation_of_tag (excitation_types i) = None ->
     fill_matrix_3d matrix triangle_points_p excitation_types excitation_values
                    N_lines N_matrix first last = Exit 1) /\
  (forall (M : Libm) matrix line_points_p excitation_types excitation_values
          N_lines N_matrix first last status,
     fill_matrix_radial matrix line_points_p excitation_types excitation_values
                        N_lines N_matrix first last <> Exit status) /\
  (forall (M : Libm) matrix matrix' line_points_p excitation_types excitation_values
          N_lines N_matrix first last i j l k,
     fill_matrix_radial matrix line_points_p excitation_types excitation_values
                        N_lines N_matrix first last = Ok matrix' ->
     excitation_of_tag (excitation_types i) = None ->
     (j < N_lines)%nat -> j <> i -> (l < 8)%nat -> (k < 8)%nat ->
     matrix' ((N_QUAD_2D * i + l) * N_matrix + N_QUAD_2D * j + k)%nat
     = matrix ((N_QUAD_2D * i + l) * N_matrix + N_QUAD_2D * j + k)%nat) /\
  excitation_of_tag (Sample.tags_7_1 0) = None /\
  match @fill_matrix_radial RefLibm.libm Sample.blank_matrix Sample.segments Sample.tags_7_1
                            Sample.no_values 2 16 0 1 with
  | Ok matrix' =>
      matrix' 8%nat = Sample.untouched /\ (matrix' 128%nat =? Sample.untouched) = false
  | _ => False
  end.
Proof.
  split; [|split; [|split; [|split]]].
  - intros. eapply fill_matrix_3d_unknown_tag; eassumption.
  - intros M matrix line_points_p excitation_types excitation_values
           N_lines N_matrix first last status E.
    destruct (fill_matrix_radial_returns matrix line_points_p excitation_types
                excitation_values N_lines N_matrix first last) as [H|[m' H]];
      rewrite H in E; discriminate.
  - intros M matrix matrix' line_points_p excitation_types excitation_values
           N_lines N_matrix first last i j l k E Htag.
    eapply fill_matrix_radial_skips_row; [exact E|]. rewrite Htag. exact I.
  - reflexivity.
  - vm_compute. split; reflexivity.
Qed.

(** * Scenarios of the specification, evaluated *)

(** S2: [ellipk 0.5] and [ellipe 0.5]. *)
Example elliptic_sanity :
  (abs (@ellipk RefLibm.libm 0.5 - 1.8540746773) <? 1e-10) = true /\
  (abs (@ellipe RefLibm.libm 0.5 - 1.3506438810) <? 1e-10) = true.
Proof. split; vm_compute; reflexivity. Qed.

(** The axial identity on two segments with unit charges: the derivative
    [D0] that [axial_derivatives_radial_ring] tabulates at [z = 2] is the
    potential [potential_radial] finds at [(0, 2)], and [-D1] is the axial
    field of [field_radial] there. *)
Example axial_identity :
  let derivs := @axial_derivatives_radial_ring RefLibm.libm Sample.no_derivs Sample.segments
                  Sample.unit_charges 2 Sample.targets 2 in
  derivs 0%nat = @potential_radial RefLibm.libm Sample.axis_point Sample.segments
                   Sample.unit_charges 2 /\
  (abs (- derivs 1%nat
        - get (@field_radial RefLibm.libm Sample.axis_point Sample.segments
                 Sample.unit_charges 2) 1) <? 1e-15) = true.
Proof. split; vm_compute; reflexivity. Qed.

(** Inside the grid and off the axis the expansion field has both
    components. *)
Example field_radial_derivs_inside :
  @field_radial_derivs RefLibm.libm Sample.point_inside Sample.z_grid Sample.coeff 3
  = Some [17.214721580812085; -124.82629870871703; 0].
Proof. vm_compute. reflexivity. Qed.

(** [fill_matrix_3d] on two triangles: an unknown tag ends the process, two
    voltage rows give a symmetric matrix. *)
Example fill_matrix_3d_on_two_triangles :
  @fill_matrix_3d RefLibm.libm Sample.blank_matrix Sample.triangles Sample.tags_7_1
                  Sample.no_values 2 2 0 1 = Exit 1 /\
  match @fill_matrix_3d RefLibm.libm Sample.blank_matrix Sample.triangles (fun _ => 1%nat)
                        Sample.no_values 2 2 0 1 with
  | Ok matrix' => matrix' 1%nat = matrix' 2%nat /\ matrix' 0%nat = matrix' 3%nat
  | _ => False
  end.
Proof. split; vm_compute; [reflexivity | split; reflexivity]. Qed.

(** * Further facts about binary64 arithmetic *)

Module FloatArith.

Lemma is_nan_eq (x : float) : is_nan x = true -> x = nan.
Proof.
  intros H. apply Prim2SF_inj. rewrite (proj1 (FloatFacts.is_nan_spec x) H). reflexivity.
Qed.

(** A NaN operand makes the result a NaN. *)
Lemma add_nan_l (x : float) : nan + x = nan.
Proof. apply Prim2SF_inj. rewrite FloatAxioms.add_spec. reflexivity. Qed.

Lemma add_nan_r (x : float) : x + nan = nan.
Proof.
  apply Prim2SF_inj. rewrite FloatAxioms.add_spec. change (Prim2SF nan) with S754_nan.
  unfold SF64add, SFadd. destruct (Prim2SF x) as [[]|[]| |[] m e]; reflexivity.
Qed.

Lemma mul_nan_l (x : float) : nan * x = nan.
Proof. apply Prim2SF_inj. rewrite FloatAxioms.mul_spec. reflexivity. Qed.

Lemma mul_nan_r (x : float) : x * nan = nan.
Proof.
  apply Prim2SF_inj. rewrite FloatAxioms.mul_spec. change (Prim2SF nan) with S754_nan.
  unfold SF64mul, SFmul. destruct (Prim2SF x) as [[]|[]| |[] m e]; reflexivity.
Qed.

(** An infinity times a zero is a NaN. *)
Lemma infinity_mul_zero (z : float) : fzero z -> infinity * z = nan.
Proof.
  rewrite FloatFacts.fzero_spec. intros H. apply Prim2SF_inj.
  rewrite FloatAxioms.mul_spec. change (Prim2SF infinity) with (S754_infinity false).
  destruct (Prim2SF z) as [[]|[]| |[] m e]; simpl in *; tauto.
Qed.

(** Multiplication commutes, bit for bit. *)
Lemma mul_comm (x y : float) : x * y = y * x.
Proof.
  apply Prim2SF_inj. rewrite !FloatAxioms.mul_spec. unfold SF64mul, SFmul.
  destruct (Prim2SF x) as [[]|[]| |[] mx ex], (Prim2SF y) as [[]|[]| |[] my ey];
    try reflexivity; rewrite (Pos.mul_comm mx my), (Z.add_comm ex ey); reflexivity.
Qed.

(** A finite double minus itself is [+0]. *)
Lemma sub_diag (x : float) : ffinite x -> x - x = 0.
Proof.
  rewrite FloatFacts.ffinite_spec. intros H. apply Prim2SF_inj.
  rewrite FloatAxioms.sub_spec. unfold SF64sub, SFsub.
  destruct (Prim2SF x) as [[]|[]| |[] m e]; simpl in H; try tauto; try reflexivity;
    rewrite Z.sub_diag; reflexivity.
Qed.

Lemma fzero_mul_finite_r (x z : float) : ffinite x -> fzero z -> fzero (x * z).
Proof. intros Hx Hz. rewrite mul_comm. apply FloatFacts.fzero_mul_finite; assumption. Qed.

Lemma fzero_sub (a z : float) : fzero a -> fzero z -> fzero (a - z).
Proof.
  rewrite !FloatFacts.fzero_spec, FloatAxioms.sub_spec. unfold SF64sub, SFsub.
  destruct (Prim2SF a) as [[]|[]| |[] ma ea], (Prim2SF z) as [[]|[]| |[] mz ez];
    simpl; tauto.
Qed.

Lemma fzero_add (a z : float) : fzero a -> fzero z -> fzero (a + z).
Proof.
  rewrite !FloatFacts.fzero_spec, FloatAxioms.add_spec. unfold SF64add, SFadd.
  destruct (Prim2SF a) as [[]|[]| |[] ma ea], (Prim2SF z) as [[]|[]| |[] mz ez];
    simpl; tauto.
Qed.

(** The square of a zero is [+0]. *)
Lemma fzero_square (z : float) : fzero z -> z * z = 0.
Proof.
  rewrite FloatFacts.fzero_spec. intros H. apply Prim2SF_inj.
  rewrite FloatAxioms.mul_spec. unfold SF64mul, SFmul.
  destruct (Prim2SF z) as [[]|[]| |[] m e]; simpl in *; try tauto; reflexivity.
Qed.

(** A zero divided by a zero is a NaN. *)
Lemma fzero_div_zero (a z : float) : fzero a -> fzero z -> a / z = nan.
Proof.
  rewrite !FloatFacts.fzero_spec. intros Ha Hz. apply Prim2SF_inj.
  rewrite FloatAxioms.div_spec. unfold SF64div, SFdiv.
  destruct (Prim2SF a) as [[]|[]| |[] ma ea], (Prim2SF z) as [[]|[]| |[] mz ez];
    simpl in *; try tauto; reflexivity.
Qed.

Lemma fzero_zero : fzero 0.
Proof. reflexivity. Qed.

(** [fmin x y] is a number not above [y] when [y] is a number. *)
Lemma fmin_le_r (x y : float) : is_nan y = false -> (C.fmin x y <=? y) = true.
Proof.
  intros Hy. unfold C.fmin. destruct (is_nan x); [apply FloatFacts.leb_refl, Hy|].
  rewrite Hy. destruct (x <? y) eqn:E; auto with floats.
Qed.

End FloatArith.

(** * Elliptic integrals at the singular point *)

Section EllipticAtOne.
Context {M : Libm}.

(** Once a term of a running sum is a NaN, the sum is a NaN. *)
Lemma fold_add_nan (term : nat -> float) (l : list nat) (init : float) :
  (exists i, In i l /\ term i = nan) ->
  fold_left (fun s i => s + term i) l init = nan.
Proof.
  revert init. induction l as [|a l IH]; intros init [i [Hin Hi]]; [destruct Hin|].
  cbn [fold_left]. destruct Hin as [->|Hin].
  - rewrite Hi, FloatArith.add_nan_r. clear. induction l as [|b l IH]; [reflexivity|].
    cbn [fold_left]. rewrite FloatArith.add_nan_l. exact IH.
  - apply IH. exists i. split; assumption.
Qed.

Lemma accumulate_nan (n : nat) (term : nat -> float) (init : float) (i : nat) :
  (i < n)%nat -> term i = nan -> accumulate n term init = nan.
Proof.
  intros Hi Ht. unfold accumulate. apply fold_add_nan. exists i. split; [|exact Ht].
  apply in_seq. lia.
Qed.

(** X1: at [m = 1], where K diverges and E is 1, both [ellipk] and [ellipe]
    return a NaN: [1 - m] is [+0], the logarithm [log (1 / +0)] is
    [+infinity], and the sum multiplies it by a zero ([pow(+0, 1)] in
    [ellipk], the tabulated coefficient [0] in [ellipe]). *)
Theorem elliptic_integrals_at_one :
  log infinity = infinity -> fzero (pow 0 1) ->
  ellipk 1 = nan /\ ellipe 1 = nan.
Proof.
  intros Hlog Hpow. split.
  - unfold ellipk. change (-1 <? 1) with true. cbv iota. unfold ellipk_singularity.
    change (1 - 1) with 0%float. change (1 / 0) with infinity. rewrite Hlog.
    apply accumulate_nan with (i := 1%nat); [lia|].
    change (Zn 1) with 1%float.
    change (get ellipk_A 1 + infinity * get ellipk_B 1) with infinity.
    apply FloatArith.infinity_mul_zero, Hpow.
  - unfold ellipe. change ((0 <=? 1) && (1 <=? 1)) with true. cbv iota. unfold ellipe_01.
    change (1 - 1) with 0%float. change (1 / 0) with infinity. rewrite Hlog.
    apply accumulate_nan with (i := 0%nat); [lia|].
    change (get ellipe_A 0 + infinity * get ellipe_B 0) with nan.
    apply FloatArith.mul_nan_l.
Qed.

End EllipticAtOne.

Lemma elliptic_integrals_at_one_witness :
  @ellipk RefLibm.libm 1 = nan /\ @ellipe RefLibm.libm 1 = nan.
Proof.
  apply (@elliptic_integrals_at_one RefLibm.libm); vm_compute; reflexivity.
Defined.

(** * Normals of degenerate elements *)

Section DegenerateNormals.

Lemma sqrt_zero_sum3 (a b c : float) :
  fzero a -> fzero b -> fzero c -> norm_3d a b c = 0.
Proof.
  intros Ha Hb Hc. unfold norm_3d.
  rewrite (FloatArith.fzero_square a Ha), (FloatArith.fzero_square b Hb),
          (FloatArith.fzero_square c Hc).
  reflexivity.
Qed.

Lemma cross_term_zero (a b c d : float) :
  fzero a -> fzero d -> ffinite b -> ffinite c -> fzero (a * b - c * d).
Proof.
  intros Ha Hd Hb Hc. apply FloatArith.fzero_sub.
  - apply FloatFacts.fzero_mul_finite; assumption.
  - apply FloatArith.fzero_mul_finite_r; assumption.
Qed.

(** X2: a segment of length zero and a triangle with two coinciding vertices
    have no normal: when the two end points of a segment are equal (finite
    coordinates), [normal_2d] writes two NaNs; when the first two vertices of
    a triangle are equal (finite coordinates, the third at a finite offset),
    [normal_3d] writes three NaNs.  Neither reports the degeneracy. *)
Theorem normals_of_degenerate_elements (p1 p2 p3 : buf) :
  (forall c, (c < 3)%nat -> ffinite (p1 c) /\ p2 c = p1 c /\ ffinite (p3 c - p1 c)) ->
  normal_2d p1 p2 = [nan; nan] /\ normal_3d p1 p2 p3 = [nan; nan; nan].
Proof.
  intros H.
  destruct (H 0%nat ltac:(lia)) as [F0 [E0 D0]].
  destruct (H 1%nat ltac:(lia)) as [F1 [E1 D1]].
  destruct (H 2%nat ltac:(lia)) as [F2 [E2 D2]].
  split.
  - unfold normal_2d. rewrite E0, E1, !FloatArith.sub_diag by assumption. reflexivity.
  - unfold normal_3d. rewrite E0, E1, E2, !FloatArith.sub_diag by assumption.
    assert (Hx : fzero (0 * (p3 2%nat - p1 2%nat) - (p3 1%nat - p1 1%nat) * 0))
      by (apply cross_term_zero; auto using FloatArith.fzero_zero).
    assert (Hy : fzero ((p3 0%nat - p1 0%nat) * 0 - 0 * (p3 2%nat - p1 2%nat))).
    { apply FloatArith.fzero_sub.
      - apply FloatArith.fzero_mul_finite_r; auto using FloatArith.fzero_zero.
      - apply FloatFacts.fzero_mul_finite; auto using FloatArith.fzero_zero. }
    assert (Hz : fzero (0 * (p3 1%nat - p1 1%nat) - (p3 0%nat - p1 0%nat) * 0))
      by (apply cross_term_zero; auto using FloatArith.fzero_zero).
    rewrite (sqrt_zero_sum3 _ _ _ Hx Hy Hz).
    rewrite !FloatArith.fzero_div_zero by auto using FloatArith.fzero_zero.
    reflexivity.
Qed.

End DegenerateNormals.

Lemma normals_of_degenerate_elements_witness :
  normal_2d Sample2.corner Sample2.corner = [nan; nan] /\
  normal_3d Sample2.corner Sample2.corner Sample2.far_corner = [nan; nan; nan].
Proof.
  apply (normals_of_degenerate_elements Sample2.corner Sample2.corner Sample2.far_corner).
  intros [|[|[|c]]] Hc; try lia; repeat split; vm_compute; reflexivity.
Defined.

(** * The radial field on the axis *)

Section FieldOnAxis.
Context {M : Libm}.
Variables point vertices_p charges_p : buf.

Lemma field_radial_unfold (N_vertices : nat) :
  field_radial point vertices_p charges_p N_vertices
  = let E := fold_left (fun E i => fold_left (field_radial_step point vertices_p charges_p i) (seq 0 N_QUAD_2D) E)
                       (seq 0 N_vertices) (0, 0) in
    [fst E; snd E; 0].
Proof.
  unfold field_radial.
  change (fold_left _ (seq 0 N_vertices) (0, 0))
    with (fold_left (fun E i => fold_left (field_radial_step point vertices_p charges_p i) (seq 0 N_QUAD_2D) E)
                    (seq 0 N_vertices) (0, 0)).
  cbv zeta.
  destruct (fold_left (fun E i => fold_left (field_radial_step point vertices_p charges_p i) (seq 0 N_QUAD_2D) E)
                      (seq 0 N_vertices) (0, 0)) as [Ex Ey].
  reflexivity.
Qed.

Hypothesis on_axis : (C.fabs (point 0%nat) <? MIN_DISTANCE_AXIS) = true.

Lemma field_radial_step_on_axis (i k : nat) (E : float * float) :
  ffinite (sample_weight vertices_p i k * charge charges_p i k) ->
  fzero (fst E) -> fzero (fst (field_radial_step point vertices_p charges_p i E k)).
Proof.
  intros Hf Hz. destruct E as [Ex Ey]. cbn [field_radial_step fst] in *.
  unfold dr1_potential_radial_ring. rewrite on_axis.
  apply FloatArith.fzero_sub; [exact Hz|].
  apply FloatArith.fzero_mul_finite_r; [exact Hf | reflexivity].
Qed.

Lemma samples_on_axis (i : nat) (ks : list nat) (E : float * float) :
  (forall k, In k ks -> ffinite (sample_weight vertices_p i k * charge charges_p i k)) ->
  fzero (fst E) -> fzero (fst (fold_left (field_radial_step point vertices_p charges_p i) ks E)).
Proof.
  revert E. induction ks as [|k ks IH]; intros E Hf Hz; [exact Hz|].
  cbn [fold_left]. apply IH.
  - intros k' Hk'. apply Hf. right. exact Hk'.
  - apply field_radial_step_on_axis; [apply Hf; left; reflexivity | exact Hz].
Qed.

Lemma segments_on_axis (is_ : list nat) (E : float * float) :
  (forall i k, In i is_ -> (k < N_QUAD_2D)%nat ->
               ffinite (sample_weight vertices_p i k * charge charges_p i k)) ->
  fzero (fst E) ->
  fzero (fst (fold_left (fun E i => fold_left (field_radial_step point vertices_p charges_p i) (seq 0 N_QUAD_2D) E) is_ E)).
Proof.
  revert E. induction is_ as [|i is_ IH]; intros E Hf Hz; [exact Hz|].
  cbn [fold_left]. apply IH.
  - intros i' k Hi'. apply Hf. right. exact Hi'.
  - apply samples_on_axis; [|exact Hz].
    intros k Hk. apply Hf; [left; reflexivity | apply in_seq in Hk; lia].
Qed.

(** X3: at a point within [MIN_DISTANCE_AXIS = 1e-10] of the axis,
    [field_radial] writes a zero as the radial component and [0] as the third
    component, whatever the geometry, as long as every product of a
    quadrature weight and its nodal charge is finite (a product that is an
    infinity or a NaN times the zero derivative would give a NaN). *)
Theorem field_radial_on_axis (N_vertices : nat) :
  (forall i k, (i < N_vertices)%nat -> (k < N_QUAD_2D)%nat ->
               ffinite (sample_weight vertices_p i k * charge charges_p i k)) ->
  fzero (get (field_radial point vertices_p charges_p N_vertices) 0) /\
  get (field_radial point vertices_p charges_p N_vertices) 2 = 0.
Proof.
  intros Hf. rewrite field_radial_unfold. cbv zeta. cbn [get nth]. split; [|reflexivity].
  apply segments_on_axis; [|reflexivity].
  intros i k Hi Hk. apply Hf; [apply in_seq in Hi; lia | exact Hk].
Qed.

End FieldOnAxis.

Lemma field_radial_on_axis_witness :
  fzero (get (@field_radial RefLibm.libm Sample.axis_point Sample.segments
                Sample.unit_charges 2) 0) /\
  get (@field_radial RefLibm.libm Sample.axis_point Sample.segments
         Sample.unit_charges 2) 2 = 0.
Proof.
  apply (@field_radial_on_axis RefLibm.libm Sample.axis_point Sample.segments
           Sample.unit_charges); [vm_compute; reflexivity|].
  intros [|[|i]] k Hi Hk; try lia;
    do 8 (destruct k as [|k]; [vm_compute; reflexivity|]); unfold N_QUAD_2D in Hk; lia.
Defined.

(** * The tracer: step sizes, and a field that is not a number *)

Section TracerSteps.
Context {M : Libm}.
Variable field : field_fun.
Variable bounds : buf.
Variable atol : float.

Lemma iteration_continue_h (hmax : float) (s s' : tracer_state) :
  iteration field bounds atol hmax s = Continue s' ->
  st_h s' = C.fmin (0.9 * st_h s * pow (atol / truncation_error (fst (stages field (st_y s) (st_h s)))) 0.2)
                   hmax.
Proof.
  unfold iteration, next_h.
  generalize (fst (stages field (st_y s) (st_h s))). intros k.
  generalize (truncation_error k) (store_step s k). intros TE stored.
  destruct (in_bounds bounds (st_y s)); [|discriminate].
  destruct (TE <=? atol).
  - destruct (Nat.eqb _ _); [discriminate|]. intros E. injection E as <-. reflexivity.
  - intros E. injection E as <-. reflexivity.
Qed.

(** X4: the step size of the tracer never exceeds [hmax]: when [hmax] is a
    number and the loop of [trace_particle] is entered with a step size of at
    most [hmax] (the call enters it with [hmax] itself), the step size at
    every later test of the loop is at most [hmax], whatever the field and
    the error estimates are. *)
Theorem step_size_never_exceeds_hmax (hmax : float) (s s' : tracer_state) :
  is_nan hmax = false -> (st_h s <=? hmax) = true ->
  reaches field bounds atol hmax s s' -> (st_h s' <=? hmax) = true.
Proof.
  intros Hnan Hs Hr. induction Hr as [s|s s' s'' Hstep Hr IH]; [exact Hs|].
  apply IH. rewrite (iteration_continue_h _ _ _ Hstep).
  apply FloatArith.fmin_le_r, Hnan.
Qed.

End TracerSteps.

Lemma step_size_never_exceeds_hmax_witness :
  let s0 := initial_state Sample.clock Sample.start in
  exists s',
    @iteration RefLibm.libm Sample.uniform_field Sample.box 1e-10 (st_h s0) s0 = Continue s' /\
    (st_h s' <=? st_h s0) = true.
Proof.
  intros s0.
  destruct (@iteration RefLibm.libm Sample.uniform_field Sample.box 1e-10 (st_h s0) s0)
    as [r|s'] eqn:E; [vm_compute in E; discriminate E|].
  exists s'. split; [reflexivity|].
  apply (@step_size_never_exceeds_hmax RefLibm.libm Sample.uniform_field Sample.box 1e-10
           (st_h s0) s0 s'); [reflexivity | reflexivity |].
  apply (reaches_pass _ _ _ _ s0 s' s' E). apply reaches_here.
Defined.

Section NanField.
Context {M : Libm}.
Variable field : field_fun.
Variable bounds : buf.
Variable atol : float.

Hypothesis field_nan : forall p c, (c < 3)%nat -> is_nan (get (field p) c) = true.

Lemma field_component_nan (p : vec) (c : nat) : (c < 3)%nat -> get (field p) c = nan.
Proof. intros Hc. apply FloatArith.is_nan_eq, field_nan, Hc. Qed.

(** Every entry of the second stage is a NaN: the velocities of its state
    carry the field of the first stage. *)
Lemma second_stage_nan (y : vec) (h : float) (i : nat) :
  (i < 6)%nat -> get (row (fst (stages field y h)) 1) i = nan.
Proof.
  intros Hi.
  do 6 (destruct i as [|i];
        [cbn [stages fold_left seq produce_new_k produce_new_y set_at row nth fst snd get map
              zeros66 zeros6 coefficients B2];
         rewrite ?field_component_nan by lia;
         rewrite ?FloatArith.mul_nan_r, ?FloatArith.add_nan_r, ?FloatArith.mul_nan_r;
         reflexivity|]).
  lia.
Qed.

Lemma component_error_nan (y : vec) (h : float) (i : nat) :
  (i < 6)%nat -> component_error (fst (stages field y h)) i = nan.
Proof.
  intros Hi. unfold component_error.
  rewrite (accumulate_nan 6 _ 0 1); [reflexivity | lia |].
  rewrite second_stage_nan by exact Hi. apply FloatArith.mul_nan_r.
Qed.

Lemma truncation_error_nan_field (y : vec) (h : float) :
  truncation_error (fst (stages field y h)) = 0.
Proof.
  rewrite truncation_error_running_max. cbn [map seq].
  rewrite !component_error_nan by lia. reflexivity.
Qed.

Lemma advance_nan_field (y : vec) (h : float) :
  advance y (fst (stages field y h)) = [nan; nan; nan; nan; nan; nan].
Proof.
  unfold advance. cbn [map seq]. rewrite !second_stage_nan by lia.
  rewrite !FloatArith.mul_nan_r, !FloatArith.add_nan_r, !FloatArith.add_nan_l,
          !FloatArith.add_nan_r.
  reflexivity.
Qed.

Lemma in_bounds_nan (y : vec) : get y 0 = nan -> in_bounds bounds y = false.
Proof.
  intros E. unfold in_bounds. rewrite E.
  destruct (xmin bounds <=? nan) eqn:L; [|reflexivity].
  apply FloatFacts.leb_not_nan in L. destruct L as [_ L]. discriminate L.
Qed.

Lemma block_size_not_2 : Nat.eqb 2 TRACING_BLOCK_SIZE = false.
Proof.
  apply Nat.eqb_neq. intros E. apply (f_equal Z.of_nat) in E. vm_compute in E. discriminate E.
Qed.

(** X5: a field that is a NaN does not keep the tracer running.  When the
    initial state lies in the box and [0 <= atol], the first step is accepted
    with a truncation error of [0] (a NaN error estimate never replaces the
    running maximum), the six NaNs it produces are stored as state 1, those
    fail the test of the loop, and [trace_particle] returns [2]. *)
Theorem trace_particle_nan_field (fuel : nat) (times_array pos_array : buf) :
  in_bounds bounds (sample pos_array 0) = true -> (0 <=? atol) = true -> (2 <= fuel)%nat ->
  exists times positions,
    trace_particle field bounds atol fuel times_array pos_array = Some (2%nat, times, positions) /\
    sample positions 1 = [nan; nan; nan; nan; nan; nan].
Proof.
  intros Hin Hatol Hfuel.
  destruct fuel as [|[|fuel]]; try lia.
  unfold trace_particle. set (s0 := initial_state times_array pos_array).
  assert (Hy0 : st_y s0 = sample pos_array 0) by reflexivity.
  assert (Hlen : length (st_y s0) = 6%nat) by reflexivity.
  set (k := fst (stages field (st_y s0) (st_h s0))).
  destruct (store_step_spec s0 k Hlen) as (Hy & _ & HN & Hp & _).
  assert (Hadv : advance (st_y s0) k = [nan; nan; nan; nan; nan; nan])
    by apply advance_nan_field.
  assert (E1 : iteration field bounds atol (st_h s0) s0
               = Continue (with_h (store_step s0 k)
                                  (next_h atol (st_h s0) (st_h s0) (truncation_error k)))).
  { unfold iteration. rewrite Hy0, Hin, <- Hy0. fold k.
    unfold k at 1. rewrite truncation_error_nan_field, Hatol. fold k.
    rewrite HN. change (st_N s0 + 1)%nat with 2%nat. rewrite block_size_not_2.
    unfold k. rewrite truncation_error_nan_field. reflexivity. }
  cbn [trace_loop]. rewrite E1.
  assert (E2 : forall h', iteration field bounds atol (st_h s0) (with_h (store_step s0 k) h')
                          = Returned (with_h (store_step s0 k) h')).
  { intros h'. unfold iteration. cbn [with_h st_y].
    rewrite (in_bounds_nan (st_y (store_step s0 k))); [reflexivity|].
    rewrite Hy, Hadv. reflexivity. }
  rewrite E2. cbn [with_h st_N st_times st_positions]. rewrite HN.
  eexists _, _. split; [reflexivity|].
  rewrite Hp, Hadv. apply sample_write_sample_same. reflexivity.
Qed.

End NanField.

Lemma trace_particle_nan_field_witness :
  exists times positions,
    @trace_particle RefLibm.libm Sample2.nan_field Sample.box 1e-10 5 Sample.clock Sample.start
    = Some (2%nat, times, positions) /\
    sample positions 1 = [nan; nan; nan; nan; nan; nan].
Proof.
  apply (@trace_particle_nan_field RefLibm.libm Sample2.nan_field Sample.box 1e-10);
    [ intros p [|[|[|c]]] Hc; try lia; reflexivity
    | vm_compute; reflexivity | vm_compute; reflexivity | lia ].
Defined.

(** * Matrix assembly in 3D *)

Section Loops.

(** A loop that stores [f j] at [base + j]: what it leaves at an index. *)
Lemma fold_store_out (step : buf -> nat -> buf) (base : nat) (f : nat -> float)
    (l : list nat) (m : buf) (idx : nat) :
  (forall m j idx', step m j idx' = if Nat.eqb idx' (base + j) then f j else m idx') ->
  (forall j, In j l -> idx <> (base + j)%nat) ->
  fold_left step l m idx = m idx.
Proof.
  intros Hstep. revert m. induction l as [|a l IH]; intros m Hout; [reflexivity|].
  cbn [fold_left]. rewrite IH by (intros j Hj; apply Hout; right; exact Hj).
  rewrite Hstep. destruct (Nat.eqb_spec idx (base + a)) as [E|_]; [|reflexivity].
  exfalso. apply (Hout a); [left; reflexivity | exact E].
Qed.

Lemma fold_store_in (step : buf -> nat -> buf) (base : nat) (f : nat -> float)
    (l : list nat) (m : buf) (j : nat) :
  (forall m j idx', step m j idx' = if Nat.eqb idx' (base + j) then f j else m idx') ->
  In j l -> fold_left step l m (base + j)%nat = f j.
Proof.
  intros Hstep. revert m. induction l as [|a l IH]; intros m Hin; [destruct Hin|].
  cbn [fold_left]. destruct (in_dec Nat.eq_dec j l) as [Hl|Hl]; [apply IH, Hl|].
  destruct Hin as [->|Hin]; [|contradiction].
  rewrite (fold_store_out step base f l _ _ Hstep).
  - rewrite Hstep, Nat.eqb_refl. reflexivity.
  - intros j' Hj' E. apply Hl. replace j with j' by lia. exact Hj'.
Qed.

(** How the loop over the rows ends when a row with an unknown tag ends the
    process and every other row is filled. *)
Lemma for_each_outcome (body : nat -> buf -> result buf) (known : nat -> bool)
    (l : list nat) (m : buf) :
  (forall i m, In i l -> if known i then exists m', body i m = Ok m' else body i m = Exit 1) ->
  match for_each l body m with
  | Ok _ => forall i, In i l -> known i = true
  | Exit status => status = 1%Z /\ exists i, In i l /\ known i = false
  | AssertionFailed => False
  end.
Proof.
  revert m. induction l as [|a l IH]; intros m Hbody; [intros i []|].
  cbn [for_each]. pose proof (Hbody a m (or_introl eq_refl)) as Ha.
  destruct (known a) eqn:Ka.
  - destruct Ha as [m1 ->]. cbn [bind].
    specialize (IH m1 (fun i m Hi => Hbody i m (or_intror Hi))).
    destruct (for_each l body m1) as [m2|st|].
    + intros i [<-|Hi]; [exact Ka | apply IH, Hi].
    + destruct IH as [-> [i [Hi Ki]]]. split; [reflexivity|]. exists i. split; [right|]; assumption.
    + exact IH.
  - rewrite Ha. cbn [bind]. split; [reflexivity|]. exists a. split; [left; reflexivity | exact Ka].
Qed.

Lemma in_range_incl (first last r : nat) :
  In r (range_incl first last) <-> (first <= r <= last)%nat.
Proof. unfold range_incl. rewrite in_seq. lia. Qed.

Lemma existsb_range (first last r : nat) (p : nat -> bool) :
  (forall i, p i = true <-> i = r) ->
  existsb p (range_incl first last) = in_range first last r.
Proof.
  intros Hp. unfold in_range.
  destruct (existsb p (range_incl first last)) eqn:E.
  - apply existsb_exists in E. destruct E as [i [Hi Hpi]]. apply Hp in Hpi. subst i.
    apply in_range_incl in Hi. symmetry. apply andb_true_iff.
    split; apply Nat.leb_le; lia.
  - destruct ((first <=? r)%nat && (r <=? last)%nat) eqn:B; [|reflexivity].
    apply andb_true_iff in B. destruct B as [B1 B2].
    apply Nat.leb_le in B1. apply Nat.leb_le in B2.
    assert (X : existsb p (range_incl first last) = true).
    { apply existsb_exists. exists r. split; [apply in_range_incl; lia | apply Hp; reflexivity]. }
    congruence.
Qed.

End Loops.

Section Matrix3D.
Context {M : Libm}.
Variables (triangle_points_p : buf) (excitation_types : nat -> nat) (excitation_values : buf).
Variables N_lines N_matrix : nat.

Lemma fill_matrix_3d_unfold (matrix : buf) (first last : nat) :
  fill_matrix_3d matrix triangle_points_p excitation_types excitation_values
                 N_lines N_matrix first last
  = if negb ((first <? N_lines)%nat && (last <? N_lines)%nat) then AssertionFailed
    else for_each (range_incl first last)
                  (fill_matrix_3d_row triangle_points_p excitation_types excitation_values
                                      N_lines N_matrix) matrix.
Proof. reflexivity. Qed.

Lemma fill_matrix_3d_row_known (i : nat) (matrix : buf) :
  match excitation_of_tag (excitation_types i) with
  | Some _ => exists matrix',
      fill_matrix_3d_row triangle_points_p excitation_types excitation_values
                         N_lines N_matrix i matrix = Ok matrix'
  | None =>
      fill_matrix_3d_row triangle_points_p excitation_types excitation_values
                         N_lines N_matrix i matrix = Exit 1
  end.
Proof.
  unfold fill_matrix_3d_row.
  destruct (excitation_of_tag (excitation_types i)) as [[]|];
    first [reflexivity | eexists; reflexivity].
Qed.

(** X6: how a call of [fill_matrix_3d] ends.  It fails its [assert] exactly
    when one of the two range bounds is not below [N_lines]; otherwise it
    ends the process with status 1 exactly when some row of the range has a
    tag outside 1..4, and returns exactly when every row of the range has a
    known tag. *)
Theorem fill_matrix_3d_outcome (matrix : buf) (first last : nat) :
  match fill_matrix_3d matrix triangle_points_p excitation_types excitation_values
                       N_lines N_matrix first last with
  | AssertionFailed => ~ (first < N_lines /\ last < N_lines)%nat
  | Exit status =>
      status = 1%Z /\ (first < N_lines /\ last < N_lines)%nat /\
      exists i, (first <= i <= last)%nat /\ excitation_of_tag (excitation_types i) = None
  | Ok _ =>
      (first < N_lines /\ last < N_lines)%nat /\
      forall i, (first <= i <= last)%nat -> excitation_of_tag (excitation_types i) <> None
  end.
Proof.
  rewrite fill_matrix_3d_unfold.
  destruct ((first <? N_lines)%nat && (last <? N_lines)%nat) eqn:A; cbn [negb].
  - apply andb_true_iff in A. destruct A as [A1 A2].
    apply Nat.ltb_lt in A1. apply Nat.ltb_lt in A2.
    pose proof (for_each_outcome
                  (fill_matrix_3d_row triangle_points_p excitation_types excitation_values
                                      N_lines N_matrix)
                  (fun i => match excitation_of_tag (excitation_types i) with
                            | Some _ => true | None => false end)
                  (range_incl first last) matrix) as H.
    match type of H with ?P -> _ => assert (HP : P) end.
    { intros i m _. pose proof (fill_matrix_3d_row_known i m) as K.
      destruct (excitation_of_tag (excitation_types i)); exact K. }
    specialize (H HP).
    destruct (for_each _ _ matrix) as [m'|st|].
    + split; [split; assumption|]. intros i Hi E.
      specialize (H i (proj2 (in_range_incl first last i) Hi)). rewrite E in H. discriminate H.
    + destruct H as [-> [i [Hi Ki]]]. split; [reflexivity|]. split; [split; assumption|].
      exists i. split; [apply in_range_incl, Hi|].
      destruct (excitation_of_tag (excitation_types i)); [discriminate Ki | reflexivity].
    + destruct H.
  - intros [A1 A2]. apply Nat.ltb_lt in A1. apply Nat.ltb_lt in A2.
    rewrite A1, A2 in A. discriminate A.
Qed.

Hypothesis wide : (N_lines <= N_matrix)%nat.

Lemma fill_matrix_3d_row_cells (i : nat) (matrix matrix' : buf) :
  fill_matrix_3d_row triangle_points_p excitation_types excitation_values
                     N_lines N_matrix i matrix = Ok matrix' ->
  forall r c, (c < N_matrix)%nat ->
    matrix' (r * N_matrix + c)%nat
    = if (r =? i)%nat && (c <? N_lines)%nat
      then matrix_cell_3d triangle_points_p excitation_types excitation_values r c
      else matrix (r * N_matrix + c)%nat.
Proof.
  intros Hrow r c Hc.
  assert (Hfold : forall step,
            (forall m j idx', step m j idx'
               = if Nat.eqb idx' (i * N_matrix + j)
                 then matrix_cell_3d triangle_points_p excitation_types excitation_values i j
                 else m idx') ->
            fold_left step (seq 0 N_lines) matrix (r * N_matrix + c)%nat
            = if (r =? i)%nat && (c <? N_lines)%nat
              then matrix_cell_3d triangle_points_p excitation_types excitation_values r c
              else matrix (r * N_matrix + c)%nat).
  { intros step Hstep.
    destruct (Nat.eqb_spec r i) as [->|Hri]; cbn [andb].
    - destruct (Nat.ltb_spec c N_lines) as [Hlt|Hge].
      + apply (fold_store_in step _ _ _ _ _ Hstep). apply in_seq. lia.
      + apply (fold_store_out step _ _ _ _ _ Hstep). intros j Hj. apply in_seq in Hj. lia.
    - apply (fold_store_out step _ _ _ _ _ Hstep). intros j Hj E. apply in_seq in Hj.
      apply Hri. destruct (cell_inj N_matrix r c i j); [lia | lia | exact E | assumption]. }
  unfold fill_matrix_3d_row in Hrow.
  destruct (excitation_of_tag (excitation_types i)) as [[]|] eqn:T;
    try discriminate Hrow; injection Hrow as <-; apply Hfold; intros m j idx';
    unfold matrix_cell_3d, centroid; rewrite T; unfold upd;
    try reflexivity.
  destruct (Nat.eqb_spec i j) as [->|Hij]; [|reflexivity].
  destruct (Nat.eqb idx' (j * N_matrix + j)) eqn:E; [|reflexivity].
  rewrite Nat.eqb_refl. reflexivity.
Qed.

Lemma fill_matrix_3d_cells_gen (matrix matrix' : buf) (first last : nat) :
  fill_matrix_3d matrix triangle_points_p excitation_types excitation_values
                 N_lines N_matrix first last = Ok matrix' ->
  forall r c, (c < N_matrix)%nat ->
    matrix' (r * N_matrix + c)%nat
    = if in_range first last r && (c <? N_lines)%nat
      then matrix_cell_3d triangle_points_p excitation_types excitation_values r c
      else matrix (r * N_matrix + c)%nat.
Proof.
  rewrite fill_matrix_3d_unfold.
  destruct (negb _); [discriminate|]. intros Hrun r c Hc.
  revert matrix Hrun. unfold in_range.
  assert (G : forall l matrix,
            for_each l (fill_matrix_3d_row triangle_points_p excitation_types excitation_values
                                           N_lines N_matrix) matrix = Ok matrix' ->
            matrix' (r * N_matrix + c)%nat
            = if existsb (Nat.eqb r) l && (c <? N_lines)%nat
              then matrix_cell_3d triangle_points_p excitation_types excitation_values r c
              else matrix (r * N_matrix + c)%nat).
  { induction l as [|a l IH]; intros matrix Hrun.
    - injection Hrun as <-. reflexivity.
    - cbn [for_each] in Hrun.
      destruct (fill_matrix_3d_row _ _ _ _ _ a matrix) as [m1| |] eqn:Ha; try discriminate Hrun.
      cbn [bind] in Hrun. rewrite (IH m1 Hrun). cbn [existsb].
      rewrite (fill_matrix_3d_row_cells a matrix m1 Ha r c Hc).
      destruct (r =? a)%nat, (existsb (Nat.eqb r) l), (c <? N_lines)%nat; reflexivity. }
  intros matrix Hrun. rewrite (G _ _ Hrun).
  rewrite (existsb_range first last r (Nat.eqb r)); [reflexivity|].
  intros i. rewrite Nat.eqb_eq. split; congruence.
Qed.

End Matrix3D.

Lemma accumulate_ext (n : nat) (f g : nat -> float) (init : float) :
  (forall j, (j < n)%nat -> f j = g j) -> accumulate n f init = accumulate n g init.
Proof.
  intros H. unfold accumulate.
  assert (G : forall l s, (forall j, In j l -> f j = g j) ->
              fold_left (fun s i => s + f i) l s = fold_left (fun s i => s + g i) l s).
  { induction l as [|a l IH]; intros s Hl; [reflexivity|].
    cbn [fold_left]. rewrite (Hl a (or_introl eq_refl)). apply IH.
    intros j Hj. apply Hl. right. exact Hj. }
  apply G. intros j Hj. apply H. apply in_seq in Hj. lia.
Qed.

(** X7: what a call of [fill_matrix_3d] that returns has written.  With
    [N_lines <= N_matrix], the cell in row [r] and column [c] of the matrix
    ([c < N_matrix]) holds, when [r] is a row of the range and [c < N_lines],
    the potential of triangle [c] at the centroid of triangle [r] (a
    conductor row) or the scaled normal field of triangle [c] there, less one
    on the diagonal (a dielectric row); every other cell, so every row
    outside the range and every column from [N_lines] on, is as the caller
    passed it. *)
Theorem fill_matrix_3d_cells {M : Libm} (triangle_points_p : buf)
    (excitation_types : nat -> nat) (excitation_values : buf) (N_lines N_matrix : nat)
    (matrix matrix' : buf) (first last : nat) :
  (N_lines <= N_matrix)%nat ->
  fill_matrix_3d matrix triangle_points_p excitation_types excitation_values
                 N_lines N_matrix first last = Ok matrix' ->
  (forall r c, (first <= r <= last)%nat -> (c < N_lines)%nat ->
     matrix' (r * N_matrix + c)%nat
     = matrix_cell_3d triangle_points_p excitation_types excitation_values r c) /\
  (forall r c, (c < N_matrix)%nat -> (r < first \/ last < r \/ N_lines <= c)%nat ->
     matrix' (r * N_matrix + c)%nat = matrix (r * N_matrix + c)%nat).
Proof.
  intros Hw Hrun. split.
  - intros r c Hr Hc.
    rewrite (fill_matrix_3d_cells_gen _ _ _ _ _ Hw _ _ _ _ Hrun r c) by lia.
    unfold in_range.
    replace (first <=? r)%nat with true by (symmetry; apply Nat.leb_le; lia).
    replace (r <=? last)%nat with true by (symmetry; apply Nat.leb_le; lia).
    replace (c <? N_lines)%nat with true by (symmetry; apply Nat.ltb_lt; lia).
    reflexivity.
  - intros r c Hc Hout.
    rewrite (fill_matrix_3d_cells_gen _ _ _ _ _ Hw _ _ _ _ Hrun r c) by lia.
    unfold in_range.
    destruct (Nat.leb_spec first r), (Nat.leb_spec r last), (Nat.ltb_spec c N_lines);
      cbn [andb]; try reflexivity; lia.
Qed.

Lemma fill_matrix_3d_cells_witness :
  exists matrix',
    @fill_matrix_3d RefLibm.libm Sample.blank_matrix Sample.triangles Sample2.tags_1_3
                    Sample2.permittivities 2 3 1 1 = Ok matrix' /\
    matrix' 4%nat = @matrix_cell_3d RefLibm.libm Sample.triangles Sample2.tags_1_3
                                    Sample2.permittivities 1 1 /\
    matrix' 0%nat = Sample.untouched /\ matrix' 5%nat = Sample.untouched.
Proof.
  destruct (@fill_matrix_3d RefLibm.libm Sample.blank_matrix Sample.triangles Sample2.tags_1_3
              Sample2.permittivities 2 3 1 1) as [matrix'| |] eqn:E;
    [|vm_compute in E; discriminate E..].
  exists matrix'. split; [reflexivity|].
  destruct (@fill_matrix_3d_cells RefLibm.libm _ _ _ 2 3 _ _ 1 1 ltac:(lia) E) as [Hin Hout].
  split; [exact (Hin 1%nat 1%nat ltac:(lia) ltac:(lia))|].
  split; [exact (Hout 0%nat 0%nat ltac:(lia) ltac:(lia))
         | exact (Hout 1%nat 2%nat ltac:(lia) ltac:(lia))].
Defined.

(** X8: the matrix agrees with the potential evaluator.  After a call of
    [fill_matrix_3d] that returns, a conductor row [i] of the range applied
    to a vector of charges, accumulated from column 0 up, is bit for bit
    [potential_3d] of those charges at the centroid of triangle [i]. *)
Theorem fill_matrix_3d_row_is_potential {M : Libm} (triangle_points_p : buf)
    (excitation_types : nat -> nat) (excitation_values : buf) (N_lines N_matrix : nat)
    (matrix matrix' : buf) (first last i : nat) (charges : buf) :
  (N_lines <= N_matrix)%nat ->
  fill_matrix_3d matrix triangle_points_p excitation_types excitation_values
                 N_lines N_matrix first last = Ok matrix' ->
  (first <= i <= last)%nat ->
  excitation_of_tag (excitation_types i) <> Some DIELECTRIC ->
  accumulate N_lines (fun j => charges j * matrix' (i * N_matrix + j)%nat) 0
  = potential_3d (centroid triangle_points_p i) triangle_points_p charges N_lines.
Proof.
  intros Hw Hrun Hi Htag. unfold potential_3d. apply accumulate_ext. intros j Hj.
  rewrite (fill_matrix_3d_cells_gen _ _ _ _ _ Hw _ _ _ _ Hrun i j) by lia.
  unfold in_range.
  replace (first <=? i)%nat with true by (symmetry; apply Nat.leb_le; lia).
  replace (i <=? last)%nat with true by (symmetry; apply Nat.leb_le; lia).
  replace (j <? N_lines)%nat with true by (symmetry; apply Nat.ltb_lt; lia).
  cbn [andb]. unfold matrix_cell_3d.
  destruct (excitation_of_tag (excitation_types i)) as [[]|]; try reflexivity.
  exfalso. apply Htag. reflexivity.
Qed.

Lemma fill_matrix_3d_row_is_potential_witness :
  exists matrix',
    @fill_matrix_3d RefLibm.libm Sample.blank_matrix Sample.triangles Sample2.tags_1_3
                    Sample2.permittivities 2 2 0 1 = Ok matrix' /\
    accumulate 2 (fun j => Sample2.charges_3_5 j * matrix' (0 * 2 + j)%nat) 0
    = @potential_3d RefLibm.libm (centroid Sample.triangles 0) Sample.triangles
                    Sample2.charges_3_5 2.
Proof.
  destruct (@fill_matrix_3d RefLibm.libm Sample.blank_matrix Sample.triangles Sample2.tags_1_3
              Sample2.permittivities 2 2 0 1) as [matrix'| |] eqn:E;
    [|vm_compute in E; discriminate E..].
  exists matrix'. split; [reflexivity|].
  apply (@fill_matrix_3d_row_is_potential RefLibm.libm _ _ _ 2 2 _ _ 0 1 0 _ ltac:(lia) E);
    [lia | discriminate].
Defined.

(** * Matrix assembly in radial symmetry *)

Section Owners.

(** A loop each of whose passes stores, at the indices it owns, a value the
    index determines. *)
Lemma fold_owner (step : buf -> nat -> buf) (owns : nat -> nat -> bool) (val : nat -> float)
    (l : list nat) (m : buf) (idx : nat) :
  (forall j m, In j l -> step m j idx = if owns j idx then val idx else m idx) ->
  fold_left step l m idx = if existsb (fun j => owns j idx) l then val idx else m idx.
Proof.
  revert m. induction l as [|a l IH]; intros m Hstep; [reflexivity|].
  cbn [fold_left existsb].
  rewrite IH by (intros j m' Hj; apply Hstep; right; exact Hj).
  rewrite (Hstep a m (or_introl eq_refl)).
  destruct (existsb _ l), (owns a idx); reflexivity.
Qed.

Lemma for_each_owner (body : nat -> buf -> result buf) (owns : nat -> nat -> bool)
    (val : nat -> float) (l : list nat) (m m' : buf) (idx : nat) :
  (forall i m m', In i l -> body i m = Ok m' ->
                  m' idx = if owns i idx then val idx else m idx) ->
  for_each l body m = Ok m' ->
  m' idx = if existsb (fun i => owns i idx) l then val idx else m idx.
Proof.
  revert m. induction l as [|a l IH]; intros m Hbody Hrun.
  - injection Hrun as <-. reflexivity.
  - cbn [for_each] in Hrun. destruct (body a m) as [m1| |] eqn:Ha; try discriminate Hrun.
    cbn [bind] in Hrun. cbn [existsb].
    rewrite (IH m1) by (try exact Hrun; intros i m2 m3 Hi; apply Hbody; right; exact Hi).
    rewrite (Hbody a m m1 (or_introl eq_refl) Ha).
    destruct (existsb _ l), (owns a idx); reflexivity.
Qed.

Lemma cell_decode (n a b : nat) :
  (b < n)%nat -> ((a * n + b) / n = a /\ (a * n + b) mod n = b)%nat.
Proof.
  intros Hb. split; symmetry.
  - apply (Nat.div_unique _ n a b); lia.
  - apply (Nat.mod_unique _ n a b); lia.
Qed.

Lemma cell_index_decode (N_lines i l j k : nat) :
  (j < N_lines)%nat -> (l < 8)%nat -> (k < 8)%nat ->
  let idx := cell_index (N_QUAD_2D * N_lines) i l j k in
  let row := (idx / (N_QUAD_2D * N_lines))%nat in
  let col := (idx mod (N_QUAD_2D * N_lines))%nat in
  (row / 8 = i /\ row mod 8 = l /\ col / 8 = j /\ col mod 8 = k)%nat.
Proof.
  intros Hj Hl Hk idx row col. unfold cell_index, N_QUAD_2D in *.
  assert (Hcol : (8 * j + k < 8 * N_lines)%nat) by lia.
  assert (E : idx = ((8 * i + l) * (8 * N_lines) + (8 * j + k))%nat)
    by (unfold idx, cell_index, N_QUAD_2D; lia).
  destruct (cell_decode (8 * N_lines) (8 * i + l) (8 * j + k) Hcol) as [Hr Hc].
  unfold row, col. rewrite E, Hr, Hc.
  replace (8 * i + l)%nat with (i * 8 + l)%nat by lia.
  replace (8 * j + k)%nat with (j * 8 + k)%nat by lia.
  destruct (cell_decode 8 i l Hl) as [-> ->].
  destruct (cell_decode 8 j k Hk) as [-> ->].
  repeat split.
Qed.

Lemma block_owned_spec (N_matrix i j idx : nat) :
  block_owned N_matrix i j idx = true <->
  exists l k, (l < 8)%nat /\ (k < 8)%nat /\ idx = cell_index N_matrix i l j k.
Proof.
  unfold block_owned, N_QUAD_2D. rewrite existsb_exists. split.
  - intros [l [Hl H]]. apply existsb_exists in H. destruct H as [k [Hk H]].
    apply in_seq in Hl. apply in_seq in Hk. apply Nat.eqb_eq in H.
    exists l, k. split; [lia|]. split; [lia | exact H].
  - intros [l [k [Hl [Hk H]]]]. exists l. split; [apply in_seq; lia|].
    apply existsb_exists. exists k. split; [apply in_seq; lia|]. apply Nat.eqb_eq, H.
Qed.

Lemma cell_index_inj (N_lines i l j k i' l' j' k' : nat) :
  (j < N_lines)%nat -> (j' < N_lines)%nat ->
  (l < 8)%nat -> (k < 8)%nat -> (l' < 8)%nat -> (k' < 8)%nat ->
  cell_index (N_QUAD_2D * N_lines) i l j k = cell_index (N_QUAD_2D * N_lines) i' l' j' k' ->
  i = i' /\ l = l' /\ j = j' /\ k = k'.
Proof.
  intros Hj Hj' Hl Hk Hl' Hk' E.
  pose proof (cell_index_decode N_lines i l j k Hj Hl Hk) as D.
  pose proof (cell_index_decode N_lines i' l' j' k' Hj' Hl' Hk') as D'.
  cbv zeta in D, D'. rewrite E in D. lia.
Qed.

End Owners.

Section MatrixRadial.
Context {M : Libm}.
Variables (line_points_p : buf) (excitation_types : nat -> nat) (N_lines : nat).

Lemma matrix_cell_radial_at (i l j k : nat) :
  (j < N_lines)%nat -> (l < 8)%nat -> (k < 8)%nat ->
  matrix_cell_radial line_points_p (N_QUAD_2D * N_lines)
                     (cell_index (N_QUAD_2D * N_lines) i l j k)
  = if (i =? j)%nat then self_cell line_points_p i l k else cross_cell line_points_p i l j k.
Proof.
  intros Hj Hl Hk. unfold matrix_cell_radial. cbv zeta.
  destruct (cell_index_decode N_lines i l j k Hj Hl Hk) as (-> & -> & -> & ->). reflexivity.
Qed.

Lemma fill_voltage_block_cells (i j : nat) (m : buf) (idx : nat) :
  (j < N_lines)%nat -> i <> j ->
  fill_voltage_block line_points_p (N_QUAD_2D * N_lines) i j m idx
  = if block_owned (N_QUAD_2D * N_lines) i j idx
    then matrix_cell_radial line_points_p (N_QUAD_2D * N_lines) idx else m idx.
Proof.
  intros Hj Hij. unfold fill_voltage_block, block_owned. cbv zeta.
  rewrite (fold_owner _
             (fun l idx => existsb (fun k => Nat.eqb idx (cell_index (N_QUAD_2D * N_lines) i l j k))
                                   (seq 0 N_QUAD_2D))
             (matrix_cell_radial line_points_p (N_QUAD_2D * N_lines))); [reflexivity|].
  intros l m1 Hl. apply in_seq in Hl. unfold N_QUAD_2D in Hl.
  rewrite (fold_owner _
             (fun k idx => Nat.eqb idx (cell_index (N_QUAD_2D * N_lines) i l j k))
             (matrix_cell_radial line_points_p (N_QUAD_2D * N_lines))); [reflexivity|].
  intros k m2 Hk. apply in_seq in Hk. unfold N_QUAD_2D in Hk.
  unfold upd. fold (cell_index (N_QUAD_2D * N_lines) i l j k).
  destruct (Nat.eqb_spec idx (cell_index (N_QUAD_2D * N_lines) i l j k)) as [->|_];
    [|reflexivity].
  rewrite matrix_cell_radial_at by lia.
  replace (i =? j)%nat with false by (symmetry; apply Nat.eqb_neq; exact Hij).
  reflexivity.
Qed.

Lemma cross_rows_cells (first last : nat) (m : buf) (idx : nat) :
  fold_left (fun matrix i =>
               match excitation_of_tag (excitation_types i) with
               | Some VOLTAGE_FIXED | Some VOLTAGE_FUN | Some FLOATING_CONDUCTOR =>
                   fold_left (fun matrix j =>
                                if (i =? j)%nat then matrix
                                else fill_voltage_block line_points_p (N_QUAD_2D * N_lines)
                                                        i j matrix)
                             (seq 0 N_lines) matrix
               | _ => matrix
               end)
            (range_incl first last) m idx
  = if cross_owned excitation_types N_lines (N_QUAD_2D * N_lines) first last idx
    then matrix_cell_radial line_points_p (N_QUAD_2D * N_lines) idx else m idx.
Proof.
  unfold cross_owned.
  rewrite (fold_owner _
             (fun i idx => is_conductor (excitation_types i)
                           && existsb (fun j => negb (i =? j)%nat
                                                && block_owned (N_QUAD_2D * N_lines) i j idx)
                                      (seq 0 N_lines))
             (matrix_cell_radial line_points_p (N_QUAD_2D * N_lines))); [reflexivity|].
  intros i m1 _.
  assert (Hrow : fold_left (fun matrix j =>
                              if (i =? j)%nat then matrix
                              else fill_voltage_block line_points_p (N_QUAD_2D * N_lines)
                                                      i j matrix)
                           (seq 0 N_lines) m1 idx
                 = if existsb (fun j => negb (i =? j)%nat
                                        && block_owned (N_QUAD_2D * N_lines) i j idx)
                              (seq 0 N_lines)
                   then matrix_cell_radial line_points_p (N_QUAD_2D * N_lines) idx
                   else m1 idx).
  { rewrite (fold_owner _
               (fun j idx => negb (i =? j)%nat && block_owned (N_QUAD_2D * N_lines) i j idx)
               (matrix_cell_radial line_points_p (N_QUAD_2D * N_lines))); [reflexivity|].
    intros j m2 Hj. apply in_seq in Hj.
    destruct (Nat.eqb_spec i j) as [E|E]; [reflexivity|].
    cbn [negb andb]. apply fill_voltage_block_cells; [lia | exact E]. }
  unfold is_conductor.
  destruct (excitation_of_tag (excitation_types i)) as [[]|]; cbn [andb];
    first [exact Hrow | reflexivity].
Qed.

Lemma fill_self_voltages_cells (first last : nat) (m m' : buf) (idx : nat) :
  (last < N_lines)%nat ->
  fill_self_voltages m line_points_p N_lines (N_QUAD_2D * N_lines) first last = Ok m' ->
  m' idx = if self_owned (N_QUAD_2D * N_lines) first last idx
           then matrix_cell_radial line_points_p (N_QUAD_2D * N_lines) idx else m idx.
Proof.
  intros Hlast Hrun. unfold fill_self_voltages in Hrun. unfold self_owned, block_owned.
  apply (for_each_owner _
           (fun i idx =>
              existsb (fun l => existsb (fun k => Nat.eqb idx
                                                    (cell_index (N_QUAD_2D * N_lines) i l i k))
                                        (seq 0 N_QUAD_2D)) (seq 0 N_QUAD_2D))
           (matrix_cell_radial line_points_p (N_QUAD_2D * N_lines)) _ _ _ idx) in Hrun;
    [exact Hrun|].
  intros i m1 m1' Hi Hrow. apply in_range_incl in Hi.
  apply (for_each_owner _
           (fun l idx => existsb (fun k => Nat.eqb idx (cell_index (N_QUAD_2D * N_lines) i l i k))
                                 (seq 0 N_QUAD_2D))
           (matrix_cell_radial line_points_p (N_QUAD_2D * N_lines)) _ _ _ idx) in Hrow;
    [exact Hrow|].
  intros l m2 m2' Hl Hcol. apply in_seq in Hl. unfold N_QUAD_2D in Hl.
  apply (for_each_owner _
           (fun k idx => Nat.eqb idx (cell_index (N_QUAD_2D * N_lines) i l i k))
           (matrix_cell_radial line_points_p (N_QUAD_2D * N_lines)) _ _ _ idx) in Hcol;
    [exact Hcol|].
  intros k m3 m3' Hk Hcell. apply in_seq in Hk. unfold N_QUAD_2D in Hk.
  destruct (log_integral (line_vertex line_points_p i 0) (line_vertex line_points_p i 1) l k)
    as [v| |] eqn:Hv; try discriminate Hcell.
  change (Ok (upd m3 (cell_index (N_QUAD_2D * N_lines) i l i k) v) = Ok m3') in Hcell.
  assert (E : m3' = upd m3 (cell_index (N_QUAD_2D * N_lines) i l i k) v) by congruence.
  rewrite E. unfold upd.
  destruct (Nat.eqb_spec idx (cell_index (N_QUAD_2D * N_lines) i l i k)) as [->|_];
    [|reflexivity].
  rewrite matrix_cell_radial_at by lia. rewrite Nat.eqb_refl.
  unfold self_cell. rewrite Hv. reflexivity.
Qed.

Lemma self_owned_spec (first last idx : nat) :
  self_owned (N_QUAD_2D * N_lines) first last idx = true <->
  exists i l k, (first <= i <= last)%nat /\ (l < 8)%nat /\ (k < 8)%nat /\
                idx = cell_index (N_QUAD_2D * N_lines) i l i k.
Proof.
  unfold self_owned. rewrite existsb_exists. split.
  - intros [i [Hi H]]. apply in_range_incl in Hi. apply block_owned_spec in H.
    destruct H as [l [k [Hl [Hk H]]]]. exists i, l, k. repeat split; assumption || lia.
  - intros [i [l [k [Hi [Hl [Hk H]]]]]]. exists i. split; [apply in_range_incl, Hi|].
    apply block_owned_spec. exists l, k. repeat split; assumption.
Qed.

Lemma cross_owned_spec (first last idx : nat) :
  cross_owned excitation_types N_lines (N_QUAD_2D * N_lines) first last idx = true <->
  exists i l j k, (first <= i <= last)%nat /\ is_conductor (excitation_types i) = true /\
                  (j < N_lines)%nat /\ i <> j /\ (l < 8)%nat /\ (k < 8)%nat /\
                  idx = cell_index (N_QUAD_2D * N_lines) i l j k.
Proof.
  unfold cross_owned. rewrite existsb_exists. split.
  - intros [i [Hi H]]. apply in_range_incl in Hi. apply andb_true_iff in H.
    destruct H as [Hc H]. apply existsb_exists in H. destruct H as [j [Hj H]].
    apply in_seq in Hj. apply andb_true_iff in H. destruct H as [Hij H].
    apply negb_true_iff, Nat.eqb_neq in Hij. apply block_owned_spec in H.
    destruct H as [l [k [Hl [Hk H]]]]. exists i, l, j, k.
    split; [exact Hi|]. split; [exact Hc|]. split; [lia|]. split; [exact Hij|].
    split; [exact Hl|]. split; [exact Hk | exact H].
  - intros [i [l [j [k [Hi [Hc [Hj [Hij [Hl [Hk H]]]]]]]]]]. exists i.
    split; [apply in_range_incl, Hi|]. apply andb_true_iff. split; [exact Hc|].
    apply existsb_exists. exists j. split; [apply in_seq; lia|].
    apply andb_true_iff. split; [apply negb_true_iff, Nat.eqb_neq, Hij|].
    apply block_owned_spec. exists l, k. split; [exact Hl|]. split; [exact Hk | exact H].
Qed.

End MatrixRadial.

Lemma fill_matrix_radial_asserts {M : Libm} (matrix line_points_p : buf)
    (excitation_types : nat -> nat) (excitation_values : buf)
    (N_lines N_matrix first last : nat) :
  (first < N_lines)%nat -> (last < N_lines)%nat -> N_matrix = (N_QUAD_2D * N_lines)%nat ->
  exists matrix',
    fill_matrix_radial matrix line_points_p excitation_types excitation_values
                       N_lines N_matrix first last = Ok matrix'.
Proof.
  intros H1 H2 H3. unfold fill_matrix_radial.
  replace (first <? N_lines)%nat with true by (symmetry; apply Nat.ltb_lt; exact H1).
  replace (last <? N_lines)%nat with true by (symmetry; apply Nat.ltb_lt; exact H2).
  replace (N_matrix =? N_QUAD_2D * N_lines)%nat with true
    by (symmetry; apply Nat.eqb_eq; exact H3).
  cbn [andb negb]. apply fill_self_voltages_ok.
Qed.

Lemma fill_matrix_radial_ok_asserts {M : Libm} (matrix matrix' line_points_p : buf)
    (excitation_types : nat -> nat) (excitation_values : buf)
    (N_lines N_matrix first last : nat) :
  fill_matrix_radial matrix line_points_p excitation_types excitation_values
                     N_lines N_matrix first last = Ok matrix' ->
  (first < N_lines)%nat /\ (last < N_lines)%nat /\ N_matrix = (N_QUAD_2D * N_lines)%nat.
Proof.
  unfold fill_matrix_radial.
  destruct (Nat.ltb_spec first N_lines), (Nat.ltb_spec last N_lines);
    cbn [andb negb]; try discriminate.
  destruct (Nat.eqb_spec N_matrix (N_QUAD_2D * N_lines)); cbn [negb]; try discriminate.
  intros _. repeat split; assumption.
Qed.

(** X9: how a call of [fill_matrix_radial] ends: it returns exactly when
    both range bounds are below [N_lines] and [N_matrix = 8 N_lines], and
    fails an [assert] otherwise; it never ends the process. *)
Theorem fill_matrix_radial_outcome {M : Libm} (matrix line_points_p : buf)
    (excitation_types : nat -> nat) (excitation_values : buf)
    (N_lines N_matrix first last : nat) :
  match fill_matrix_radial matrix line_points_p excitation_types excitation_values
                           N_lines N_matrix first last with
  | Ok _ => (first < N_lines)%nat /\ (last < N_lines)%nat /\
            N_matrix = (N_QUAD_2D * N_lines)%nat
  | Exit _ => False
  | AssertionFailed => ~ ((first < N_lines)%nat /\ (last < N_lines)%nat /\
                          N_matrix = (N_QUAD_2D * N_lines)%nat)
  end.
Proof.
  destruct (fill_matrix_radial matrix line_points_p excitation_types excitation_values
                               N_lines N_matrix first last) as [m'|st|] eqn:E.
  - exact (fill_matrix_radial_ok_asserts _ _ _ _ _ _ _ _ _ E).
  - destruct (fill_matrix_radial_returns matrix line_points_p excitation_types
                excitation_values N_lines N_matrix first last) as [F|[m' F]];
      rewrite E in F; discriminate F.
  - intros (H1 & H2 & H3).
    destruct (fill_matrix_radial_asserts matrix line_points_p excitation_types
                excitation_values N_lines N_matrix first last H1 H2 H3) as [m' F].
    rewrite E in F. discriminate F.
Qed.

(** X10: what a call of [fill_matrix_radial] that returns has written.  For
    every segment [i] of the range: its block against itself holds the
    logarithmic integrals [log_integral v1 v2 l k], whatever its tag; and
    when its tag is one of the three conductor tags, its block against every
    other segment [j] holds the ring potential of source sample [k] at target
    sample [l] times the weight of the source sample.  The blocks of a row
    outside the range, and the blocks against other segments of a row whose
    tag is not a conductor tag, are as the caller passed them. *)
Theorem fill_matrix_radial_cells {M : Libm} (matrix matrix' line_points_p : buf)
    (excitation_types : nat -> nat) (excitation_values : buf)
    (N_lines N_matrix first last : nat) :
  fill_matrix_radial matrix line_points_p excitation_types excitation_values
                     N_lines N_matrix first last = Ok matrix' ->
  (forall i l k, (first <= i <= last)%nat -> (l < 8)%nat -> (k < 8)%nat ->
     log_integral (line_vertex line_points_p i 0) (line_vertex line_points_p i 1) l k
     = Ok (matrix' (cell_index N_matrix i l i k))) /\
  (forall i l j k, (first <= i <= last)%nat -> is_conductor (excitation_types i) = true ->
     (j < N_lines)%nat -> j <> i -> (l < 8)%nat -> (k < 8)%nat ->
     matrix' (cell_index N_matrix i l j k) = cross_cell line_points_p i l j k) /\
  (forall i l j k, (j < N_lines)%nat -> (l < 8)%nat -> (k < 8)%nat ->
     (i < first \/ last < i \/ (j <> i /\ is_conductor (excitation_types i) = false))%nat ->
     matrix' (cell_index N_matrix i l j k) = matrix (cell_index N_matrix i l j k)).
Proof.
  intros Hrun.
  destruct (fill_matrix_radial_ok_asserts _ _ _ _ _ _ _ _ _ Hrun) as (H1 & H2 & ->).
  unfold fill_matrix_radial in Hrun.
  replace (first <? N_lines)%nat with true in Hrun by (symmetry; apply Nat.ltb_lt; exact H1).
  replace (last <? N_lines)%nat with true in Hrun by (symmetry; apply Nat.ltb_lt; exact H2).
  rewrite Nat.eqb_refl in Hrun. cbn [andb negb] in Hrun. cbv zeta in Hrun.
  assert (Hcell : forall idx,
            matrix' idx
            = if self_owned (N_QUAD_2D * N_lines) first last idx
              then matrix_cell_radial line_points_p (N_QUAD_2D * N_lines) idx
              else if cross_owned excitation_types N_lines (N_QUAD_2D * N_lines) first last idx
                   then matrix_cell_radial line_points_p (N_QUAD_2D * N_lines) idx
                   else matrix idx).
  { intros idx.
    rewrite (fill_self_voltages_cells line_points_p N_lines first last _ _ idx H2 Hrun).
    rewrite cross_rows_cells. reflexivity. }
  split; [|split].
  - intros i l k Hi Hl Hk. rewrite Hcell.
    replace (self_owned _ _ _ _) with true
      by (symmetry; apply self_owned_spec; exists i, l, k; repeat split; assumption || lia).
    rewrite matrix_cell_radial_at by lia. rewrite Nat.eqb_refl. unfold self_cell.
    destruct (log_integral_ok (line_vertex line_points_p i 0)
                              (line_vertex line_points_p i 1) l k) as [v ->].
    reflexivity.
  - intros i l j k Hi Hc Hj Hij Hl Hk. rewrite Hcell.
    destruct (self_owned _ _ _ _) eqn:S.
    + apply self_owned_spec in S. destruct S as (i' & l' & k' & Hi' & Hl' & Hk' & E).
      apply cell_index_inj in E; try lia.
    + replace (cross_owned _ _ _ _ _ _) with true.
      * rewrite matrix_cell_radial_at by lia.
        replace (i =? j)%nat with false by (symmetry; apply Nat.eqb_neq; lia). reflexivity.
      * symmetry. apply cross_owned_spec. exists i, l, j, k.
        repeat split; assumption || lia.
  - intros i l j k Hj Hl Hk Hout. rewrite Hcell.
    destruct (self_owned _ _ _ _) eqn:S.
    + apply self_owned_spec in S. destruct S as (i' & l' & k' & Hi' & Hl' & Hk' & E).
      apply cell_index_inj in E; try lia.
    + destruct (cross_owned _ _ _ _ _ _) eqn:X; [|reflexivity].
      apply cross_owned_spec in X.
      destruct X as (i' & l' & j' & k' & Hi' & Hc' & Hj' & Hij' & Hl' & Hk' & E).
      apply cell_index_inj in E; try lia. destruct E as (-> & _ & -> & _).
      destruct Hout as [Ho|[Ho|[_ Ho]]]; try lia. rewrite Ho in Hc'. discriminate Hc'.
Qed.

Lemma fill_matrix_radial_cells_witness :
  exists matrix',
    @fill_matrix_radial RefLibm.libm Sample.blank_matrix Sample.segments (fun _ => 1%nat)
                        Sample.no_values 2 16 0 0 = Ok matrix' /\
    @log_integral RefLibm.libm (line_vertex Sample.segments 0 0) (line_vertex Sample.segments 0 1)
                  2 3 = Ok (matrix' (cell_index 16 0 2 0 3)) /\
    matrix' (cell_index 16 0 2 1 3) = @cross_cell RefLibm.libm Sample.segments 0 2 1 3 /\
    matrix' (cell_index 16 1 2 0 3) = Sample.untouched.
Proof.
  destruct (@fill_matrix_radial_asserts RefLibm.libm Sample.blank_matrix Sample.segments
              (fun _ => 1%nat) Sample.no_values 2 16 0 0) as [matrix' E]; try lia;
    [reflexivity|].
  exists matrix'. split; [exact E|].
  destruct (@fill_matrix_radial_cells RefLibm.libm _ _ _ _ _ _ _ _ _ E) as (Hs & Hc & Ho).
  split; [apply Hs; lia|]. split; [apply Hc; try lia; reflexivity|].
  apply (Ho 1%nat 2%nat 0%nat 3%nat); lia.
Defined.

(** * The radial expansion potential *)

(** X11: for a point [(r, z)] inside the grid whose interval is [index],
    [potential_radial_derivs] returns
    [D0 - r^2 D2 + r^4/64 D4 - r^6/2304 D6 + r^8/147456 D8], the term in
    [r^2] with coefficient 1, where [D_n] is the quintic of the interval's
    table row [n] at [z - z_grid[index]].  On the axis ([pow] of a zero a
    zero, finite derivatives) the value is numerically [D0], the
    interpolated axial potential. *)
Theorem potential_radial_derivs_in_range {M : Libm}
    (point z_grid coeff_p : buf) (N_z index : nat) :
  (z_grid 0%nat <? point 1%nat) && (point 1%nat <? z_grid (N_z - 1)%nat) = true ->
  C.to_index ((point 1%nat - z_grid 0%nat) / (z_grid 1%nat - z_grid 0%nat)) = Some index ->
  let r := point 0%nat in
  let D := axial_derivative coeff_p index (point 1%nat - z_grid index) in
  potential_radial_derivs point z_grid coeff_p N_z = Some (potential_expansion r D) /\
  (fzero (pow r 2) -> fzero (pow r 4) -> fzero (pow r 6) -> fzero (pow r 8) ->
   (forall n, (n < DERIV_2D_MAX)%nat -> ffinite (D n)) ->
   feq (potential_expansion r D) (D 0%nat)).
Proof.
  intros Hin Hidx r D. split.
  - unfold potential_radial_derivs. rewrite Hin. cbn [negb]. cbv zeta. rewrite Hidx.
    rewrite !spline_derivs_get by (unfold DERIV_2D_MAX; lia). reflexivity.
  - intros H2 H4 H6 H8 HD. unfold DERIV_2D_MAX in HD.
    assert (Hc : forall c z n, (is_finite c && negb (c =? 0)) = true -> fzero z ->
                 (n < 9)%nat -> fzero (z / c * D n)).
    { intros c z n Hc Hz Hn. apply andb_true_iff in Hc. destruct Hc as [Hf Hnz].
      apply FloatFacts.fzero_mul_finite; [|apply HD, Hn].
      apply FloatFacts.fzero_div; [exact Hz | exact Hf |].
      unfold fzero. intros E. rewrite E in Hnz. discriminate Hnz. }
    unfold potential_expansion.
    apply FloatFacts.feq_add_zero; [|apply Hc; [reflexivity | exact H8 | lia]].
    apply FloatFacts.feq_sub_zero; [|apply Hc; [reflexivity | exact H6 | lia]].
    apply FloatFacts.feq_add_zero; [|apply Hc; [reflexivity | exact H4 | lia]].
    apply FloatFacts.feq_sub_zero;
      [|apply FloatFacts.fzero_mul_finite; [exact H2 | apply HD; lia]].
    apply FloatFacts.feq_refl, FloatFacts.ffinite_not_nan, HD. lia.
Qed.

Lemma potential_radial_derivs_in_range_witness :
  let D := @axial_derivative RefLibm.libm Sample.coeff 1 0.5 in
  @potential_radial_derivs RefLibm.libm Sample.point_on_axis Sample.z_grid Sample.coeff 3
  = Some (@potential_expansion RefLibm.libm 0 D) /\
  feq (@potential_expansion RefLibm.libm 0 D) (D 0%nat).
Proof.
  intros D.
  destruct (@potential_radial_derivs_in_range RefLibm.libm
              Sample.point_on_axis Sample.z_grid Sample.coeff 3 1 eq_refl eq_refl)
    as [Hpot Haxis].
  split; [exact Hpot|].
  apply Haxis; try reflexivity.
  intros n Hn. unfold DERIV_2D_MAX in Hn.
  do 9 (destruct n as [|n]; [vm_compute; reflexivity|]). lia.
Defined.

(** * Legendre polynomials *)

(** X12: the nine tabulated Legendre polynomials are normalised: with a
    [pow] that gives [1] for the powers of [1], [legendre N 1] returns
    exactly [1] for every [N <= 8]; and for every [N >= 9], whatever the
    argument, the call ends the process with status 1. *)
Theorem legendre_at_one {M : Libm} (N : nat) :
  (forall n, (2 <= n <= 8)%nat -> pow 1 (Zn n) = 1) ->
  ((N <= 8)%nat -> legendre N 1 = Ok 1) /\
  ((9 <= N)%nat -> forall x, legendre N x = Exit 1).
Proof.
  intros Hpow.
  assert (H2 : pow 1 2 = 1) by (apply (Hpow 2%nat); lia).
  assert (H3 : pow 1 3 = 1) by (apply (Hpow 3%nat); lia).
  assert (H4 : pow 1 4 = 1) by (apply (Hpow 4%nat); lia).
  assert (H5 : pow 1 5 = 1) by (apply (Hpow 5%nat); lia).
  assert (H6 : pow 1 6 = 1) by (apply (Hpow 6%nat); lia).
  assert (H7 : pow 1 7 = 1) by (apply (Hpow 7%nat); lia).
  assert (H8 : pow 1 8 = 1) by (apply (Hpow 8%nat); lia).
  split.
  - intros HN.
    do 9 (destruct N as [|N];
          [cbn [legendre]; rewrite ?H2, ?H3, ?H4, ?H5, ?H6, ?H7, ?H8; reflexivity|]).
    lia.
  - intros HN x. apply legendre_above_8. exact HN.
Qed.

Lemma legendre_at_one_witness :
  @legendre RefLibm.libm 8 1 = Ok 1 /\ @legendre RefLibm.libm 9 0.5 = Exit 1.
Proof.
  assert (Hpow : forall n, (2 <= n <= 8)%nat -> @pow RefLibm.libm 1 (Zn n) = 1).
  { intros n Hn. do 9 (destruct n as [|n]; [try lia; vm_compute; reflexivity|]). lia. }
  destruct (@legendre_at_one RefLibm.libm 8 Hpow) as [H _].
  destruct (@legendre_at_one RefLibm.libm 9 Hpow) as [_ H'].
  split; [apply H; lia | apply H'; lia].
Defined.

(** * Distances do not depend on the direction *)

Module Symmetry.

(** Swapping the operands of a subtraction negates the result, unless both
    results are zeros. *)
Lemma SFsub_swap (X Y : spec_float) :
  SFsub prec emax Y X = SFopp (SFsub prec emax X Y) \/
  (sf_zero (SFsub prec emax X Y) /\ sf_zero (SFsub prec emax Y X)).
Proof.
  destruct X as [sx|sx| |sx mx ex], Y as [sy|sy| |sy my ey];
    try (left; reflexivity);
    try (destruct sx, sy; cbn; tauto).
  cbn [SFsub]. rewrite (Z.min_comm ey ex).
  set (a := cond_Zopp sx (Z.pos (fst (shl_align mx ex (Z.min ex ey))))).
  set (b := cond_Zopp sy (Z.pos (fst (shl_align my ey (Z.min ex ey))))).
  replace (b - a)%Z with (- (a - b))%Z by lia.
  destruct (a - b)%Z as [|p|p]; cbn [Z.opp binary_normalize].
  - right. split; exact I.
  - left. unfold binary_round. destruct (shl_align p _ _) as [mz ez].
    rewrite FloatFacts.binary_round_aux_opp. reflexivity.
  - left. unfold binary_round. destruct (shl_align p _ _) as [mz ez].
    rewrite FloatFacts.binary_round_aux_opp. reflexivity.
Qed.

Lemma SFmul_square_opp (a : spec_float) :
  SFmul prec emax (SFopp a) (SFopp a) = SFmul prec emax a a.
Proof. destruct a as [[]|[]| |[] m e]; reflexivity. Qed.

Lemma SFmul_square_zero (a b : spec_float) :
  sf_zero a -> sf_zero b -> SFmul prec emax a a = SFmul prec emax b b.
Proof. destruct a as [[]|[]| |[] m e], b as [[]|[]| |[] m' e']; cbn; tauto. Qed.

(** The square of a difference does not depend on the order of the operands. *)
Lemma square_sub_swap (x y : float) : (x - y) * (x - y) = (y - x) * (y - x).
Proof.
  apply Prim2SF_inj. rewrite !FloatAxioms.mul_spec, !FloatAxioms.sub_spec.
  unfold SF64mul, SF64sub.
  destruct (SFsub_swap (Prim2SF x) (Prim2SF y)) as [E|[Z1 Z2]].
  - rewrite E, SFmul_square_opp. reflexivity.
  - apply SFmul_square_zero; assumption.
Qed.

End Symmetry.

(** X13: distances are computed symmetrically, bit for bit: the length of a
    segment does not depend on the order of its end points, and the potential
    of a unit point charge is the same when source and target are exchanged
    (reciprocity), for every input, a NaN or an infinity included. *)
Theorem distances_are_symmetric :
  (forall v1 v2, length_2d v1 v2 = length_2d v2 v1) /\
  (forall x0 y0 z0 x y z,
     potential_3d_point x0 y0 z0 x y z = potential_3d_point x y z x0 y0 z0).
Proof.
  split.
  - intros v1 v2. unfold length_2d, norm_2d.
    rewrite (Symmetry.square_sub_swap (v2 0%nat) (v1 0%nat)),
            (Symmetry.square_sub_swap (v2 1%nat) (v1 1%nat)).
    reflexivity.
  - intros x0 y0 z0 x y z. unfold potential_3d_point, norm_3d.
    rewrite (Symmetry.square_sub_swap x x0), (Symmetry.square_sub_swap y y0),
            (Symmetry.square_sub_swap z z0).
    reflexivity.
Qed.

(** * The tracer in a radial field *)

Section ThirdVelocity.
Context {M : Libm}.
Variable field : field_fun.
Hypothesis no_third_component : forall p, get (field p) 2 = 0.

Lemma stage_third_zero (y : vec) (h : float) (j : nat) :
  ffinite (h * EM) -> (j < 6)%nat -> fzero (get (row (fst (stages field y h)) j) 5).
Proof.
  intros Hh Hj.
  do 6 (destruct j as [|j];
        [cbn [stages fold_left seq produce_new_k produce_new_y set_at row nth fst snd get map
              zeros66 zeros6 coefficients];
         rewrite no_third_component;
         apply FloatArith.fzero_mul_finite_r; [exact Hh | reflexivity]|]).
  lia.
Qed.

Lemma advance_third (y : vec) (h : float) :
  ffinite (h * EM) -> is_nan (get y 5) = false ->
  feq (get (advance y (fst (stages field y h))) 5) (get y 5).
Proof.
  intros Hh Hy. unfold advance. cbn [map seq get nth].
  change (@nth float 5 y 0) with (get y 5).
  apply FloatFacts.feq_add_zero; [apply FloatFacts.feq_refl, Hy|].
  repeat apply FloatArith.fzero_add;
    (apply FloatArith.fzero_mul_finite_r;
     [reflexivity | apply (stage_third_zero y h); [exact Hh | lia]]).
Qed.

End ThirdVelocity.

(** X14: the radial field does not act on the third velocity component.  In
    [trace_particle_radial] the field callback writes [0] as its third
    component, so an accepted step (with [h * EM] finite) leaves the sixth
    entry of the state numerically as it was. *)
Theorem radial_step_keeps_third_velocity {M : Libm} (vertices charges : buf)
    (N_vertices : nat) (s : tracer_state) :
  length (st_y s) = 6%nat -> ffinite (st_h s * EM) -> is_nan (get (st_y s) 5) = false ->
  let k := fst (stages (field_radial_traceable vertices charges N_vertices)
                       (st_y s) (st_h s)) in
  feq (get (st_y (store_step s k)) 5) (get (st_y s) 5).
Proof.
  intros Hlen Hh Hy k.
  destruct (store_step_spec s k Hlen) as [-> _].
  apply advance_third; [|exact Hh | exact Hy].
  intros p. unfold field_radial_traceable. rewrite field_radial_unfold. reflexivity.
Qed.

Lemma radial_step_keeps_third_velocity_witness :
  let s := initial_state Sample.clock Sample.start in
  let k := fst (stages (@field_radial_traceable RefLibm.libm Sample.segments
                          Sample.unit_charges 2) (st_y s) (st_h s)) in
  feq (get (st_y (store_step s k)) 5) (get (st_y s) 5).
Proof.
  intros s.
  apply (@radial_step_keeps_third_velocity RefLibm.libm Sample.segments Sample.unit_charges
           2 s); reflexivity.
Defined.

(** * Axial harmonic coefficients in 3D *)

Section Accumulation.

(** A loop some of whose passes change the value at an index. *)
Lemma fold_change_at (step : buf -> nat -> buf) (hit : nat -> bool)
    (f : nat -> float -> float) (l : list nat) (m : buf) (idx : nat) :
  (forall j m, In j l -> step m j idx = if hit j then f j (m idx) else m idx) ->
  fold_left step l m idx = fold_left (fun acc j => if hit j then f j acc else acc) l (m idx).
Proof.
  revert m. induction l as [|a l IH]; intros m Hstep; [reflexivity|].
  cbn [fold_left]. rewrite IH by (intros j m' Hj; apply Hstep; right; exact Hj).
  rewrite (Hstep a m (or_introl eq_refl)). reflexivity.
Qed.

Lemma for_each_defined_change_at (body : nat -> buf -> option buf) (hit : nat -> bool)
    (f : nat -> float -> float) (l : list nat) (m m' : buf) (idx : nat) :
  (forall j m m', In j l -> body j m = Some m' ->
                  m' idx = if hit j then f j (m idx) else m idx) ->
  for_each_defined l body m = Some m' ->
  m' idx = fold_left (fun acc j => if hit j then f j acc else acc) l (m idx).
Proof.
  revert m. induction l as [|a l IH]; intros m Hbody Hrun.
  - injection Hrun as <-. reflexivity.
  - cbn [for_each_defined] in Hrun. destruct (body a m) as [m1|] eqn:Ha; [|discriminate Hrun].
    cbn [fold_left]. rewrite <- (Hbody a m m1 (or_introl eq_refl) Ha).
    apply IH; [|exact Hrun]. intros j m2 m3 Hj. apply Hbody. right. exact Hj.
Qed.

Lemma fold_no_hit (f : nat -> float -> float) (l : list nat) (x : float) :
  fold_left (fun acc j => if false then f j acc else acc) l x = x.
Proof. induction l as [|a l IH]; [reflexivity | exact IH]. Qed.

(** A loop over [a, a+n) exactly one pass of which changes the value. *)
Lemma fold_hit_once (f : nat -> float -> float) (j0 a n : nat) (x : float) :
  fold_left (fun acc j => if Nat.eqb j j0 then f j acc else acc) (seq a n) x
  = if (a <=? j0)%nat && (j0 <? a + n)%nat then f j0 x else x.
Proof.
  revert a x. induction n as [|n IH]; intros a x.
  - cbn [seq fold_left]. destruct (Nat.leb_spec a j0), (Nat.ltb_spec j0 (a + 0));
      cbn [andb]; try reflexivity; lia.
  - cbn [seq fold_left]. rewrite IH.
    destruct (Nat.eqb_spec a j0) as [->|Hne].
    + destruct (Nat.leb_spec (S j0) j0); [lia|]. cbn [andb].
      destruct (Nat.leb_spec j0 j0); [|lia]. destruct (Nat.ltb_spec j0 (j0 + S n)); [|lia].
      reflexivity.
    + destruct (Nat.leb_spec (S a) j0), (Nat.leb_spec a j0),
               (Nat.ltb_spec j0 (S a + n)), (Nat.ltb_spec j0 (a + S n));
        cbn [andb]; try reflexivity; lia.
Qed.

End Accumulation.

Section HarmonicLoops.

Lemma for_each_defined_frame (body : nat -> buf -> option buf) (l : list nat)
    (m m' : buf) (idx : nat) :
  (forall j m m', In j l -> body j m = Some m' -> m' idx = m idx) ->
  for_each_defined l body m = Some m' -> m' idx = m idx.
Proof.
  intros Hbody Hrun.
  rewrite (for_each_defined_change_at body (fun _ => false) (fun _ acc => acc) l m m' idx
             Hbody Hrun).
  apply (fold_no_hit (fun _ acc => acc)).
Qed.

Variables a b : nat -> nat -> float.

(** The two loops over [nu] and [m] of one sample: each adds [a nu m] to
    part 0 and [b nu m] to part 1 of entry [(nu, m)] of position [i]. *)
Lemma harmonic_loops_at (i : nat) (out : buf) (i' part' nu' m' : nat) :
  (part' < 2)%nat -> (nu' < NU_MAX)%nat -> (m' < M_MAX)%nat ->
  fold_left (fun out nu =>
    fold_left (fun out m =>
      upd (upd out (output_coeff_index i 0 nu m) (out (output_coeff_index i 0 nu m) + a nu m))
          (output_coeff_index i 1 nu m)
          (upd out (output_coeff_index i 0 nu m) (out (output_coeff_index i 0 nu m) + a nu m)
               (output_coeff_index i 1 nu m) + b nu m))
      (seq 0 M_MAX) out)
    (seq 0 NU_MAX) out (output_coeff_index i' part' nu' m')
  = if (i =? i')%nat
    then out (output_coeff_index i' part' nu' m')
         + match part' with O => a nu' m' | _ => b nu' m' end
    else out (output_coeff_index i' part' nu' m').
Proof.
  intros Hp Hnu' Hm'.
  rewrite (fold_change_at _ (fun nu => (i =? i')%nat && (nu =? nu')%nat)
             (fun nu acc => acc + match part' with O => a nu m' | _ => b nu m' end)).
  - destruct (i =? i')%nat; cbn [andb].
    + rewrite fold_hit_once.
      replace ((0 <=? nu')%nat && (nu' <? 0 + NU_MAX)%nat) with true; [reflexivity|].
      symmetry. apply andb_true_iff. split; [apply Nat.leb_le | apply Nat.ltb_lt]; lia.
    + apply (fold_no_hit (fun _ acc => acc)).
  - intros nu out1 Hnu. apply in_seq in Hnu.
    rewrite (fold_change_at _ (fun m => (i =? i')%nat && (nu =? nu')%nat && (m =? m')%nat)
               (fun m acc => acc + match part' with O => a nu m | _ => b nu m end)).
    + destruct ((i =? i')%nat && (nu =? nu')%nat); cbn [andb].
      * rewrite fold_hit_once.
        replace ((0 <=? m')%nat && (m' <? 0 + M_MAX)%nat) with true; [reflexivity|].
        symmetry. apply andb_true_iff. split; [apply Nat.leb_le | apply Nat.ltb_lt]; lia.
      * apply (fold_no_hit (fun _ acc => acc)).
    + intros m out2 Hm. apply in_seq in Hm. unfold upd.
      destruct (Nat.eqb_spec i i') as [Ei|Ei], (Nat.eqb_spec nu nu') as [En|En],
               (Nat.eqb_spec m m') as [Em|Em]; cbn [andb];
        repeat match goal with
               | |- context [Nat.eqb ?x ?y] => destruct (Nat.eqb_spec x y)
               end;
        try reflexivity;
        try (exfalso; unfold output_coeff_index, NU_MAX, M_MAX in *; lia);
        subst; destruct part' as [|[|part']]; try reflexivity;
        exfalso; unfold output_coeff_index, NU_MAX, M_MAX in *; lia.
Qed.

Lemma harmonic_loops_frame (i : nat) (out : buf) (idx : nat) :
  (idx < 64 * i \/ 64 * (i + 1) <= idx)%nat ->
  fold_left (fun out nu =>
    fold_left (fun out m =>
      upd (upd out (output_coeff_index i 0 nu m) (out (output_coeff_index i 0 nu m) + a nu m))
          (output_coeff_index i 1 nu m)
          (upd out (output_coeff_index i 0 nu m) (out (output_coeff_index i 0 nu m) + a nu m)
               (output_coeff_index i 1 nu m) + b nu m))
      (seq 0 M_MAX) out)
    (seq 0 NU_MAX) out idx
  = out idx.
Proof.
  intros Hidx.
  rewrite (fold_change_at _ (fun _ => false) (fun _ acc => acc));
    [apply (fold_no_hit (fun _ acc => acc))|].
  intros nu out1 Hnu. apply in_seq in Hnu.
  rewrite (fold_change_at _ (fun _ => false) (fun _ acc => acc));
    [apply (fold_no_hit (fun _ acc => acc))|].
  intros m out2 Hm. apply in_seq in Hm. unfold upd.
  repeat match goal with
         | |- context [Nat.eqb ?x ?y] => destruct (Nat.eqb_spec x y)
         end;
    try reflexivity; exfalso; unfold output_coeff_index, NU_MAX, M_MAX in *; lia.
Qed.

End HarmonicLoops.

Section AxialCoefficients.
Context {M : Libm}.
Variables vertices_p charges zs thetas theta_coeffs_p : buf.

Lemma axial_coefficients_sample_at (h i k : nat) (out out' : buf) (i' part' nu' m' : nat) :
  (part' < 2)%nat -> (nu' < NU_MAX)%nat -> (m' < M_MAX)%nat ->
  axial_coefficients_sample vertices_p charges zs thetas theta_coeffs_p h i k out = Some out' ->
  out' (output_coeff_index i' part' nu' m')
  = if (i =? i')%nat
    then out (output_coeff_index i' part' nu' m')
         + coefficient_contribution vertices_p charges zs thetas theta_coeffs_p
                                    h i' k part' nu' m'
    else out (output_coeff_index i' part' nu' m').
Proof.
  intros Hp Hnu Hm Hrun.
  destruct (Nat.eqb_spec i i') as [<-|Hne].
  - revert Hrun. unfold axial_coefficients_sample, coefficient_contribution, triangle_area.
    cbv zeta.
    destruct (C.to_index _) as [index|]; [|discriminate].
    intros Hrun.
    apply (f_equal (fun o => match o with
                             | Some b => b (output_coeff_index i part' nu' m')
                             | None => 0
                             end)) in Hrun.
    cbv beta iota in Hrun. rewrite <- Hrun.
    erewrite harmonic_loops_at by assumption.
    rewrite Nat.eqb_refl. destruct part' as [|part']; reflexivity.
  - revert Hrun. unfold axial_coefficients_sample. cbv zeta.
    destruct (C.to_index _) as [index|]; [|discriminate].
    intros Hrun.
    apply (f_equal (fun o => match o with
                             | Some b => b (output_coeff_index i' part' nu' m')
                             | None => 0
                             end)) in Hrun.
    cbv beta iota in Hrun. rewrite <- Hrun.
    erewrite harmonic_loops_at by assumption.
    replace (i =? i')%nat with false by (symmetry; apply Nat.eqb_neq; exact Hne).
    reflexivity.
Qed.

Lemma axial_coefficients_sample_frame (h i k : nat) (out out' : buf) (idx : nat) :
  (idx < 64 * i \/ 64 * (i + 1) <= idx)%nat ->
  axial_coefficients_sample vertices_p charges zs thetas theta_coeffs_p h i k out = Some out' ->
  out' idx = out idx.
Proof.
  intros Hidx. unfold axial_coefficients_sample. cbv zeta.
  destruct (C.to_index _) as [index|]; [|discriminate].
  intros Hrun.
  apply (f_equal (fun o => match o with Some b => b idx | None => 0 end)) in Hrun.
  cbv beta iota in Hrun. rewrite <- Hrun.
  erewrite harmonic_loops_frame by exact Hidx. reflexivity.
Qed.

(** X15: what [axial_coefficients_3d] leaves in [output_coeffs] when every
    subscript cast in it is defined.  Entry [(nu, m)] of part 0 or 1 at axial
    position [i] has received, on top of what the caller passed, the
    contribution of every quadrature point of every triangle, added in the
    order of the loops: charge times area times weight times the cubic of the
    tabulated coefficients in [theta - thetas[index]], times [cos (m mu)] or
    [sin (m mu)], times [r^(-2 nu - m - 1)].  Nothing from entry
    [64 N_z] on is written. *)
Theorem axial_coefficients_3d_correct (N_v : nat) (output_coeffs_p : buf) (N_z N_t : nat)
    (output' : buf) :
  axial_coefficients_3d vertices_p charges N_v zs output_coeffs_p N_z thetas theta_coeffs_p N_t
  = Some output' ->
  (forall i part nu m, (i < N_z)%nat -> (part < 2)%nat -> (nu < NU_MAX)%nat -> (m < M_MAX)%nat ->
     output' (output_coeff_index i part nu m)
     = coefficient_sum vertices_p charges N_v zs thetas theta_coeffs_p i part nu m
                       (output_coeffs_p (output_coeff_index i part nu m))) /\
  (forall idx, (64 * N_z <= idx)%nat -> output' idx = output_coeffs_p idx).
Proof.
  intros Hrun. unfold axial_coefficients_3d in Hrun. split.
  - intros i' part' nu' m' Hi Hp Hnu Hm. unfold coefficient_sum.
    apply (for_each_defined_change_at _ (fun _ => true)
             (fun h acc =>
                fold_left (fun acc k =>
                             acc + coefficient_contribution vertices_p charges zs thetas
                                     theta_coeffs_p h i' k part' nu' m')
                          (seq 0 N_TRIANGLE_QUAD) acc)
             _ _ _ (output_coeff_index i' part' nu' m')) in Hrun; [exact Hrun|].
    intros h out1 out1' _ Hh.
    apply (for_each_defined_change_at _ (fun i => Nat.eqb i i')
             (fun _ acc =>
                fold_left (fun acc k =>
                             acc + coefficient_contribution vertices_p charges zs thetas
                                     theta_coeffs_p h i' k part' nu' m')
                          (seq 0 N_TRIANGLE_QUAD) acc)
             _ _ _ (output_coeff_index i' part' nu' m')) in Hh.
    + rewrite Hh, fold_hit_once.
      replace ((0 <=? i')%nat && (i' <? 0 + N_z)%nat) with true; [reflexivity|].
      symmetry. apply andb_true_iff. split; [apply Nat.leb_le | apply Nat.ltb_lt]; lia.
    + intros i out2 out2' _ Hi2.
      apply (for_each_defined_change_at _ (fun _ => Nat.eqb i i')
               (fun k acc => acc + coefficient_contribution vertices_p charges zs thetas
                                     theta_coeffs_p h i' k part' nu' m')
               _ _ _ (output_coeff_index i' part' nu' m')) in Hi2.
      * rewrite Hi2. destruct (i =? i')%nat; [reflexivity|].
        apply (fold_no_hit (fun k acc => acc + coefficient_contribution vertices_p charges zs
                                           thetas theta_coeffs_p h i' k part' nu' m')).
      * intros k out3 out3' _ Hk.
        apply (axial_coefficients_sample_at h i k out3 out3' i' part' nu' m' Hp Hnu Hm Hk).
  - intros idx Hidx.
    apply (for_each_defined_frame _ _ _ _ idx) in Hrun; [exact Hrun|].
    intros h out1 out1' _ Hh.
    apply (for_each_defined_frame _ _ _ _ idx) in Hh; [exact Hh|].
    intros i out2 out2' Hi Hi2. apply in_seq in Hi.
    apply (for_each_defined_frame _ _ _ _ idx) in Hi2; [exact Hi2|].
    intros k out3 out3' _ Hk.
    apply (axial_coefficients_sample_frame h i k out3 out3' idx); [lia | exact Hk].
Qed.

End AxialCoefficients.

Lemma axial_coefficients_3d_correct_witness :
  exists output',
    @axial_coefficients_3d RefLibm.libm Sample.triangles Sample.unit_charges 2
      Sample2.axial_position Sample.no_derivs 1 Sample2.thetas Sample.coeff 3 = Some output' /\
    output' (output_coeff_index 0 1 2 3)
    = @coefficient_sum RefLibm.libm Sample.triangles Sample.unit_charges 2
        Sample2.axial_position Sample2.thetas Sample.coeff 0 1 2 3 0 /\
    output' 64%nat = 0.
Proof.
  destruct (@axial_coefficients_3d RefLibm.libm Sample.triangles Sample.unit_charges 2
              Sample2.axial_position Sample.no_derivs 1 Sample2.thetas Sample.coeff 3)
    as [output'|] eqn:E; [|vm_compute in E; discriminate E].
  exists output'. split; [reflexivity|].
  destruct (@axial_coefficients_3d_correct RefLibm.libm _ _ _ _ _ _ _ _ _ _ E) as [Hin Hout].
  split.
  - apply (Hin 0%nat 1%nat 2%nat 3%nat); unfold NU_MAX, M_MAX; lia.
  - apply (Hout 64%nat). lia.
Defined.

(** * A particle that starts outside the box *)

(** A state with a NaN among its three coordinates is in no box. *)
Lemma nan_coordinate_outside (bounds pos_array : buf) (c : nat) :
  (c < 3)%nat -> is_nan (pos_array c) = true -> ~ inside_box bounds (sample pos_array 0).
Proof.
  intros Hc Hnan Hin. destruct (Hin c Hc) as [Hlo _].
  apply FloatFacts.leb_not_nan in Hlo. destruct Hlo as [_ Hnum].
  assert (E : get (sample pos_array 0) c = pos_array c)
    by (destruct c as [|[|[|c]]]; [reflexivity..|lia]).
  rewrite E, Hnan in Hnum. discriminate Hnum.
Qed.

Lemma trace_particle_outside {M : Libm} (field : field_fun) (bounds : buf) (atol : float)
    (fuel : nat) (times_array pos_array : buf) :
  ~ inside_box bounds (sample pos_array 0) -> (1 <= fuel)%nat ->
  trace_particle field bounds atol fuel times_array pos_array
  = Some (1%nat, times_array, pos_array).
Proof.
  intros Hout Hfuel. destruct fuel as [|fuel]; [lia|].
  apply not_inside_box in Hout.
  unfold trace_particle. set (s0 := initial_state times_array pos_array).
  assert (Hy0 : st_y s0 = sample pos_array 0) by reflexivity.
  cbn [trace_loop]. unfold iteration. rewrite Hy0, Hout. reflexivity.
Qed.

(** X16: a particle whose initial position is not in the closed box of the
    bounds, in particular one with a NaN among its three coordinates, is not
    traced: [trace_particle_radial] and [trace_particle_3d] return [1] at the
    first test of the loop, evaluate no field, and leave both arrays as the
    caller passed them. *)
Theorem tracers_stop_outside_the_box {M : Libm} (fuel : nat) (times_array pos_array bounds : buf)
    (atol : float) (vertices charges : buf) (N_vertices : nat) :
  ~ inside_box bounds (sample pos_array 0) \/
  (exists c, (c < 3)%nat /\ is_nan (pos_array c) = true) ->
  (1 <= fuel)%nat ->
  trace_particle_radial fuel times_array pos_array bounds atol vertices charges N_vertices
  = Some (1%nat, times_array, pos_array) /\
  trace_particle_3d fuel times_array pos_array bounds atol vertices charges N_vertices
  = Some (1%nat, times_array, pos_array).
Proof.
  intros Hout Hfuel.
  assert (Hbox : ~ inside_box bounds (sample pos_array 0)).
  { destruct Hout as [Hout|(c & Hc & Hnan)]; [exact Hout|].
    apply (nan_coordinate_outside bounds pos_array c Hc Hnan). }
  unfold trace_particle_radial, trace_particle_3d.
  split; apply trace_particle_outside; assumption.
Qed.

Lemma tracers_stop_outside_the_box_witness :
  @trace_particle_radial RefLibm.libm 1 Sample.clock Sample2.far_corner Sample.box 1e-10
                         Sample.segments Sample.unit_charges 2
  = Some (1%nat, Sample.clock, Sample2.far_corner) /\
  @trace_particle_3d RefLibm.libm 1 Sample.clock Sample2.far_corner Sample.box 1e-10
                     Sample.segments Sample.unit_charges 2
  = Some (1%nat, Sample.clock, Sample2.far_corner).
Proof.
  apply (@tracers_stop_outside_the_box RefLibm.libm 1 Sample.clock Sample2.far_corner
           Sample.box 1e-10); [|lia].
  left. intros Hin. destruct (Hin 0%nat ltac:(lia)) as [_ H]. vm_compute in H. discriminate H.
Defined.
